(** * Lightning strike bucketing and stitching

    A shallow embedding of the clustering path of the lightning parser:
    [toolbox.chunk_items], [lightning_bucketer._group_process],
    [lightning_bucketer._bucket_dataframe_lightnings],
    [lightning_bucketer.bucket_dataframe_lightnings],
    [lightning_stitcher.filter_correlations_by_chain_size],
    [lightning_stitcher.stitch_lightning_strike] and
    [lightning_stitcher.stitch_lightning_strikes]; and of what stands
    around it: the other helpers of [toolbox] ([zig_zag_range],
    [hash_string_list], [compute_directory_hash], [save_cache_quick],
    [is_cached], [cpu_pct_to_cores], [lerp]), the result cache of
    [lightning_bucketer] ([_compute_cache_key], [_get_result_cache],
    [save_result_cache], [delete_result_cache]) and [export_as_csv].

    Number model.  The source computes on IEEE doubles.  Here a float is an
    exact rational [Q]: rounding, infinities and NaN are outside the model,
    and the literal [1e-5] is the rational [1 # 100000].  The one float
    operation of the source that raises is the power [v ** 2] on a
    threshold, which is [py.float_pow2].  Python integers are [Z],
    positions in arrays are [nat].

    Container model.  A Python list or numpy array is a [list]; a Python
    [set] of event indices is a [gset nat], whose iteration order
    ([elements]) is fixed but unspecified, as in Python; the adjacency
    [dict] of the chain validator is a [gmap] together with the list of its
    keys in insertion order; the [Counter] handed to the chunk scheduler is
    an association list in insertion order.

    Effects.  Exceptions are values of [py.result]; the in-place sort of the
    event table is returned explicitly by the function that performs it.
    What a function reads from the file system is an argument, what it
    writes is a result; digests and the formatting of numbers and dates are
    parameters of the sections that need them.

    Order of equal keys.  [sort_values] and the iteration of a [set] leave
    the order of entries with equal keys to the implementation; the model
    fixes one such order, and no statement below is about which. *)

From Stdlib Require Import QArith Qminmax Qabs Qround Lqa.
From stdpp Require Import gmap list strings pretty sorting.
From Equations Require Import Equations.

#[global] Set Warnings "-clear-no-such-hyp".

Global Instance Q_inhabited : Inhabited Q := populate 0%Q.

Global Instance Qle_decision : RelDecision Qle := λ a b,
  match Qlt_le_dec b a with
  | left H => right (Qlt_not_le _ _ H)
  | right H => left H
  end.

Global Instance Qlt_decision : RelDecision Qlt := λ a b,
  match Qlt_le_dec a b with
  | left H => left H
  | right H => right (Qle_not_lt _ _ H)
  end.

(** ** Python and numpy primitives used by the source *)

Module py.

(** The exception classes that occur.  [ConfigError] is the class the
    specification names for rejected parameters; no statement of the
    source constructs it. *)
Inductive exn :=
| IndexError | KeyError | TypeError | ValueError | OverflowError | ConfigError.

Inductive result (A : Type) :=
| Ok (a : A)
| Raise (e : exn).
Global Arguments Ok {A} a.
Global Arguments Raise {A} e.

Global Instance result_ret : MRet result := @Ok.
Global Instance result_bind : MBind result := λ A B f m,
  match m with Ok a => f a | Raise e => Raise e end.
Global Instance result_fmap : FMap result := λ A B f m,
  match m with Ok a => Ok (f a) | Raise e => Raise e end.

(** A [for] loop whose body may raise: the state after the last turn, or
    the first exception. *)
Fixpoint for_loop {S A} (body : S → A → result S) (st : S) (l : list A) : result S :=
  match l with
  | [] => Ok st
  | a :: rest => st ← body st a; for_loop body st rest
  end.

(** [a[i]] on a list or array: IndexError out of range. *)
Definition getitem {A} (a : list A) (i : nat) : result A :=
  match a !! i with
  | Some v => Ok v
  | None => Raise IndexError
  end.

(** [a[idx]] with an integer array [idx] (numpy fancy indexing). *)
Definition take_indices {A} (a : list A) (idx : list nat) : result (list A) :=
  mapM (getitem a) idx.

(** [a[mask]] with a boolean array of the same length. *)
Definition bool_index {A} (a : list A) (mask : list bool) : list A :=
  (filter (λ p, p.2 = true) (zip a mask)).*1.

(** [np.where(mask)[0]]: the positions that hold [True], ascending. *)
Definition np_where (mask : list bool) : list nat :=
  filter (λ i, mask !! i = Some true) (seq 0 (length mask)).

Definition np_any (mask : list bool) : bool := existsb id mask.

(** Elementwise arithmetic on arrays of equal length. *)
Definition np_sub_scalar (a : list Q) (c : Q) : list Q := (λ v, v - c)%Q <$> a.
Definition np_add (a b : list Q) : list Q := zip_with Qplus a b.
Definition np_mul (a b : list Q) : list Q := zip_with Qmult a b.
Definition np_div (a b : list Q) : list Q := zip_with Qdiv a b.
Definition np_and (a b : list bool) : list bool := zip_with andb a b.
Definition np_le_scalar (a : list Q) (c : Q) : list bool :=
  (λ v, bool_decide (v <= c)%Q) <$> a.
Definition np_ge_scalar (a : list Q) (c : Q) : list bool :=
  (λ v, bool_decide (c <= v)%Q) <$> a.

(** [np.where(d < 1e-5, 1e-5, d)] on one entry. *)
Definition dt2_floor (d : Q) : Q :=
  if decide (d < 1 # 100000)%Q then 1 # 100000 else d.

(** [v ** 2] on a float [v]: the square, or OverflowError when the square
    is not a finite double.  The largest double below [2 ** 512] squares to
    less than the largest finite double and [2 ** 512] squares to
    [2 ** 1024], so the power overflows exactly when the magnitude of [v]
    is at least [2 ** 512] (about 1.34e154). *)
Definition float_pow2 (v : Q) : result Q :=
  if decide (inject_Z (2 ^ 512) <= Qabs v)%Q then Raise OverflowError
  else Ok (v * v)%Q.

(** [np.diff]. *)
Fixpoint np_diff (a : list Q) : list Q :=
  match a with
  | [] => []
  | u :: rest =>
      match rest with
      | [] => []
      | v :: _ => (v - u)%Q :: np_diff rest
      end
  end.

(** [np.cumsum] on an integer array, from a running total. *)
Fixpoint cumsum_from (acc : nat) (a : list nat) : list nat :=
  match a with
  | [] => []
  | v :: rest => (acc + v) :: cumsum_from (acc + v) rest
  end.
Definition np_cumsum (a : list nat) : list nat := cumsum_from 0 a.

(** [np.argmin]: the first position of the least entry. *)
Fixpoint argmin_from (best : Q) (besti i : nat) (a : list Q) : nat :=
  match a with
  | [] => besti
  | v :: rest =>
      if decide (v < best)%Q then argmin_from v i (S i) rest
      else argmin_from best besti (S i) rest
  end.
Definition np_argmin (a : list Q) : nat :=
  match a with
  | [] => 0
  | v :: rest => argmin_from v 0 1 rest
  end.

(** [sorted(l, key=...)] with the keys already computed: Python's sort is
    stable, so is this insertion sort ([x] goes in front of the first
    entry whose key is not smaller). *)
Fixpoint insert_by_key {A} (x : A * Q) (l : list (A * Q)) : list (A * Q) :=
  match l with
  | [] => [x]
  | h :: rest =>
      if decide (x.2 <= h.2)%Q then x :: h :: rest
      else h :: insert_by_key x rest
  end.
Definition sort_by_key {A} (l : list (A * Q)) : list (A * Q) :=
  foldr insert_by_key [] l.

(** [collections.Counter(l)]: keys in order of first occurrence. *)
Fixpoint counter_add (k : nat) (c : list (nat * Z)) : list (nat * Z) :=
  match c with
  | [] => [(k, 1%Z)]
  | (k', n) :: rest =>
      if decide (k = k') then (k', (n + 1)%Z) :: rest
      else (k', n) :: counter_add k rest
  end.
Definition Counter (l : list nat) : list (nat * Z) :=
  foldl (λ c k, counter_add k c) [] l.

(** [{idx for pair in corr for idx in pair}]. *)
Definition unique_indices (corr : list (nat * nat)) : gset nat :=
  list_to_set (flat_map (λ pc, [pc.1; pc.2]) corr).

(** [range(lo, hi)]. *)
Definition py_range (lo hi : Z) : list Z :=
  (λ k, (lo + Z.of_nat k)%Z) <$> seq 0 (Z.to_nat (hi - lo)).

(** [int(v)] on a float: the fractional part is dropped (rounding towards
    zero). *)
Definition py_int (v : Q) : Z := (Qnum v ÷ Z.pos (Qden v))%Z.

End py.
Export py.

(** ** toolbox.py *)

Module toolbox.

Section chunk_items.
Context {K : Type}.

(** The generator's loop: [current_bin] and [current_size] are the
    generator's locals, the result lists what is yielded, in order.
    A yielded bin is never touched again (the name is rebound to a
    fresh list), so the yielded values are plain lists. *)
Fixpoint chunk_loop (max_chunk_size : Z) (items : list (K * Z))
    (current_bin : list K) (current_size : Z) : list (list K) :=
  match items with
  | [] =>
      match current_bin with
      | [] => []
      | _ => [current_bin]
      end
  | (number, count) :: rest =>
      if bool_decide (current_bin ≠ [] ∧ (max_chunk_size < current_size + count)%Z)
      then current_bin :: chunk_loop max_chunk_size rest [number] count
      else chunk_loop max_chunk_size rest (current_bin ++ [number])
             (current_size + count)%Z
  end.

Definition chunk_items (counter : list (K * Z)) (max_chunk_size : Z)
    : list (list K) :=
  chunk_loop max_chunk_size counter [] 0%Z.
End chunk_items.

(** What one turn of [for d in range(1, max_d + 1)] yields. *)
Definition zig_zag_turn (max_value start : Z) (first_pos : bool) (d : Z) : list Z :=
  let up := if decide (start + d < max_value)%Z then [(start + d)%Z] else [] in
  let down := if decide (0 ≤ start - d)%Z then [(start - d)%Z] else [] in
  if first_pos then up ++ down else down ++ up.

(** [zig_zag_range] is a generator: the result is the list of the values
    it yields until it is exhausted, or the exception that ends it (the
    ValueError is raised before the first value). *)
Definition zig_zag_range (max_value start : Z) : result (list Z) :=
  if decide (max_value = 0)%Z then Ok []
  else if decide (start < 0 ∨ max_value ≤ start)%Z then Raise ValueError
  else
    let up_max := (max_value - start - 1)%Z in
    let down_max := start in
    let max_d := Z.max up_max down_max in
    let first_pos := bool_decide (up_max < down_max)%Z in
    Ok (start :: flat_map (zig_zag_turn max_value start first_pos)
                   (py_range 1 (max_d + 1))).

(** A Python [str] is the [string] of its UTF-8 bytes; ["\0"] is the one
    byte 0, which occurs in the encoding of no other character.
    [sha256_hexdigest s] stands for [hashlib.sha256(s).hexdigest()]. *)
Definition NUL : string := String Ascii.zero EmptyString.

Section hash_string_list.
Variable sha256_hexdigest : string → string.

(** ['\0'.join(string_list)]. *)
Definition joined (string_list : list string) : string :=
  String.concat NUL string_list.

Definition hash_string_list (string_list : list string) : string :=
  sha256_hexdigest (joined string_list).
End hash_string_list.

(** The order of [list.sort] on strings: by code point, which on UTF-8
    bytes is the order byte by byte. *)
Definition string_le (s1 s2 : string) : Prop := String.leb s1 s2 = true.

Global Instance string_le_decision : RelDecision string_le := λ s1 s2,
  decide (String.leb s1 s2 = true).

(** What the file system shows of one name of [os.listdir(directory)]:
    whether [os.path.isfile] or [os.path.isdir] holds of its path, and the
    times [getctime] and [getmtime] give, [None] when one of them
    raises. *)
Record DirEntry := {
  entry_name : string;
  is_file_or_dir : bool;
  entry_times : option (Q * Q)
}.

(** The pickle file of [save_cache_quick]: absent, present with a content
    that [pickle.load] rejects with EOFError or UnpicklingError, or the
    pickle of a hash. *)
Inductive HashFile :=
| NoHashFile
| UnreadableHash
| StoredHash (dir_hash : string).

Section directory_hash.
Variable sha256_hexdigest : string → string.
(** [format_float t] stands for the text of the float [t] in an f-string. *)
Variable format_float : Q → string.

(** [f"{entry}:{ctime}:{mtime}"]; after an exception both times are the
    integer 0. *)
Definition item_of (entry : DirEntry) : string :=
  match entry_times entry with
  | Some (ctime, mtime) =>
      entry_name entry +:+ ":" +:+ format_float ctime +:+ ":" +:+ format_float mtime
  | None => entry_name entry +:+ ":0:0"
  end.

(** [listing] is [os.listdir(directory)] with what the file system shows
    of each name.  [items.sort()] puts the strings in ascending order; a
    list of strings has one such arrangement, computed here by a merge
    sort. *)
Definition compute_directory_hash (listing : list DirEntry) : string :=
  let items := item_of <$> filter (λ entry, is_file_or_dir entry = true) listing in
  let items := merge_sort string_le items in
  hash_string_list sha256_hexdigest items.

(** The cache file after [save_cache_quick(directory, cache_file)]. *)
Definition save_cache_quick (listing : list DirEntry) : HashFile :=
  StoredHash (compute_directory_hash listing).

Definition is_cached (listing : list DirEntry) (cache_file : HashFile) : bool :=
  let current_hash := compute_directory_hash listing in
  match cache_file with
  | StoredHash cached_hash => bool_decide (current_hash = cached_hash)
  | NoHashFile | UnreadableHash => false
  end.

End directory_hash.

(** [cpu_count] is what [os.cpu_count()] returns: an int, or [None].
    [raise("...")] raises a [str], which is a TypeError; so is the product
    of a float and [None].  [max(a, 1)] is [1] when [1 > a], else [a]. *)
Definition cpu_pct_to_cores (cpu_count : option Z) (pct : Q) : result Z :=
  if decide (pct < 0 ∨ 1 < pct)%Q then Raise TypeError
  else
    match cpu_count with
    | None => Raise TypeError
    | Some n =>
        let scaled := (pct * inject_Z n)%Q in
        Ok (if decide (scaled < 1)%Q then 1%Z else py_int scaled)
    end.

Definition lerp (start end_ t : Q) : Q := ((1 - t) * start + t * end_)%Q.

End toolbox.

(** ** The event table (a pandas DataFrame) *)

Module frame.

(** One row: its index label and the four columns the core reads. *)
Record Row := {
  label : nat;
  col_x : Q;
  col_y : Q;
  col_z : Q;
  time_unix : Q
}.

Global Instance Row_inhabited : Inhabited Row :=
  populate {| label := 0; col_x := 0; col_y := 0; col_z := 0; time_unix := 0 |}.

Abbreviation DataFrame := (list Row).

(** [df["time_unix"].values] and friends: the column in row order. *)
Definition values (col : Row → Q) (df : DataFrame) : list Q := col <$> df.

(** [df.iloc[idx]] with a list of positions. *)
Definition iloc (df : DataFrame) (idx : list nat) : result DataFrame :=
  take_indices df idx.

(** What [events.loc[idx, "time_unix"]] evaluates to: a scalar when the
    label [idx] occurs once, a Series when it occurs several times;
    KeyError when it does not occur. *)
Inductive cell := Scalar (t : Q) | Series.

Definition loc_time_unix (events : DataFrame) (idx : nat) : result cell :=
  match filter (λ r, label r = idx) events with
  | [] => Raise KeyError
  | [r] => Ok (Scalar (time_unix r))
  | _ => Ok Series
  end.

Definition cell_value (c : cell) : Q :=
  match c with Scalar t => t | Series => 0%Q end.

Definition is_series (c : cell) : bool :=
  match c with Scalar _ => false | Series => true end.

(** [df.sort_values(by="time_unix")]: rows travel with their labels.
    pandas' default sort (quicksort) leaves the order of rows with equal
    times to the algorithm; the model takes the order of a stable sort,
    and no statement depends on how rows with equal times are arranged. *)
Definition sort_values (df : DataFrame) : DataFrame :=
  (sort_by_key ((λ r, (r, time_unix r)) <$> df)).*1.

End frame.
Export frame.

(** ** The parameter dictionary *)

Module params.

(** [params] is a dict read only through [params.get(key, default)] with
    the nine recognised keys; a key that is absent is [None].  A threshold
    that is present is a float, as the docstrings have it; the defaults
    are small numbers, whose squares are the same as ints and as floats. *)
Record Params := {
  max_lightning_time_threshold : option Q;
  max_lightning_duration : option Q;
  max_lightning_dist : option Q;
  max_lightning_speed : option Q;
  min_lightning_speed : option Q;
  min_lightning_points : option Z;
  combine_strikes_with_intercepting_times : option bool;
  intercepting_times_extension_buffer : option Q;
  intercepting_times_extension_max_distance : option Q
}.

Definition get {A} (entry : option A) (dflt : A) : A := default dflt entry.

Definition no_params : Params :=
  Build_Params None None None None None None None None None.

(** The dict with the key "max_lightning_duration" set. *)
Definition with_duration (d : Q) (params : Params) : Params :=
  {| max_lightning_time_threshold := max_lightning_time_threshold params;
     max_lightning_duration := Some d;
     max_lightning_dist := max_lightning_dist params;
     max_lightning_speed := max_lightning_speed params;
     min_lightning_speed := min_lightning_speed params;
     min_lightning_points := min_lightning_points params;
     combine_strikes_with_intercepting_times :=
       combine_strikes_with_intercepting_times params;
     intercepting_times_extension_buffer := intercepting_times_extension_buffer params;
     intercepting_times_extension_max_distance :=
       intercepting_times_extension_max_distance params |}.

End params.
Export params.

(** ** lightning_stitcher.py *)

Module lightning_stitcher.

(** The adjacency dict [graph]: a node's neighbour set, and the keys in the
    order in which [setdefault] created them ([for node in graph] follows
    it). *)
Record Graph := {
  adjacency : gmap nat (gset nat);
  keys : list nat
}.

Definition empty_graph : Graph := {| adjacency := ∅; keys := [] |}.

(** [graph.setdefault(k, set()).add(v)]. *)
Definition setdefault_add (k v : nat) (graph : Graph) : Graph :=
  match adjacency graph !! k with
  | Some s =>
      {| adjacency := <[k := {[v]} ∪ s]> (adjacency graph); keys := keys graph |}
  | None =>
      {| adjacency := <[k := {[v]}]> (adjacency graph); keys := keys graph ++ [k] |}
  end.

Definition build_graph (correlations : list (nat * nat)) : Graph :=
  foldl (λ graph pc, setdefault_add pc.2 pc.1 (setdefault_add pc.1 pc.2 graph))
    empty_graph correlations.

(** [graph.get(current, [])]. *)
Definition graph_get (adj : gmap nat (gset nat)) (current : nat) : gset nat :=
  default ∅ (adj !! current).

(** What is left to push: the neighbour counts of the keys that are not in
    the component yet.  With the stack length it bounds the remaining
    iterations of the [while stack] loop. *)
Definition pending (adj : gmap nat (gset nat)) (component : gset nat) : nat :=
  sum_list_with (λ k, size (graph_get adj k)) (elements (dom adj ∖ component)).

(** The [while stack] loop.  The head of [stack] is the element that
    [stack.pop()] returns; [stack.extend(s)] pushes the elements of the set
    in its iteration order, so the last one iterated ends on top. *)
Equations dfs (adj : gmap nat (gset nat)) (stack : list nat) (component : gset nat)
    : gset nat by wf (length stack + pending adj component)%nat lt :=
dfs adj [] component := component;
dfs adj (current :: stack) component with decide (current ∈ component) := {
  | left _ => dfs adj stack component
  | right _ =>
      dfs adj (reverse (elements (graph_get adj current)) ++ stack)
        ({[current]} ∪ component) }.
Next Obligation.
  clear dfs. rename n into Hnotin.
  rewrite length_app, length_reverse.
  change (length (elements (graph_get adj current)))
    with (size (graph_get adj current)).
  assert (pending adj ({[current]} ∪ component) + size (graph_get adj current)
          ≤ pending adj component)%nat as Hle; [|simpl; lia].
  unfold pending.
  destruct (decide (current ∈ dom adj)) as [Hin|Hout].
  - assert (dom adj ∖ component
            = {[current]} ∪ dom adj ∖ ({[current]} ∪ component)) as ->.
    { apply set_eq. intros k.
      rewrite elem_of_union, !elem_of_difference, elem_of_union, elem_of_singleton.
      destruct (decide (k = current)) as [->|]; tauto. }
    rewrite elements_union_singleton
      by (rewrite elem_of_difference, elem_of_union, elem_of_singleton; tauto).
    simpl. lia.
  - assert (dom adj ∖ ({[current]} ∪ component) = dom adj ∖ component) as ->.
    { apply set_eq. intros k.
      rewrite !elem_of_difference, elem_of_union, elem_of_singleton.
      split; [tauto|]. intros [Hk Hc]. split; [done|]. intros [->|?]; tauto. }
    assert (size (graph_get adj current) = 0%nat) as ->; [|lia].
    unfold graph_get. rewrite (not_elem_of_dom_1 adj current Hout).
    apply size_empty.
Qed.

(** One turn of [for node in graph]. *)
Definition component_step (graph : Graph) (min_pts : Z)
    (st : gset nat * gset nat) (node : nat) : gset nat * gset nat :=
  let '(visited, valid_nodes) := st in
  if decide (node ∈ visited) then (visited, valid_nodes)
  else
    let component := dfs (adjacency graph) [node] ∅ in
    (visited ∪ component,
     if decide (min_pts ≤ Z.of_nat (size component))%Z
     then valid_nodes ∪ component else valid_nodes).

Definition valid_nodes_of (correlations : list (nat * nat)) (min_pts : Z) : gset nat :=
  let graph := build_graph correlations in
  (foldl (component_step graph min_pts) (∅, ∅) (keys graph)).2.

Definition filter_correlations_by_chain_size
    (correlations : list (nat * nat)) (min_pts : Z) : list (nat * nat) :=
  let valid_nodes := valid_nodes_of correlations min_pts in
  filter (λ pc, pc.1 ∈ valid_nodes ∧ pc.2 ∈ valid_nodes) correlations.

(** The mask of [stitch_lightning_strike] over the predecessors of event
    [i], from the four arrays of the time-sorted strike. *)
Section stitch_lightning_strike.
Variable params : Params.

Definition distances_squared_to (all_x all_y all_z : list Q) (i : nat) : list Q :=
  let x1 := all_x !!! i in
  let y1 := all_y !!! i in
  let z1 := all_z !!! i in
  let x_pre := take i all_x in
  let y_pre := take i all_y in
  let z_pre := take i all_z in
  let dx := np_sub_scalar x_pre x1 in
  let dy := np_sub_scalar y_pre y1 in
  let dz := np_sub_scalar z_pre z1 in
  np_add (np_add (np_mul dx dx) (np_mul dy dy)) (np_mul dz dz).

Definition dt_squared_to (all_times : list Q) (i : nat) : list Q :=
  let current_time := all_times !!! i in
  let times_pre := take i all_times in
  let dt := (λ t, current_time - t)%Q <$> times_pre in
  dt2_floor <$> np_mul dt dt.

(** Lines 132 to 135: the mask from the three arrays and the four squared
    thresholds. *)
Definition mask_of (distances_squared speeds_squared dt_squared : list Q)
    (max_dist_squared max_speed_squared min_speed_squared
       max_time_threshold_squared : Q) : list bool :=
  let mask := np_le_scalar distances_squared max_dist_squared in
  let mask := np_and mask (np_le_scalar speeds_squared max_speed_squared) in
  let mask := np_and mask (np_ge_scalar speeds_squared min_speed_squared) in
  np_and mask (np_le_scalar dt_squared max_time_threshold_squared).

(** The body of [for i in range(len(strike_indeces))], on the pair
    [(parsed_indices, correlations)].  The four thresholds are squared in
    every turn that has a predecessor, which is where a threshold too large
    to square raises OverflowError. *)
Definition stitch_event (strike_indeces : list nat) (all_x all_y all_z all_times : list Q)
    (st : list nat * list (nat * nat)) (i : nat)
    : result (list nat * list (nat * nat)) :=
  let max_time_threshold := get (max_lightning_time_threshold params) 1%Q in
  let max_dist_between_pts := get (max_lightning_dist params) 50000%Q in
  let max_speed := get (max_lightning_speed params) (299792458 # 1000)%Q in
  let min_speed := get (min_lightning_speed params) 0%Q in
  let '(parsed_indices, correlations) := st in
  let current_indice := strike_indeces !!! i in
  correlations ←
    (if decide (0 < length parsed_indices)%nat then
       let distances_squared := distances_squared_to all_x all_y all_z i in
       let dt_squared := dt_squared_to all_times i in
       let speeds_squared := np_div distances_squared dt_squared in
       max_dist_squared ← float_pow2 max_dist_between_pts;
       max_speed_squared ← float_pow2 max_speed;
       min_speed_squared ← float_pow2 min_speed;
       max_time_threshold_squared ← float_pow2 max_time_threshold;
       let mask :=
         mask_of distances_squared speeds_squared dt_squared max_dist_squared
           max_speed_squared min_speed_squared max_time_threshold_squared in
       let valid_indices := np_where mask in
       if decide (0 < length valid_indices)%nat then
         let valid_distances_squared := (λ k, distances_squared !!! k) <$> valid_indices in
         let min_valid_idx := np_argmin valid_distances_squared in
         let candidate_idx := valid_indices !!! min_valid_idx in
         let parent_indice := parsed_indices !!! candidate_idx in
         Ok (correlations ++ [(parent_indice, current_indice)])
       else Ok correlations
     else Ok correlations);
  Ok (parsed_indices ++ [current_indice], correlations).

(** [sorted(strike_indeces, key=lambda idx: events.loc[idx, "time_unix"])]:
    every key is computed first (KeyError for a label that does not
    occur); comparing a Series key raises ValueError, and with two or more
    entries every key is compared. *)
Definition sorted_strike (strike_indeces : list nat) (events : DataFrame)
    : result (list nat) :=
  cells ← mapM (loc_time_unix events) strike_indeces;
  if decide (2 ≤ length strike_indeces ∧ existsb is_series cells = true)%nat
  then Raise ValueError
  else Ok (sort_by_key (zip strike_indeces (cell_value <$> cells))).*1.

(** The correlations before the component-size filter, with the order in
    which the events were processed. *)
Definition stitch_loop (strike_indeces : list nat) (events : DataFrame)
    : result (list nat * list (nat * nat)) :=
  strike_indeces ← sorted_strike strike_indeces events;
  strike_series_df ← iloc events strike_indeces;
  let all_x := values col_x strike_series_df in
  let all_y := values col_y strike_series_df in
  let all_z := values col_z strike_series_df in
  let all_times := values time_unix strike_series_df in
  '(_, correlations) ←
    for_loop (stitch_event strike_indeces all_x all_y all_z all_times)
      ([], []) (seq 0 (length strike_indeces));
  Ok (strike_indeces, correlations).

Definition stitch_lightning_strike (strike_indeces : list nat) (events : DataFrame)
    : result (list (nat * nat)) :=
  let min_pts := get (min_lightning_points params) 300%Z in
  '(_, correlations) ← stitch_loop strike_indeces events;
  Ok (filter_correlations_by_chain_size correlations min_pts).

(** [sorted(corr, key=lambda corr: all_times[corr[0]])]. *)
Definition sort_correlations (all_times : list Q) (corr : list (nat * nat))
    : result (list (nat * nat)) :=
  keyed ← mapM (λ c, t ← getitem all_times c.1; Ok (c, t)) corr;
  Ok (sort_by_key keyed).*1.

(** [corr[0][0]] and [corr[-1][-1]]. *)
Definition first_parent (corr : list (nat * nat)) : result nat :=
  match head corr with
  | Some pc => Ok pc.1
  | None => Raise IndexError
  end.

Definition last_child (corr : list (nat * nat)) : result nat :=
  match last corr with
  | Some pc => Ok pc.2
  | None => Raise IndexError
  end.

(** The inner loop [for i, temp_corr in enumerate(temp_bucketed_correlations)]
    for one candidate [sorted_corr]: [Some] of the updated list when a merge
    happened ([result_found]), [None] otherwise.  [max_distance_sq] is the
    square computed once, at line 189. *)
Fixpoint merge_into (max_distance_sq : Q) (events : DataFrame)
    (sorted_corr : list (nat * nat))
    (start_time end_time x1 y1 z1 : Q)
    (temp_bucketed_correlations : list (list (nat * nat)))
    : result (option (list (list (nat * nat)))) :=
  let ext_buffer := get (intercepting_times_extension_buffer params) 10%Q in
  let max_duration := get (max_lightning_duration params) 10%Q in
  let all_times := values time_unix events in
  let all_x := values col_x events in
  let all_y := values col_y events in
  let all_z := values col_z events in
  match temp_bucketed_correlations with
  | [] => Ok None
  | temp_corr :: rest =>
      temp_start ← first_parent temp_corr ≫= getitem all_times;
      temp_last ← last_child temp_corr ≫= getitem all_times;
      let temp_end := (temp_last + ext_buffer)%Q in
      let within_duration :=
        bool_decide (Qmax (Qabs (end_time - temp_start)) (Qabs (start_time - temp_end))
                     < max_duration)%Q in
      let intercept_window :=
        bool_decide (temp_start < start_time)%Q && bool_decide (start_time < temp_end)%Q in
      hit ←
        (if intercept_window && within_duration then
           let unique_idx_list := elements (unique_indices temp_corr) in
           xs ← take_indices all_x unique_idx_list;
           ys ← take_indices all_y unique_idx_list;
           zs ← take_indices all_z unique_idx_list;
           let dx := np_sub_scalar xs x1 in
           let dy := np_sub_scalar ys y1 in
           let dz := np_sub_scalar zs z1 in
           let dist_sq := np_add (np_add (np_mul dx dx) (np_mul dy dy)) (np_mul dz dz) in
           Ok (np_any (np_le_scalar dist_sq max_distance_sq))
         else Ok false);
      match hit with
      | true =>
          let combined_corr := temp_corr ++ sorted_corr in
          let unique_idx_list := elements (unique_indices combined_corr) in
          merged ← stitch_lightning_strike unique_idx_list events;
          merged ← sort_correlations all_times merged;
          Ok (Some (merged :: rest))
      | false =>
          found ← merge_into max_distance_sq events sorted_corr start_time end_time
                    x1 y1 z1 rest;
          Ok (option_map (cons temp_corr) found)
      end
  end.

(** The outer loop [for correlations in bucketed_correlations] of the
    merge pass, on [temp_bucketed_correlations]. *)
Definition merge_step (max_distance_sq : Q) (events : DataFrame)
    (temp_bucketed_correlations : list (list (nat * nat)))
    (correlations : list (nat * nat)) : result (list (list (nat * nat))) :=
  let all_times := values time_unix events in
  let all_x := values col_x events in
  let all_y := values col_y events in
  let all_z := values col_z events in
  if decide (length correlations = 0)%nat then Ok temp_bucketed_correlations
  else
    sorted_corr ← sort_correlations all_times correlations;
    start_idx ← first_parent sorted_corr;
    end_idx ← last_child sorted_corr;
    start_time ← getitem all_times start_idx;
    end_time ← getitem all_times end_idx;
    x1 ← getitem all_x start_idx;
    y1 ← getitem all_y start_idx;
    z1 ← getitem all_z start_idx;
    found ← merge_into max_distance_sq events sorted_corr start_time end_time x1 y1 z1
              temp_bucketed_correlations;
    match found with
    | Some merged => Ok merged
    | None => Ok (temp_bucketed_correlations ++ [sorted_corr])
    end.

Fixpoint merge_loop (max_distance_sq : Q) (events : DataFrame)
    (bucketed_correlations temp_bucketed_correlations : list (list (nat * nat)))
    : result (list (list (nat * nat))) :=
  match bucketed_correlations with
  | [] => Ok temp_bucketed_correlations
  | correlations :: rest =>
      temp ← merge_step max_distance_sq events temp_bucketed_correlations correlations;
      merge_loop max_distance_sq events rest temp
  end.

Definition stitch_lightning_strikes (bucketed_strike_indices : list (list nat))
    (events : DataFrame) : result (list (list (nat * nat))) :=
  bucketed_correlations ←
    mapM (λ strike_indices, stitch_lightning_strike strike_indices events)
      bucketed_strike_indices;
  let combine := get (combine_strikes_with_intercepting_times params) true in
  let max_distance := get (intercepting_times_extension_max_distance params) 15000%Q in
  max_distance_sq ← float_pow2 max_distance;
  if combine then merge_loop max_distance_sq events bucketed_correlations []
  else Ok bucketed_correlations.

End stitch_lightning_strike.

End lightning_stitcher.

(** ** lightning_bucketer.py *)

Module lightning_bucketer.

(** A candidate strike of [_group_process]: the dict with the keys
    "indices", "x", "y", "z" and "unix", five lists that grow together. *)
Record SubGroup := {
  sg_indices : list nat;
  sg_x : list Q;
  sg_y : list Q;
  sg_z : list Q;
  sg_unix : list Q
}.

(** [np.array(sg["unix"])[0]]; the list of an open subgroup is never
    empty. *)
Definition first_unix (sg : SubGroup) : Q := sg_unix sg !!! 0%nat.

(** The loop [for sg in sub_groups] of lines 85 to 118, which reads the
    three squares that lines 80 to 82 have computed. *)
Section attach.
Variables (max_lightning_duration max_dist_squared max_time_threshold : Q).
Variables (min_speed_squared max_speed_squared : Q).

(** The body of [for sg in sub_groups] up to the [append]s: does [sg] take
    the event? *)
Definition accepts (event_x event_y event_z event_unix : Q) (sg : SubGroup) : bool :=
  let dt_all := (λ u, Qabs (event_unix - u)) <$> sg_unix sg in
  let candidate_mask := np_le_scalar dt_all max_time_threshold in
  if negb (np_any candidate_mask) then false
  else
    let candidate_x := bool_index (sg_x sg) candidate_mask in
    let candidate_y := bool_index (sg_y sg) candidate_mask in
    let candidate_z := bool_index (sg_z sg) candidate_mask in
    let candidate_dt := bool_index dt_all candidate_mask in
    let dx := np_sub_scalar candidate_x event_x in
    let dy := np_sub_scalar candidate_y event_y in
    let dz := np_sub_scalar candidate_z event_z in
    let distances_squared :=
      np_add (np_add (np_mul dx dx) (np_mul dy dy)) (np_mul dz dz) in
    if np_any (np_le_scalar distances_squared max_dist_squared) then
      let candidate_dt_squared := np_mul candidate_dt candidate_dt in
      let dt_squared := dt2_floor <$> candidate_dt_squared in
      let speeds_squared := np_div distances_squared dt_squared in
      if np_any (np_and (np_ge_scalar speeds_squared min_speed_squared)
                        (np_le_scalar speeds_squared max_speed_squared))
      then bool_decide (event_unix - first_unix sg <= max_lightning_duration)%Q
      else false
    else false.

(** The five [append]s. *)
Definition append_event (j : nat) (event_x event_y event_z event_unix : Q)
    (sg : SubGroup) : SubGroup :=
  {| sg_indices := sg_indices sg ++ [j];
     sg_x := sg_x sg ++ [event_x];
     sg_y := sg_y sg ++ [event_y];
     sg_z := sg_z sg ++ [event_z];
     sg_unix := sg_unix sg ++ [event_unix] |}.

(** [for sg in sub_groups: ... break]: the first subgroup that accepts the
    event is extended in place; [None] when [found] stays False. *)
Fixpoint try_attach (j : nat) (event_x event_y event_z event_unix : Q)
    (sub_groups : list SubGroup) : option (list SubGroup) :=
  match sub_groups with
  | [] => None
  | sg :: rest =>
      if accepts event_x event_y event_z event_unix sg
      then Some (append_event j event_x event_y event_z event_unix sg :: rest)
      else cons sg <$> try_attach j event_x event_y event_z event_unix rest
  end.

End attach.

Section group_process.
Variables (all_x_values all_y_values all_z_values all_unix_values : list Q).
Variable min_pts : Z.
Variable group_ids : list nat.
Variables (max_lightning_duration max_dist_between_pts max_time_threshold : Q).
Variables (min_speed max_speed : Q).

(** [[group_indices[idx] for idx in sg["indices"]]]; every [idx] is a
    position of the group. *)
Definition strike_of (group_indices : list nat) (sg : SubGroup) : list nat :=
  (λ idx, group_indices !!! idx) <$> sg_indices sg.

(** The body of [for j in range(len(x_vals))], on the pair
    [(lightning_strikes, sub_groups)] ([lightning_strikes] holds what this
    group has added so far).  The three thresholds are squared in every
    turn, which is where a threshold too large to square raises
    OverflowError. *)
Definition event_step (group_indices : list nat) (x_vals y_vals z_vals unix_vals : list Q)
    (st : list (list nat) * list SubGroup) (j : nat)
    : result (list (list nat) * list SubGroup) :=
  let '(lightning_strikes, sub_groups) := st in
  let event_x := x_vals !!! j in
  let event_y := y_vals !!! j in
  let event_z := z_vals !!! j in
  let event_unix := unix_vals !!! j in
  let lightning_strikes :=
    lightning_strikes ++
    (strike_of group_indices <$>
       filter (λ sg, (max_lightning_duration < event_unix - first_unix sg)%Q
                     ∧ (min_pts ≤ Z.of_nat (length (sg_indices sg)))%Z) sub_groups) in
  let sub_groups :=
    filter (λ sg, (event_unix - first_unix sg <= max_lightning_duration)%Q) sub_groups in
  max_dist_squared ← float_pow2 max_dist_between_pts;
  min_speed_squared ← float_pow2 min_speed;
  max_speed_squared ← float_pow2 max_speed;
  match try_attach max_lightning_duration max_dist_squared max_time_threshold
          min_speed_squared max_speed_squared j event_x event_y event_z event_unix
          sub_groups with
  | Some sub_groups => Ok (lightning_strikes, sub_groups)
  | None =>
      Ok (lightning_strikes,
          sub_groups ++ [{| sg_indices := [j]; sg_x := [event_x]; sg_y := [event_y];
                            sg_z := [event_z]; sg_unix := [event_unix] |}])
  end.

(** The body of [for group in unique_groups]: the strikes this group adds
    to [lightning_strikes]. *)
Definition process_group (group : nat) : result (list (list nat)) :=
  let group_indices := np_where ((λ g, bool_decide (g = group)) <$> group_ids) in
  if decide (Z.of_nat (length group_indices) < min_pts)%Z then Ok []
  else
    x_vals ← take_indices all_x_values group_indices;
    y_vals ← take_indices all_y_values group_indices;
    z_vals ← take_indices all_z_values group_indices;
    unix_vals ← take_indices all_unix_values group_indices;
    '(lightning_strikes, sub_groups) ←
      for_loop (event_step group_indices x_vals y_vals z_vals unix_vals) ([], [])
        (seq 0 (length x_vals));
    Ok (lightning_strikes ++
        (strike_of group_indices <$>
           filter (λ sg, (min_pts ≤ Z.of_nat (length (sg_indices sg)))%Z) sub_groups)).

Fixpoint group_loop (unique_groups : list nat) (lightning_strikes : list (list nat))
    : result (list (list nat)) :=
  match unique_groups with
  | [] => Ok lightning_strikes
  | group :: rest =>
      added ← process_group group;
      group_loop rest (lightning_strikes ++ added)
  end.

Definition _group_process (unique_groups : list nat) : result (list (list nat)) :=
  group_loop unique_groups [].

End group_process.

(** [for args in args_list: lightning_strikes += _group_process(args)]
    ([pool.imap] returns the results in the same order). *)
Fixpoint chunk_loop (run : list nat → result (list (list nat)))
    (chunks : list (list nat)) (lightning_strikes : list (list nat))
    : result (list (list nat)) :=
  match chunks with
  | [] => Ok lightning_strikes
  | chunk :: rest =>
      added ← run chunk;
      chunk_loop run rest (lightning_strikes ++ added)
  end.

(** [np.concatenate(([0], np.cumsum((delta_t > max_time_threshold).astype(int))))]. *)
Definition time_groups_of (time_unix_array : list Q) (max_time_threshold : Q) : list nat :=
  let delta_t := np_diff time_unix_array in
  0%nat :: np_cumsum ((λ d, if decide (max_time_threshold < d)%Q then 1%nat else 0%nat)
                      <$> delta_t).

(** [MAX_CHUNK_SIZE] is a module global; it is the first argument here.
    The table is sorted in place: the sorted table is returned with the
    strikes, whose entries are positions in it. *)
Definition _bucket_dataframe_lightnings (MAX_CHUNK_SIZE : Z) (df : DataFrame)
    (max_time_threshold max_lightning_duration max_dist_between_pts max_speed
       min_speed : Q) (min_pts : Z) : result (DataFrame * list (list nat)) :=
  let df := sort_values df in
  let time_unix_array := values time_unix df in
  let time_groups := time_groups_of time_unix_array max_time_threshold in
  let group_ids := time_groups in
  let group_counter := Counter group_ids in
  let chunks := toolbox.chunk_items group_counter MAX_CHUNK_SIZE in
  let all_x_values := values col_x df in
  let all_y_values := values col_y df in
  let all_z_values := values col_z df in
  let all_unix_values := values time_unix df in
  lightning_strikes ←
    chunk_loop
      (_group_process all_x_values all_y_values all_z_values all_unix_values
         min_pts group_ids max_lightning_duration max_dist_between_pts
         max_time_threshold min_speed max_speed)
      chunks [];
  Ok (df, lightning_strikes).

(** The pair [(filtered_groups, bucketed_correlations)]. *)
Definition Result : Type := list (list nat) * list (list (nat * nat)).

(** The call [lightning_stitcher.stitch_lightning_strikes(raw_groups, df, params)]
    of line 342.  The callee is declared
    [def stitch_lightning_strikes(bucketed_strike_indices, events, **params)]:
    it takes two positional arguments, and the dict is passed as a third
    one, so binding the arguments raises TypeError before the body runs. *)
Definition call_stitch_lightning_strikes (raw_groups : list (list nat))
    (df : DataFrame) (params : Params) : result (list (list (nat * nat))) :=
  Raise TypeError.

(** [for correlations in bucketed_correlations:
      filtered_groups.append(list({idx for pair in correlations for idx in pair}))]. *)
Definition gather_unique_indices (bucketed_correlations : list (list (nat * nat)))
    : list (list nat) :=
  (λ correlations, elements (unique_indices correlations)) <$> bucketed_correlations.

(** The first statement after the cache lookup,
    [raw_groups = _bucket_dataframe_lightnings(df, max_time_threshold=..., ...)],
    with the six [params.get(key, default)]. *)
Definition raw_groups_of (MAX_CHUNK_SIZE : Z) (df : DataFrame) (params : Params)
    : result (DataFrame * list (list nat)) :=
  _bucket_dataframe_lightnings MAX_CHUNK_SIZE df
    (get (max_lightning_time_threshold params) 1%Q)
    (get (max_lightning_duration params) 20%Q)
    (get (max_lightning_dist params) 50000%Q)
    (get (max_lightning_speed params) (299792458 # 1000)%Q)
    (get (min_lightning_speed params) 0%Q)
    (get (min_lightning_points params) 300%Z).

(** [cached] is what [_get_result_cache(df, params)] returns when
    [USE_CACHE] holds ([None] on a miss, and when the cache is off); the
    write to the cache file at the end is not modelled. *)
Definition bucket_dataframe_lightnings (MAX_CHUNK_SIZE : Z) (cached : option Result)
    (df : DataFrame) (params : Params) : result Result :=
  match cached with
  | Some cached_data => Ok cached_data
  | None =>
      '(df, raw_groups) ← raw_groups_of MAX_CHUNK_SIZE df params;
      bucketed_correlations ← call_stitch_lightning_strikes raw_groups df params;
      let filtered_groups := gather_unique_indices bucketed_correlations in
      Ok (filtered_groups, bucketed_correlations)
  end.

(** The file [RESULT_CACHE_FILE]: absent, present with a content that
    [pkl.load] rejects, or the pickle of a dict from cache keys to results,
    which is what [save_result_cache] writes.  A pickle of another kind of
    object is outside the model. *)
Inductive CacheFile :=
| Absent
| Unreadable
| Pickled (cache : gmap string Result).

(** [df["time_unix"].min()] and [.max()]: NaN, here [None], on an empty
    column. *)
Definition series_min (column : list Q) : option Q :=
  match column with
  | [] => None
  | v :: rest => Some (foldl Qmin v rest)
  end.

Definition series_max (column : list Q) : option Q :=
  match column with
  | [] => None
  | v :: rest => Some (foldl Qmax v rest)
  end.

Section result_cache.
(** [key_digest rows lo hi params] stands for the MD5 hex digest of the
    string [f"{df.shape}_{lo}_{hi}_{sorted(params.items())}"], as a
    function of what is formatted into it.  [df.shape] is the pair of the
    row count and the column count; the tables of the model all have the
    same columns, so the row count is what varies. *)
Variable key_digest : nat → option Q → option Q → Params → string.

Definition _compute_cache_key (df : DataFrame) (params : Params) : string :=
  key_digest (length df) (series_min (values time_unix df))
    (series_max (values time_unix df)) params.

(** [os.remove] when the file exists. *)
Definition delete_result_cache (file : CacheFile) : CacheFile := Absent.

(** The file is only read; a load error is caught and gives [None]. *)
Definition _get_result_cache (file : CacheFile) (df : DataFrame) (params : Params)
    : option Result :=
  let key := _compute_cache_key df params in
  match file with
  | Pickled cache => cache !! key
  | Absent | Unreadable => None
  end.

(** The file after the call: a load error is caught and gives the empty
    dict. *)
Definition save_result_cache (file : CacheFile) (df : DataFrame) (params : Params)
    (result : Result) : CacheFile :=
  let key := _compute_cache_key df params in
  let cache :=
    match file with
    | Pickled cache => cache
    | Absent | Unreadable => ∅
    end in
  Pickled (<[key := result]> cache).

(** [bucket_dataframe_lightnings] with the cache file as state: what the
    call returns or raises, and the file after it.  [USE_CACHE] is a module
    global; it is the first argument here.  [df] is sorted in place by
    [_bucket_dataframe_lightnings], so the key of the final
    [save_result_cache] is computed from the sorted table. *)
Definition bucket_dataframe_lightnings_cached (USE_CACHE : bool) (MAX_CHUNK_SIZE : Z)
    (file : CacheFile) (df : DataFrame) (params : Params) : result Result * CacheFile :=
  let cached_data := if USE_CACHE then _get_result_cache file df params else None in
  match cached_data with
  | Some cached_data => (Ok cached_data, file)
  | None =>
      match raw_groups_of MAX_CHUNK_SIZE df params with
      | Raise e => (Raise e, file)
      | Ok (df, raw_groups) =>
          match call_stitch_lightning_strikes raw_groups df params with
          | Raise e => (Raise e, file)
          | Ok bucketed_correlations =>
              let filtered_groups := gather_unique_indices bucketed_correlations in
              let result := (filtered_groups, bucketed_correlations) in
              (Ok result, save_result_cache file df params result)
          end
      end
  end.

End result_cache.

(** [export_as_csv] writes into [output_dir], which it creates when it
    does not exist.  [files] maps the names that exist in [output_dir] to
    their contents (no name when the directory is new); the content that
    [to_csv] writes is kept as the rows of the strike.
    [safe_start_time t] stands for what [fromtimestamp], [strftime] and
    [re.sub] make of the start time [t]: the text, or the exception that
    [fromtimestamp] raises for a time it cannot represent (ValueError for a
    year outside 1 to 9999, OverflowError beyond the platform's range). *)
Section export_as_csv.
Variable safe_start_time : Q → result string.

(** [f"{safe_start_time}.csv"] and [f"{safe_start_time}_{counter}.csv"]. *)
Definition csv_name (stem : string) (counter : option nat) : string :=
  match counter with
  | None => stem +:+ ".csv"
  | Some k => stem +:+ "_" +:+ pretty k +:+ ".csv"
  end.

(** [while os.path.exists(output_filename): ...], at most [fuel] turns:
    [None] when the name is still taken after them. *)
Fixpoint free_name (fuel : nat) (files : gmap string DataFrame) (stem : string)
    (output_filename : string) (counter : nat) : option string :=
  if decide (is_Some (files !! output_filename)) then
    match fuel with
    | O => None
    | S fuel =>
        free_name fuel files stem (csv_name stem (Some counter)) (S counter)
    end
  else Some output_filename.

(** What the call raises, if anything, and the files after it; the files
    of the strikes before a failing one are written.  [None] when a
    [while] loop needs more than [fuel] turns. *)
Fixpoint export_as_csv (fuel : nat) (bucketed_strike_indices : list (list nat))
    (events : DataFrame) (files : gmap string DataFrame)
    : option (result unit * gmap string DataFrame) :=
  match bucketed_strike_indices with
  | [] => Some (Ok tt, files)
  | indices :: rest =>
      match iloc events indices with
      | Raise e => Some (Raise e, files)
      | Ok rows =>
          let strike_df := sort_values rows in
          match strike_df with
          | [] => Some (Raise IndexError, files)
          | first :: _ =>
              match safe_start_time (time_unix first) with
              | Raise e => Some (Raise e, files)
              | Ok stem =>
                  match free_name fuel files stem (csv_name stem None) 1 with
                  | None => None
                  | Some output_filename =>
                      export_as_csv fuel rest events
                        (<[output_filename := strike_df]> files)
                  end
              end
          end
      end
  end.

End export_as_csv.

End lightning_bucketer.

(** * Specification-level definitions *)

(** The order [sorted] and [sort_values] establish: by the key. *)
Definition key_le {A} (a b : A * Q) : Prop := (a.2 <= b.2)%Q.

(** A threshold that [v ** 2] can square: the square is a finite float. *)
Definition squarable (v : Q) : Prop := (Qabs v < inject_Z (2 ^ 512))%Q.

Global Instance squarable_decision v : Decision (squarable v) :=
  decide (Qabs v < inject_Z (2 ^ 512))%Q.

(** Small tables and parameter sets the statements are run on. *)
Module examples.

(** Two events half a kilometre and a millisecond apart. *)
Definition fast_events : DataFrame :=
  [ {| label := 0; col_x := 0; col_y := 0; col_z := 0; time_unix := 0 |};
    {| label := 1; col_x := 500; col_y := 0; col_z := 0; time_unix := 1 # 1000 |} ].

(** The defaults, but chains of two points count. *)
Definition two_point_params : Params :=
  {| max_lightning_time_threshold := None;
     max_lightning_duration := None;
     max_lightning_dist := None;
     max_lightning_speed := None;
     min_lightning_speed := None;
     min_lightning_points := Some 2%Z;
     combine_strikes_with_intercepting_times := None;
     intercepting_times_extension_buffer := None;
     intercepting_times_extension_max_distance := None |}.

(** Minimum speed 2 m/s above the maximum speed 1 m/s; single points count. *)
Definition crossed_speed_params : Params :=
  {| max_lightning_time_threshold := None;
     max_lightning_duration := None;
     max_lightning_dist := None;
     max_lightning_speed := Some 1%Q;
     min_lightning_speed := Some 2%Q;
     min_lightning_points := Some 1%Z;
     combine_strikes_with_intercepting_times := None;
     intercepting_times_extension_buffer := None;
     intercepting_times_extension_max_distance := None |}.

(** Two strikes of two events each, the second one starting ten seconds
    after the first. *)
Definition two_strike_events : DataFrame :=
  [ {| label := 0; col_x := 0; col_y := 0; col_z := 0; time_unix := 0 |};
    {| label := 1; col_x := 1; col_y := 0; col_z := 0; time_unix := 4 # 10 |};
    {| label := 2; col_x := 2; col_y := 0; col_z := 0; time_unix := 10 |};
    {| label := 3; col_x := 3; col_y := 0; col_z := 0; time_unix := 104 # 10 |} ].

(** Two events given with the later one first, under the default index
    labels 0 and 1. *)
Definition swapped_events : DataFrame :=
  [ {| label := 0; col_x := 1; col_y := 0; col_z := 0; time_unix := 1 # 2 |};
    {| label := 1; col_x := 0; col_y := 0; col_z := 0; time_unix := 0 |} ].

(** A table sorted by time whose index labels are not the positions, as
    [sort_values] leaves a table that was given in another row order. *)
Definition relabelled_events : DataFrame :=
  [ {| label := 1; col_x := 0; col_y := 0; col_z := 0; time_unix := 0 |};
    {| label := 0; col_x := 1; col_y := 0; col_z := 0; time_unix := 1 # 2 |} ].

End examples.

(** ** Statements about the chunk scheduler *)

Module toolbox_spec.
Import toolbox.

Section chunk_items_spec.
Context {K : Type} `{EqDecision K}.

(** The count the mapping gives to a group (0 for a key it does not hold). *)
Fixpoint count_of (counter : list (K * Z)) (g : K) : Z :=
  match counter with
  | [] => 0%Z
  | (k, n) :: rest => if decide (k = g) then n else count_of rest g
  end.

(** The combined count of the groups of a chunk. *)
Definition chunk_total (counter : list (K * Z)) (chunk : list K) : Z :=
  foldr (λ g acc, (count_of counter g + acc)%Z) 0%Z chunk.

End chunk_items_spec.
End toolbox_spec.

(** ** Statements about the chain validator *)

Module chain_spec.
Import lightning_stitcher.

(** The undirected graph whose edge set is a correlation list. *)
Definition adjacent (correlations : list (nat * nat)) (u v : nat) : Prop :=
  (u, v) ∈ correlations ∨ (v, u) ∈ correlations.

Definition connected (correlations : list (nat * nat)) : relation nat :=
  rtc (adjacent correlations).

(** [C] is the connected component of [v]. *)
Definition is_component (correlations : list (nat * nat)) (v : nat) (C : gset nat) : Prop :=
  ∀ u, u ∈ C ↔ connected correlations v u.

(** [v] belongs to a connected component of at least [min_pts] nodes. *)
Definition in_large_component (correlations : list (nat * nat)) (min_pts : Z)
    (v : nat) : Prop :=
  ∃ C : gset nat, is_component correlations v C ∧ (min_pts ≤ Z.of_nat (size C))%Z.

(** What the adjacency dict holds after the edges [E] have been entered. *)
Definition graph_of (graph : Graph) (E : list (nat * nat)) : Prop :=
  (∀ n, n ∈ keys graph ↔ n ∈ dom (adjacency graph))
  ∧ (∀ u v, v ∈ graph_get (adjacency graph) u ↔ adjacent E u v)
  ∧ (∀ u, u ∈ dom (adjacency graph) ↔ ∃ v, adjacent E u v).

(** One step along the adjacency dict. *)
Definition edge (adj : gmap nat (gset nat)) (u w : nat) : Prop := w ∈ graph_get adj u.

(** The invariant of [for node in graph], on [(visited, valid_nodes)]. *)
Definition loop_inv (E : list (nat * nat)) (min_pts : Z) (processed : list nat)
    (st : gset nat * gset nat) : Prop :=
  (∀ n, n ∈ processed → n ∈ st.1)
  ∧ (∀ u, u ∈ st.1 → u ∈ unique_indices E)
  ∧ (∀ u w, u ∈ st.1 → connected E u w → w ∈ st.1)
  ∧ (∀ u, u ∈ st.2 ↔ u ∈ st.1 ∧ in_large_component E min_pts u).

End chain_spec.

(** ** Statements about the cluster engine *)

Module cluster_spec.
Import lightning_bucketer.

(** The times of the member events of a strike, read from the time column. *)
Definition times_of (all_unix_values : list Q) (strike : list nat) : list Q :=
  (λ i, all_unix_values !!! i) <$> strike.

Definition latest (times : list Q) : Q := foldr Qmax (times !!! 0%nat) times.
Definition earliest (times : list Q) : Q := foldr Qmin (times !!! 0%nat) times.

(** The time between the earliest and the latest member event. *)
Definition duration_of (all_unix_values : list Q) (strike : list nat) : Q :=
  (latest (times_of all_unix_values strike) - earliest (times_of all_unix_values strike))%Q.

(** The invariant of an open subgroup before event [j] of a group is
    handled: its indices are earlier positions in ascending order, its time
    list mirrors them, and every member lies within the duration bound of
    the first one (for a negative [max_lightning_duration] the first member
    is still there, at distance 0). *)
Definition sg_ok (unix_vals : list Q) (max_lightning_duration : Q) (j : nat)
    (sg : SubGroup) : Prop :=
  sg_indices sg ≠ []
  ∧ StronglySorted lt (sg_indices sg)
  ∧ Forall (λ i, i < j)%nat (sg_indices sg)
  ∧ sg_unix sg = (λ i, unix_vals !!! i) <$> sg_indices sg
  ∧ Forall (λ u, first_unix sg <= u
                 ∧ u - first_unix sg <= Qmax 0 max_lightning_duration)%Q
      (sg_unix sg).

(** A strike that was finalized from such a subgroup. *)
Definition strike_ok (group_indices : list nat) (unix_vals : list Q)
    (max_lightning_duration : Q) (strike : list nat) : Prop :=
  ∃ sg j, sg_ok unix_vals max_lightning_duration j sg
          ∧ (j ≤ length unix_vals)%nat
          ∧ strike = strike_of group_indices sg.

(** What holds of a strike in terms of the whole table. *)
Definition strike_bounded (all_unix_values : list Q) (dur : Q) (strike : list nat) : Prop :=
  strike ≠ [] ∧ NoDup strike
  ∧ Forall (λ a, a < length all_unix_values)%nat strike
  ∧ ∃ first, Forall (λ t, first <= t ∧ t - first <= dur)%Q
               (times_of all_unix_values strike).

(** A time group that [_group_process] does not skip: it has an event,
    and at least [min_pts] of them. *)
Definition handled (group_ids : list nat) (min_pts : Z) (group : nat) : Prop :=
  let group_indices := np_where ((λ g, bool_decide (g = group)) <$> group_ids) in
  group_indices ≠ [] ∧ (min_pts ≤ Z.of_nat (length group_indices))%Z.

Global Instance handled_decision group_ids min_pts group :
  Decision (handled group_ids min_pts group).
Proof. unfold handled. apply _. Defined.

End cluster_spec.

(** ** Statements about the chain builder *)

Module chain_builder_spec.
Import lightning_stitcher.

(** Squared Euclidean distance of two events, written as the source
    computes it. *)
Definition dist2 (rp rc : Row) : Q :=
  let dx := (col_x rp - col_x rc)%Q in
  let dy := (col_y rp - col_y rc)%Q in
  let dz := (col_z rp - col_z rc)%Q in
  (dx * dx + dy * dy + dz * dz)%Q.

(** The floored squared time gap between a predecessor and the current
    event. *)
Definition dt2 (rp rc : Row) : Q :=
  let dt := (time_unix rc - time_unix rp)%Q in
  dt2_floor (dt * dt).

(** The mask entry of predecessor [rp] for the current event [rc]. *)
Definition gate (params : Params) (rp rc : Row) : bool :=
  let max_time_threshold := get (max_lightning_time_threshold params) 1%Q in
  let max_dist_between_pts := get (max_lightning_dist params) 50000%Q in
  let max_speed := get (max_lightning_speed params) (299792458 # 1000)%Q in
  let min_speed := get (min_lightning_speed params) 0%Q in
  let speed2 := (dist2 rp rc / dt2 rp rc)%Q in
  bool_decide (dist2 rp rc <= max_dist_between_pts * max_dist_between_pts)%Q
  && bool_decide (speed2 <= max_speed * max_speed)%Q
  && bool_decide (min_speed * min_speed <= speed2)%Q
  && bool_decide (dt2 rp rc <= max_time_threshold * max_time_threshold)%Q.

(** The earlier positions that pass the mask for position [i] of the
    time-sorted strike, ascending. *)
Definition candidates (params : Params) (rows : list Row) (i : nat) : list nat :=
  np_where ((λ rk, gate params rk (rows !!! i)) <$> take i rows).

(** The position picked as parent of position [i], if any. *)
Definition chosen_parent (params : Params) (rows : list Row) (i : nat) : option nat :=
  let valid_indices := candidates params rows i in
  if decide (0 < length valid_indices)%nat then
    Some (valid_indices !!!
            np_argmin ((λ k, dist2 (rows !!! k) (rows !!! i)) <$> valid_indices))
  else None.

(** The correlation emitted for position [i]. *)
Definition edge_at (params : Params) (order : list nat) (rows : list Row) (i : nat)
    : list (nat * nat) :=
  match chosen_parent params rows i with
  | Some k => [(order !!! k, order !!! i)]
  | None => []
  end.

(** The four thresholds of the chain builder can be squared. *)
Definition squarable_thresholds (params : Params) : Prop :=
  squarable (get (max_lightning_dist params) 50000%Q)
  ∧ squarable (get (max_lightning_speed params) (299792458 # 1000)%Q)
  ∧ squarable (get (min_lightning_speed params) 0%Q)
  ∧ squarable (get (max_lightning_time_threshold params) 1%Q).

Global Instance squarable_thresholds_decision params :
  Decision (squarable_thresholds params).
Proof. unfold squarable_thresholds. apply _. Defined.

(** The index labels are the positions (a default RangeIndex in row
    order): then [events.loc[idx]] and [events.iloc[idx]] are the same
    row. *)
Definition positional (events : DataFrame) : Prop :=
  ∀ i r, events !! i = Some r → label r = i.

(** The sort key of an index of the strike: the time of the row that
    carries the index as its label, as [events.loc[idx, "time_unix"]]
    reads it. *)
Definition loc_key (events : DataFrame) (idx : nat) : Q :=
  match loc_time_unix events idx with
  | Ok c => cell_value c
  | Raise _ => 0%Q
  end.

(** The claim on the order: the chain builder handles the events of a
    strike in ascending time order. *)
Definition chronological_claim : Prop :=
  ∀ params strike events order corrs rows,
    stitch_loop params strike events = Ok (order, corrs) →
    iloc events order = Ok rows →
    StronglySorted Qle (time_unix <$> rows).

End chain_builder_spec.

(** ** Statements about the gates on a correlation *)

Module gating_spec.
Import lightning_stitcher chain_builder_spec.

(** Bounds on a distance given by its square, in exact arithmetic:
    [sqrt d2 <= bound] and [bound <= sqrt d2]. *)
Definition distance_le (d2 bound : Q) : Prop :=
  (0 <= bound ∧ d2 <= bound * bound)%Q.

Definition distance_ge (d2 bound : Q) : Prop :=
  (bound <= 0 ∨ bound * bound <= d2)%Q.

(** The gates as the specification words them, on the distance, the time
    difference and the speed distance/dt themselves (the speed is read for
    a positive dt). *)
Definition speed_gated (params : Params) (rp rc : Row) : Prop :=
  let max_time_threshold := get (max_lightning_time_threshold params) 1%Q in
  let max_dist_between_pts := get (max_lightning_dist params) 50000%Q in
  let max_speed := get (max_lightning_speed params) (299792458 # 1000)%Q in
  let min_speed := get (min_lightning_speed params) 0%Q in
  let dt := (time_unix rc - time_unix rp)%Q in
  distance_le (dist2 rp rc) max_dist_between_pts
  ∧ (dt <= max_time_threshold)%Q
  ∧ ((0 < dt)%Q →
     distance_ge (dist2 rp rc) (min_speed * dt) ∧ distance_le (dist2 rp rc) (max_speed * dt)).

(** The claim on every output correlation, for all parameter values and
    input tables. *)
Definition speed_gating_claim : Prop :=
  ∀ params strike events corrs p c rp rc,
    stitch_lightning_strike params strike events = Ok corrs →
    (p, c) ∈ corrs → events !! p = Some rp → events !! c = Some rc →
    speed_gated params rp rc.

(** The gates as the source applies them: on squares, with the squared
    time difference floored at 1e-5. *)
Definition squared_gated (params : Params) (rp rc : Row) : Prop :=
  let max_time_threshold := get (max_lightning_time_threshold params) 1%Q in
  let max_dist_between_pts := get (max_lightning_dist params) 50000%Q in
  let max_speed := get (max_lightning_speed params) (299792458 # 1000)%Q in
  let min_speed := get (min_lightning_speed params) 0%Q in
  let dt := (time_unix rc - time_unix rp)%Q in
  (dist2 rp rc <= max_dist_between_pts * max_dist_between_pts
   ∧ dt2_floor (dt * dt) <= max_time_threshold * max_time_threshold
   ∧ min_speed * min_speed <= dist2 rp rc / dt2_floor (dt * dt)
   ∧ dist2 rp rc / dt2_floor (dt * dt) <= max_speed * max_speed)%Q.

End gating_spec.

(** ** Statements about the parameters *)

Module params_spec.
Import lightning_stitcher lightning_bucketer gating_spec.

(** A parameter set with a value outside its valid domain: the speed
    bounds crossed, or a negative threshold. *)
Definition out_of_domain (params : Params) : Prop :=
  (get (max_lightning_speed params) (299792458 # 1000) < get (min_lightning_speed params) 0
   ∨ get (max_lightning_time_threshold params) 1 < 0
   ∨ get (max_lightning_duration params) 20 < 0
   ∨ get (max_lightning_dist params) 50000 < 0
   ∨ get (min_lightning_speed params) 0 < 0)%Q.

(** The claim on parameter validation: such a parameter set makes the
    entry point fail with ConfigError. *)
Definition validation_claim : Prop :=
  ∀ MAX_CHUNK_SIZE df params,
    out_of_domain params →
    bucket_dataframe_lightnings MAX_CHUNK_SIZE None df params = Raise ConfigError.

(** The computation never ends in a ConfigError. *)
Definition no_config_error {A} (m : result A) : Prop := m ≠ Raise ConfigError.

(** The claim on the default of "max_lightning_duration": without the
    key, both stages that read it behave as with the value 20.0. *)
Definition uniform_default_claim : Prop :=
  ∀ params, max_lightning_duration params = None →
    (∀ MAX_CHUNK_SIZE df,
       raw_groups_of MAX_CHUNK_SIZE df params
       = raw_groups_of MAX_CHUNK_SIZE df (with_duration 20 params))
    ∧ (∀ bucketed_strike_indices events,
         stitch_lightning_strikes params bucketed_strike_indices events
         = stitch_lightning_strikes (with_duration 20 params)
             bucketed_strike_indices events).

End params_spec.

(** ** Statements about the helpers of toolbox.py *)

Module helpers_spec.

(** The order in which [zig_zag_range] visits two indices: the one nearer
    to [start] first; of two at the same distance, the upper one first
    exactly when fewer steps are possible upwards than downwards. *)
Definition zig_zag_before (max_value start a b : Z) : Prop :=
  (Z.abs (a - start) < Z.abs (b - start))%Z
  ∨ (Z.abs (a - start) = Z.abs (b - start)
     ∧ if bool_decide (max_value - start - 1 < start)%Z then (b < a)%Z else (a < b)%Z)%Z.

(** No byte of [s] is 0. *)
Fixpoint NUL_free (s : string) : Prop :=
  match s with
  | EmptyString => True
  | String a rest => a ≠ Ascii.zero ∧ NUL_free rest
  end.

End helpers_spec.

(** ** Statements about the result cache *)

Module cache_spec.
Import lightning_bucketer.

(** A digest for the examples: it keeps the row count only. *)
Definition rows_digest (rows : nat) (lo hi : option Q) (params : Params) : string :=
  String.concat EmptyString (replicate rows "r"%string).

(** Two times that are equal as numbers are the same value, as two equal
    doubles are: every time of the table is a reduced fraction. *)
Definition canonical_times (df : DataFrame) : Prop :=
  Forall (λ r, Qred (time_unix r) = time_unix r) df.

Definition moved_events : DataFrame :=
  [ {| label := 0; col_x := 7; col_y := 7; col_z := 7; time_unix := 0 |};
    {| label := 1; col_x := 9; col_y := 9; col_z := 9; time_unix := 1 # 1000 |} ].

(** A table that is not in time order. *)
Definition unsorted_events : DataFrame :=
  [ {| label := 0; col_x := 0; col_y := 0; col_z := 0; time_unix := 3 |};
    {| label := 1; col_x := 0; col_y := 0; col_z := 0; time_unix := 1 # 2 |};
    {| label := 2; col_x := 0; col_y := 0; col_z := 0; time_unix := 2 |} ].

End cache_spec.

(** ** Statements about the strikes of the cluster engine *)

Module engine_spec.
Import lightning_bucketer.

Section columns.
Variables (xs ys zs times : list Q).

(** The time between two events, their squared distance, and the squared
    speed as the cluster engine computes it (the squared time is floored
    at 1e-5). *)
Definition gap (a c : nat) : Q := Qabs (times !!! c - times !!! a).

Definition distance_sq (a c : nat) : Q :=
  let dx := (xs !!! a - xs !!! c)%Q in
  let dy := (ys !!! a - ys !!! c)%Q in
  let dz := (zs !!! a - zs !!! c)%Q in
  (dx * dx + dy * dy + dz * dz)%Q.

Definition speed_sq (a c : nat) : Q :=
  (distance_sq a c / dt2_floor (gap a c * gap a c))%Q.

(** What lets event [c] join a subgroup with the members [earlier]: a
    member within the time threshold and the distance bound, and a member
    within the time threshold whose speed is in range.  The two members
    need not be the same. *)
Definition attached (thr dist mins maxs : Q) (earlier : list nat) (c : nat) : Prop :=
  (∃ a, a ∈ earlier ∧ (gap a c <= thr)%Q ∧ (distance_sq a c <= dist * dist)%Q)
  ∧ (∃ b, b ∈ earlier ∧ (gap b c <= thr)%Q
          ∧ (mins * mins <= speed_sq b c)%Q ∧ (speed_sq b c <= maxs * maxs)%Q).

(** Every member of [strike] but the first was attached to the members
    before it. *)
Definition chained (thr dist mins maxs : Q) (strike : list nat) : Prop :=
  ∀ k c, strike !! S k = Some c → attached thr dist mins maxs (take (S k) strike) c.

End columns.

(** The invariant of a subgroup of [_group_process] before event [j] of
    its group is handled, over the columns of the group. *)
Definition sg_wf (x_vals y_vals z_vals unix_vals : list Q) (thr dist mins maxs : Q)
    (j : nat) (sg : SubGroup) : Prop :=
  sg_indices sg ≠ []
  ∧ StronglySorted lt (sg_indices sg)
  ∧ Forall (λ i, i < j)%nat (sg_indices sg)
  ∧ sg_x sg = (λ i, x_vals !!! i) <$> sg_indices sg
  ∧ sg_y sg = (λ i, y_vals !!! i) <$> sg_indices sg
  ∧ sg_z sg = (λ i, z_vals !!! i) <$> sg_indices sg
  ∧ sg_unix sg = (λ i, unix_vals !!! i) <$> sg_indices sg
  ∧ chained x_vals y_vals z_vals unix_vals thr dist mins maxs (sg_indices sg).

(** The subgroups a group has produced when its first [j] events are
    handled: the ones whose strikes were emitted, the ones that were closed
    with fewer than [min_pts] members, and the open ones.  Together they
    hold each of the [j] events once. *)
Definition group_inv (x_vals y_vals z_vals unix_vals : list Q) (thr dist mins maxs : Q)
    (min_pts : Z) (group_indices : list nat) (j : nat)
    (st : list (list nat) * list SubGroup) : Prop :=
  ∃ emitted dropped,
    st.1 = strike_of group_indices <$> emitted
    ∧ Forall (sg_wf x_vals y_vals z_vals unix_vals thr dist mins maxs j)
        (emitted ++ dropped ++ st.2)
    ∧ Forall (λ sg, (min_pts ≤ Z.of_nat (length (sg_indices sg)))%Z) emitted
    ∧ Forall (λ sg, ¬ (min_pts ≤ Z.of_nat (length (sg_indices sg)))%Z) dropped
    ∧ concat (sg_indices <$> (emitted ++ dropped ++ st.2)) ≡ₚ seq 0 j.

(** What one group, or a run of groups, hands back, in positions of the
    table: the strikes, and the events [lost] in subgroups that were too
    small.  [members] are the events of the groups. *)
Definition strike_wf (xs ys zs times : list Q) (thr dist mins maxs : Q) (min_pts : Z)
    (group_ids : list nat) (strike : list nat) : Prop :=
  strike ≠ []
  ∧ StronglySorted lt strike
  ∧ (min_pts ≤ Z.of_nat (length strike))%Z
  ∧ (∃ group, Forall (λ a, group_ids !! a = Some group) strike)
  ∧ chained xs ys zs times thr dist mins maxs strike.

Definition groups_result (xs ys zs times : list Q) (thr dist mins maxs : Q) (min_pts : Z)
    (group_ids : list nat) (members : list nat) (strikes : list (list nat)) : Prop :=
  Forall (strike_wf xs ys zs times thr dist mins maxs min_pts group_ids) strikes
  ∧ ∃ lost, concat strikes ++ lost ≡ₚ members ∧ ((min_pts ≤ 1)%Z → lost = []).

(** The positions of the events of a time group. *)
Definition members_of (group_ids : list nat) (group : nat) : list nat :=
  np_where ((λ g, bool_decide (g = group)) <$> group_ids).

(** Three events on a line: the third is near the second in space but
    too fast for it, and slow enough for the first but too far from it. *)
Definition relay_x : list Q := [0; 5; 13]%Q.
Definition relay_y : list Q := [0; 0; 0]%Q.
Definition relay_z : list Q := [0; 0; 0]%Q.
Definition relay_unix : list Q := [0; 1; 1001 # 1000]%Q.

End engine_spec.

(** ** Statements about the stitcher *)

Module stitcher_spec.
Import lightning_stitcher.



(** Both ends of every correlation of [corr] are among [indices]. *)
Definition within (indices : list nat) (corr : list (nat * nat)) : Prop :=
  ∀ p c, (p, c) ∈ corr → p ∈ indices ∧ c ∈ indices.

(** The parameters with the merge pass switched off, or on. *)
Definition with_combine (b : bool) (params : Params) : Params :=
  {| max_lightning_time_threshold := max_lightning_time_threshold params;
     max_lightning_duration := max_lightning_duration params;
     max_lightning_dist := max_lightning_dist params;
     max_lightning_speed := max_lightning_speed params;
     min_lightning_speed := min_lightning_speed params;
     min_lightning_points := min_lightning_points params;
     combine_strikes_with_intercepting_times := Some b;
     intercepting_times_extension_buffer := intercepting_times_extension_buffer params;
     intercepting_times_extension_max_distance :=
       intercepting_times_extension_max_distance params |}.


End stitcher_spec.

(** ** Statements about the table of the cluster engine *)

Module bucket_spec.
Import lightning_bucketer engine_spec.



End bucket_spec.

(** ** Statements about the CSV export *)

Module export_spec.
Import lightning_bucketer.

(** For the examples a start time is named by its numerator, and a time
    in the year 10000 or later is refused with ValueError, as
    [fromtimestamp] refuses it. *)
Definition numerator_name (t : Q) : result string :=
  if decide (253402300800 <= t)%Q then Raise ValueError else Ok (pretty (Qnum t)).

(** The strike can be exported: it is not empty and its indices are
    positions of the table. *)
Definition exportable (events : DataFrame) (indices : list nat) : Prop :=
  indices ≠ [] ∧ Forall (λ i, i < length events)%nat indices.

(** The start time of a strike: the time of the first row of the strike
    sorted by time. *)
Definition start_time (events : DataFrame) (indices : list nat) : option Q :=
  match iloc events indices with
  | Ok rows => time_unix <$> head (sort_values rows)
  | Raise _ => None
  end.

(** The strike can be written: it can be exported and its start time can
    be formatted. *)
Definition writable (safe_start_time : Q → result string) (events : DataFrame)
    (indices : list nat) : Prop :=
  exportable events indices
  ∧ ∃ t stem, start_time events indices = Some t ∧ safe_start_time t = Ok stem.

(** Two events, the second one in the year 10000. *)
Definition late_events : DataFrame :=
  [ {| label := 0; col_x := 0; col_y := 0; col_z := 0; time_unix := 0 |};
    {| label := 1; col_x := 5; col_y := 0; col_z := 0; time_unix := 253402300800 |} ].

End export_spec.

(** * Proofs *)

(** ** Exceptions, indexing, sorting *)

Section primitives.

Lemma bind_Ok {A B} (m : result A) (f : A → result B) b :
  m ≫= f = Ok b ↔ ∃ a, m = Ok a ∧ f a = Ok b.
Proof.
  destruct m as [a|e]; simpl; split.
  - intros Hf. by exists a.
  - by intros (a' & [= <-] & Hf).
  - discriminate.
  - by intros (a' & [=] & _).
Qed.

Lemma float_pow2_Ok v s : float_pow2 v = Ok s ↔ squarable v ∧ s = (v * v)%Q.
Proof.
  unfold float_pow2, squarable. case_decide as Hv; split.
  - discriminate.
  - intros [Hlt _]. by apply Qle_not_lt in Hv.
  - intros [= <-]. split; [by apply Qnot_le_lt|done].
  - by intros [_ ->].
Qed.

Lemma float_pow2_squarable v : squarable v → float_pow2 v = Ok (v * v)%Q.
Proof. intros Hv. by apply float_pow2_Ok. Qed.

Lemma float_pow2_overflow v : ¬ squarable v → float_pow2 v = Raise OverflowError.
Proof.
  unfold float_pow2, squarable. intros Hv. case_decide as Hle; [done|].
  destruct Hv. by apply Qnot_le_lt.
Qed.

Lemma float_pow2_cases v :
  float_pow2 v = Ok (v * v)%Q ∨ float_pow2 v = Raise OverflowError.
Proof. unfold float_pow2. case_decide; [by right|by left]. Qed.

Lemma for_loop_app {S A} (body : S → A → result S) st l1 l2 :
  for_loop body st (l1 ++ l2) = for_loop body st l1 ≫= λ st', for_loop body st' l2.
Proof.
  revert st. induction l1 as [|a l1 IH]; intros st; simpl; [done|].
  destruct (body st a) as [st'|e]; simpl; [apply IH|done].
Qed.

Lemma for_loop_snoc_Ok {S A} (body : S → A → result S) st l a st'' :
  for_loop body st (l ++ [a]) = Ok st''
  ↔ ∃ st', for_loop body st l = Ok st' ∧ body st' a = Ok st''.
Proof.
  rewrite for_loop_app, bind_Ok. simpl.
  split; intros (st' & Hl & Ha); exists st'; (split; [done|]).
  - by destruct (body st' a).
  - by rewrite Ha.
Qed.

(** A loop whose body does not raise is the fold of its body. *)
Lemma for_loop_pure {S A} (body : S → A → result S) (pure : S → A → S) st l :
  (∀ st a, a ∈ l → body st a = Ok (pure st a)) →
  for_loop body st l = Ok (foldl pure st l).
Proof.
  revert st. induction l as [|a l IH]; intros st Hbody; simpl; [done|].
  rewrite Hbody by left. simpl. apply IH. intros st' a' Ha'. apply Hbody. by right.
Qed.

(** A loop with a turn to run whose body always raises [e] raises [e]. *)
Lemma for_loop_raise {S A} (body : S → A → result S) st l e :
  l ≠ [] → (∀ st a, body st a = Raise e) → for_loop body st l = Raise e.
Proof. intros Hl Hbody. destruct l as [|a l]; [done|]. simpl. by rewrite Hbody. Qed.

Lemma mapM_Ok {A B} (f : A → result B) l k :
  mapM f l = Ok k ↔ Forall2 (λ x y, f x = Ok y) l k.
Proof.
  revert k. induction l as [|x l IH]; intros k; simpl.
  - split; [intros [= <-]; constructor|]. by inversion 1.
  - change (f x ≫= (λ y, mapM f l ≫= λ k0, mret (y :: k0)) = Ok k
            ↔ Forall2 (λ x y, f x = Ok y) (x :: l) k).
    rewrite bind_Ok. split.
    + intros (y & Hy & Hrest). apply bind_Ok in Hrest as (k0 & Hk0 & [= <-]).
      constructor; [done|]. by apply IH.
    + intros Hall. inversion Hall as [|? y ? k0 Hy Hrest]; subst.
      exists y. split; [done|]. apply bind_Ok. exists k0. split; [by apply IH|done].
Qed.

Lemma mapM_Ok_inv {A B} (f : A → result B) l :
  Forall (λ x, ∃ y, f x = Ok y) l → ∃ k, mapM f l = Ok k.
Proof.
  induction 1 as [|x l (y & Hy) _ (k & Hk)].
  - by exists [].
  - exists (y :: k). apply mapM_Ok. constructor; [done|]. by apply mapM_Ok.
Qed.

Lemma getitem_Ok {A} (a : list A) i v : getitem a i = Ok v ↔ a !! i = Some v.
Proof. unfold getitem. destruct (a !! i); split; congruence. Qed.

Lemma take_indices_Ok {A} (a : list A) idx vals :
  take_indices a idx = Ok vals ↔ Forall2 (λ i v, a !! i = Some v) idx vals.
Proof.
  unfold take_indices. rewrite mapM_Ok.
  split; intros Hall; (eapply Forall2_impl; [exact Hall|]); intros i v; apply getitem_Ok.
Qed.

Lemma take_indices_lookup `{!Inhabited A} (a : list A) idx vals k i :
  take_indices a idx = Ok vals → idx !! k = Some i →
  vals !! k = Some (a !!! i) ∧ (i < length a)%nat.
Proof.
  intros Hok%take_indices_Ok Hk.
  destruct (Forall2_lookup_l _ _ _ _ _ Hok Hk) as (v & Hv & Hav).
  split; [|by eapply lookup_lt_Some].
  by rewrite Hv, (list_lookup_total_correct _ _ _ Hav).
Qed.

Lemma take_indices_length {A} (a : list A) idx vals :
  take_indices a idx = Ok vals → length vals = length idx.
Proof. intros Hok%take_indices_Ok. symmetry. by eapply Forall2_length. Qed.

Lemma take_indices_total {A} (a : list A) idx :
  Forall (λ i, i < length a)%nat idx → ∃ vals, take_indices a idx = Ok vals.
Proof.
  intros Hall. apply mapM_Ok_inv. eapply Forall_impl; [exact Hall|].
  intros i Hi. simpl in Hi. destruct (lookup_lt_is_Some_2 a i Hi) as [v Hv].
  exists v. by apply getitem_Ok.
Qed.

Lemma elem_of_np_where mask i : i ∈ np_where mask ↔ mask !! i = Some true.
Proof.
  unfold np_where. rewrite list_elem_of_filter, elem_of_seq. split; [tauto|].
  intros Hi. split; [done|]. apply lookup_lt_Some in Hi. lia.
Qed.

Lemma StronglySorted_filter {A} (R : relation A) (P : A → Prop)
    `{∀ x, Decision (P x)} l :
  StronglySorted R l → StronglySorted R (filter P l).
Proof.
  induction 1 as [|x l _ IH Hx]; [constructor|].
  rewrite filter_cons. destruct (decide (P x)); [|done].
  constructor; [done|]. apply Forall_forall. intros y Hy.
  apply list_elem_of_filter in Hy as [_ Hy]. by eapply Forall_forall in Hx.
Qed.

Lemma StronglySorted_seq n m : StronglySorted lt (seq n m).
Proof.
  revert n. induction m as [|m IH]; intros n; simpl; constructor; [apply IH|].
  apply Forall_forall. intros k Hk%elem_of_seq. lia.
Qed.

Lemma np_where_sorted mask : StronglySorted lt (np_where mask).
Proof. apply StronglySorted_filter, StronglySorted_seq. Qed.

Lemma StronglySorted_lt_NoDup (l : list nat) : StronglySorted lt l → NoDup l.
Proof.
  induction 1 as [|x l _ IH Hx]; constructor; [|done].
  intros Hin. eapply Forall_forall in Hx; [|exact Hin]. lia.
Qed.

Lemma StronglySorted_lookup {A} (R : relation A) l i j a b :
  StronglySorted R l → (i < j)%nat → l !! i = Some a → l !! j = Some b → R a b.
Proof.
  intros Hs. revert i j. induction Hs as [|x l _ IH Hx]; intros i j Hij Hi Hj.
  - inversion Hi.
  - destruct j as [|j]; [lia|]. destruct i as [|i]; simpl in *.
    + injection Hi as <-. eapply Forall_forall in Hx; [exact Hx|].
      by eapply list_elem_of_lookup_2.
    + apply (IH i j); [lia|done..].
Qed.

(** The insertion sort returns a permutation in ascending key order. *)
Lemma insert_by_key_perm {A} (x : A * Q) l : insert_by_key x l ≡ₚ x :: l.
Proof.
  induction l as [|h l IH]; simpl; [done|].
  destruct (decide (x.2 <= h.2)%Q); [done|].
  rewrite IH. apply Permutation_swap.
Qed.

Lemma sort_by_key_perm {A} (l : list (A * Q)) : sort_by_key l ≡ₚ l.
Proof.
  induction l as [|x l IH]; simpl; [done|].
  unfold sort_by_key in *. simpl. by rewrite insert_by_key_perm, IH.
Qed.

Lemma insert_by_key_sorted {A} (x : A * Q) l :
  StronglySorted key_le l → StronglySorted key_le (insert_by_key x l).
Proof.
  induction 1 as [|h l Hl IH Hh]; simpl.
  - repeat constructor.
  - destruct (decide (x.2 <= h.2)%Q) as [Hle|Hgt].
    + constructor; [by constructor|]. constructor; [done|].
      eapply Forall_impl; [exact Hh|]. intros y Hy. unfold key_le in *. lra.
    + constructor; [done|].
      rewrite insert_by_key_perm. constructor; [|done].
      unfold key_le. apply Qnot_le_lt in Hgt. lra.
Qed.

Lemma sort_by_key_sorted {A} (l : list (A * Q)) : StronglySorted key_le (sort_by_key l).
Proof.
  induction l as [|x l IH]; simpl; [constructor|].
  by apply insert_by_key_sorted.
Qed.

Lemma sort_by_key_fmap_sorted {A} (f : A → Q) (l : list (A * Q)) :
  Forall (λ p, p.2 = f p.1) l → StronglySorted Qle (f <$> (sort_by_key l).*1).
Proof.
  intros Hkeys. rewrite <- (sort_by_key_perm l) in Hkeys.
  pose proof (sort_by_key_sorted l) as Hsorted.
  induction Hsorted as [|p ps _ IH Hp]; [constructor|].
  apply Forall_cons in Hkeys as [Hk Hkeys]. simpl. constructor; [by apply IH|].
  rewrite !Forall_fmap. apply Forall_forall. intros q Hq. simpl.
  eapply Forall_forall in Hp; [|exact Hq]. eapply Forall_forall in Hkeys; [|exact Hq].
  unfold key_le in Hp. by rewrite <- Hk, <- Hkeys.
Qed.

Lemma sort_by_key_length {A} (l : list (A * Q)) : length (sort_by_key l) = length l.
Proof. apply Permutation_length, sort_by_key_perm. Qed.

Lemma dt2_floor_pos d : (0 < dt2_floor d)%Q.
Proof.
  unfold dt2_floor. destruct (decide (d < 1 # 100000)%Q) as [|Hge]; [reflexivity|].
  apply Qnot_lt_le in Hge. eapply Qlt_le_trans; [|exact Hge]. reflexivity.
Qed.

Lemma dt2_floor_ge d : (d <= dt2_floor d)%Q ∧ (1 # 100000 <= dt2_floor d)%Q.
Proof.
  unfold dt2_floor. destruct (decide (d < 1 # 100000)%Q) as [Hlt|Hge].
  - split; [by apply Qlt_le_weak|apply Qle_refl].
  - split; [apply Qle_refl|by apply Qnot_lt_le].
Qed.

End primitives.

(** ** The chunk scheduler *)

Section chunk_items_proofs.
Import toolbox toolbox_spec.
Context {K : Type} `{EqDecision K}.
Implicit Types (items counter : list (K * Z)) (bin : list K).

Lemma count_of_lookup counter g n :
  NoDup counter.*1 → (g, n) ∈ counter → count_of counter g = n.
Proof.
  induction counter as [|[g' n'] counter IH]; intros Hnd Hin.
  - inversion Hin.
  - apply NoDup_cons in Hnd as [Hnotin Hnd]. simpl.
    apply elem_of_cons in Hin as [Heq|Hin].
    + injection Heq as <- <-. by rewrite decide_True.
    + rewrite decide_False; [by apply IH|].
      intros ->. apply Hnotin. apply list_elem_of_fmap. by exists (g, n).
Qed.

Lemma chunk_total_app counter bin g :
  chunk_total counter (bin ++ [g]) = (chunk_total counter bin + count_of counter g)%Z.
Proof. unfold chunk_total. induction bin as [|h bin IH]; simpl; lia. Qed.

Lemma chunk_loop_concat max items bin size :
  concat (chunk_loop max items bin size) = bin ++ items.*1.
Proof.
  revert bin size. induction items as [|[g n] items IH]; intros bin size; simpl.
  - destruct bin; simpl; by rewrite ?app_nil_r.
  - case_bool_decide; simpl; rewrite IH; [done|]. by rewrite <- app_assoc.
Qed.

Lemma chunk_loop_nonempty max items bin size :
  Forall (λ chunk, chunk ≠ []) (chunk_loop max items bin size).
Proof.
  revert bin size. induction items as [|[g n] items IH]; intros bin size; simpl.
  - destruct bin; constructor; [done|constructor].
  - case_bool_decide as Hc; [|apply IH]. constructor; [tauto|apply IH].
Qed.

(** With something in the bin, the next chunk yielded starts with the bin. *)
Lemma chunk_loop_head max items bin size :
  bin ≠ [] → ∃ tl chunks, chunk_loop max items bin size = (bin ++ tl) :: chunks.
Proof.
  revert bin size. induction items as [|[g n] items IH]; intros bin size Hne; simpl.
  - destruct bin; [done|]. exists [], []. by rewrite app_nil_r.
  - case_bool_decide as Hc.
    + exists [], (chunk_loop max items [g] n). by rewrite app_nil_r.
    + destruct (IH (bin ++ [g]) (size + n)%Z) as (tl & chunks & ->).
      { by destruct bin. }
      exists (g :: tl), chunks. by rewrite <- app_assoc.
Qed.

Lemma chunk_loop_closed counter max items bin size :
  (∀ g n, (g, n) ∈ items → count_of counter g = n) →
  size = chunk_total counter bin →
  ∀ pre c1 c2 post, chunk_loop max items bin size = pre ++ c1 :: c2 :: post →
    ∃ g rest, c2 = g :: rest ∧ (max < chunk_total counter c1 + count_of counter g)%Z.
Proof.
  revert bin size. induction items as [|[g n] items IH]; intros bin size Hcount Hsize;
    simpl; intros pre c1 c2 post Heq.
  - destruct bin; [by destruct pre|].
    destruct pre as [|? [|? ?]]; discriminate.
  - assert (count_of counter g = n) as Hg by (apply Hcount; left).
    assert (∀ g' n', (g', n') ∈ items → count_of counter g' = n') as Hcount'
      by (intros; apply Hcount; by right).
    case_bool_decide as Hc.
    + destruct pre as [|c0 pre]; simpl in Heq.
      * injection Heq as <- Heq.
        destruct (chunk_loop_head max items [g] n) as (tl & chunks & Hhd); [done|].
        rewrite Hhd in Heq. injection Heq as <- _.
        exists g, tl. split; [done|]. rewrite <- Hsize, Hg. tauto.
      * injection Heq as _ Heq.
        eapply (IH [g] n); [done| |done].
        unfold chunk_total. simpl. lia.
    + eapply (IH (bin ++ [g]) (size + n)%Z); [done| |done].
      rewrite chunk_total_app. lia.
Qed.

(** A bin that is already over the limit is yielded as it is. *)
Lemma chunk_loop_full max items bin size :
  bin ≠ [] → (max < size)%Z → Forall (λ p, 0 < p.2)%Z items →
  bin ∈ chunk_loop max items bin size.
Proof.
  intros Hne Hfull Hpos. destruct items as [|[g n] items]; simpl.
  - destruct bin; [done|]. left.
  - apply Forall_cons in Hpos as [Hn _]. simpl in Hn.
    rewrite bool_decide_true by (split; [done|lia]). left.
Qed.

Lemma chunk_loop_big max items bin size g n :
  (0 ≤ size)%Z → Forall (λ p, 0 < p.2)%Z items →
  (g, n) ∈ items → (max < n)%Z →
  [g] ∈ chunk_loop max items bin size.
Proof.
  revert bin size. induction items as [|[g' n'] items IH]; intros bin size Hsize Hpos Hin Hbig.
  - inversion Hin.
  - apply Forall_cons in Hpos as [Hn' Hpos]. simpl in Hn'. simpl.
    apply elem_of_cons in Hin as [Heq|Hin].
    + injection Heq as <- <-.
      case_bool_decide as Hc.
      * right. apply chunk_loop_full; done.
      * destruct bin as [|h bin]; [|exfalso; apply Hc; split; [done|lia]].
        simpl. apply chunk_loop_full; [done|lia|done].
    + case_bool_decide as Hc.
      * right. apply IH; [lia|done..].
      * apply IH; [lia|done..].
Qed.

Lemma filter_none {A} (P : A → Prop) `{∀ x, Decision (P x)} (l : list A) :
  (∀ x, x ∈ l → ¬ P x) → filter P l = [].
Proof.
  induction l as [|a l IH]; intros Hno; [done|].
  rewrite filter_cons_False by (apply Hno; left).
  apply IH. intros x Hx. apply Hno. by right.
Qed.

Lemma elem_of_concat {A} (ls : list (list A)) (a : A) :
  a ∈ concat ls ↔ ∃ l, a ∈ l ∧ l ∈ ls.
Proof.
  induction ls as [|l0 ls IH]; simpl.
  - split; [inversion 1|]. intros (l & _ & Hl). inversion Hl.
  - rewrite elem_of_app, IH. split.
    + intros [Ha|(l & Ha & Hl)]; [exists l0|exists l]; split; try done; [left|by right].
    + intros (l & Ha & Hl). apply elem_of_cons in Hl as [->|Hl]; [by left|].
      right. by exists l.
Qed.

Lemma concat_NoDup_one_chunk (chunks : list (list K)) g :
  NoDup (concat chunks) → g ∈ concat chunks →
  length (filter (λ chunk, g ∈ chunk) chunks) = 1%nat.
Proof.
  induction chunks as [|c chunks IH]; simpl; intros Hnd Hin.
  - inversion Hin.
  - apply NoDup_app in Hnd as (Hc & Hdisj & Hrest).
    destruct (decide (g ∈ c)) as [Hgc|Hgc].
    + rewrite filter_cons_True by done. simpl. f_equal.
      rewrite filter_none; [done|].
      intros c' Hc' Hgc'. apply (Hdisj g Hgc).
      apply elem_of_concat. by exists c'.
    + rewrite filter_cons_False by done. apply IH; [done|].
      apply elem_of_app in Hin as [?|?]; done.
Qed.

(** C5.  Chunk Scheduler partition.  For a mapping with distinct keys and
    positive counts, and any [max_chunk_size]: the chunks concatenate to
    the keys in iteration order; every group id lies in exactly one chunk;
    no chunk is empty; a chunk that is followed by another one was closed
    because adding the next group would have pushed its running total above
    [max_chunk_size]; and a group whose count alone exceeds
    [max_chunk_size] is a chunk of its own. *)
Theorem chunk_items_partition counter (max_chunk_size : Z) :
  NoDup counter.*1 → Forall (λ p, 0 < p.2)%Z counter →
  let chunks := chunk_items counter max_chunk_size in
  concat chunks = counter.*1
  ∧ (∀ g, g ∈ counter.*1 → length (filter (λ chunk, g ∈ chunk) chunks) = 1%nat)
  ∧ Forall (λ chunk, chunk ≠ []) chunks
  ∧ (∀ pre c1 c2 post, chunks = pre ++ c1 :: c2 :: post →
       ∃ g rest, c2 = g :: rest
         ∧ (max_chunk_size < chunk_total counter c1 + count_of counter g)%Z)
  ∧ (∀ g n, (g, n) ∈ counter → (max_chunk_size < n)%Z → [g] ∈ chunks).
Proof.
  intros Hnd Hpos chunks.
  assert (concat chunks = counter.*1) as Hcat by apply chunk_loop_concat.
  split; [done|]. split.
  { intros g Hg. apply concat_NoDup_one_chunk; by rewrite Hcat. }
  split; [apply chunk_loop_nonempty|]. split.
  - apply (chunk_loop_closed counter); [|done].
    intros g n Hin. by apply count_of_lookup.
  - intros g n Hin Hbig. by apply (chunk_loop_big _ _ _ _ g n).
Qed.
End chunk_items_proofs.

Lemma chunk_items_partition_witness :
  let counter := [(0%nat, 3%Z); (1%nat, 2%Z); (2%nat, 7%Z); (3%nat, 1%Z)] in
  toolbox.chunk_items counter 5 = [[0%nat; 1%nat]; [2%nat]; [3%nat]]
  ∧ concat (toolbox.chunk_items counter 5) = counter.*1
  ∧ [2%nat] ∈ toolbox.chunk_items counter 5.
Proof.
  intros counter.
  assert (NoDup counter.*1) as Hnd by (vm_compute; repeat constructor; set_solver).
  assert (Forall (λ p, 0 < p.2)%Z counter) as Hpos by (repeat constructor).
  pose proof (chunk_items_partition counter 5 Hnd Hpos) as (Hcat & _ & _ & _ & Hbig).
  split; [reflexivity|]. split; [exact Hcat|].
  apply (Hbig 2%nat 7%Z); [|reflexivity].
  do 2 right. left.
Defined.

(** ** The chain validator *)

Section chain_validator.
Import lightning_stitcher chain_spec.
Implicit Types (adj : gmap nat (gset nat)) (E : list (nat * nat)).

Lemma adjacent_sym E u v : adjacent E u v → adjacent E v u.
Proof. unfold adjacent. tauto. Qed.

Lemma connected_sym E u v : connected E u v → connected E v u.
Proof.
  intros H. induction H as [|x y z Hxy _ IH]; [apply rtc_refl|].
  eapply rtc_trans; [exact IH|]. apply rtc_once. by apply adjacent_sym.
Qed.

Lemma connected_trans E u v w : connected E u v → connected E v w → connected E u w.
Proof. apply rtc_trans. Qed.

(** *** The adjacency dict *)

Lemma graph_get_setdefault_add k v graph k' :
  graph_get (adjacency (setdefault_add k v graph)) k'
  = if decide (k' = k) then {[v]} ∪ graph_get (adjacency graph) k
    else graph_get (adjacency graph) k'.
Proof.
  unfold setdefault_add, graph_get.
  destruct (adjacency graph !! k) as [s|] eqn:Hk; simpl;
    destruct (decide (k' = k)) as [->|Hne];
    rewrite ?lookup_insert_eq, ?lookup_insert_ne by done; simpl; try done.
  by rewrite union_empty_r_L.
Qed.

Lemma dom_setdefault_add k v graph :
  dom (adjacency (setdefault_add k v graph)) = {[k]} ∪ dom (adjacency graph).
Proof.
  unfold setdefault_add.
  destruct (adjacency graph !! k) as [s|] eqn:Hk; simpl; by rewrite dom_insert_L.
Qed.

Lemma keys_setdefault_add k v graph :
  (∀ n, n ∈ keys graph ↔ n ∈ dom (adjacency graph)) →
  ∀ n, n ∈ keys (setdefault_add k v graph) ↔ n ∈ dom (adjacency (setdefault_add k v graph)).
Proof.
  intros Hkeys n. rewrite dom_setdefault_add, elem_of_union, elem_of_singleton.
  unfold setdefault_add.
  destruct (adjacency graph !! k) as [s|] eqn:Hk; simpl.
  - rewrite Hkeys. split; [tauto|]. intros [->|?]; [|done].
    apply elem_of_dom. by eexists.
  - rewrite elem_of_app, list_elem_of_singleton, Hkeys. tauto.
Qed.

Lemma graph_of_empty : graph_of empty_graph [].
Proof.
  split; [|split].
  - intros n. simpl. rewrite dom_empty_L. split; [inversion 1|set_solver].
  - intros u v. unfold graph_get, adjacent. simpl. rewrite lookup_empty. simpl.
    split; [set_solver|]. intros [H|H]; inversion H.
  - intros u. simpl. rewrite dom_empty_L. split; [set_solver|].
    intros (v & [H|H]); inversion H.
Qed.

Lemma adjacent_snoc E p c u v :
  adjacent (E ++ [(p, c)]) u v ↔ adjacent E u v ∨ (u = p ∧ v = c) ∨ (u = c ∧ v = p).
Proof.
  unfold adjacent. rewrite !elem_of_app, !list_elem_of_singleton.
  split.
  - intros [[?|Heq]|[?|Heq]]; try tauto; injection Heq as -> ->; tauto.
  - intros [[?|?]|[[-> ->]|[-> ->]]]; tauto.
Qed.

Lemma graph_of_step graph E p c :
  graph_of graph E →
  graph_of (setdefault_add c p (setdefault_add p c graph)) (E ++ [(p, c)]).
Proof.
  intros (Hkeys & Hget & Hdom). split; [|split].
  - by do 2 apply keys_setdefault_add.
  - intros u v. rewrite adjacent_snoc, !graph_get_setdefault_add.
    rewrite <- Hget.
    repeat case_decide; subst;
      rewrite ?elem_of_union, ?elem_of_singleton; naive_solver.
  - intros u. rewrite !dom_setdefault_add, !elem_of_union, !elem_of_singleton, Hdom.
    split.
    + intros [->|[->|(v & Hv)]].
      * exists p. apply adjacent_snoc. tauto.
      * exists c. apply adjacent_snoc. tauto.
      * exists v. apply adjacent_snoc. tauto.
    + intros (v & Hv). apply adjacent_snoc in Hv as [Hv|[[-> ->]|[-> ->]]]; eauto.
Qed.

Lemma build_graph_spec E : graph_of (build_graph E) E.
Proof.
  unfold build_graph.
  enough (∀ E' graph E0, graph_of graph E0 →
    graph_of (foldl (λ graph pc, setdefault_add pc.2 pc.1 (setdefault_add pc.1 pc.2 graph))
                graph E') (E0 ++ E')) as Hgen.
  { apply (Hgen E empty_graph []), graph_of_empty. }
  induction E' as [|[p c] E' IH]; intros graph E0 Hg; simpl.
  - by rewrite app_nil_r.
  - rewrite (assoc_L _ E0 [(p, c)] E' : E0 ++ (p, c) :: E' = (E0 ++ [(p, c)]) ++ E').
    apply IH. by apply graph_of_step.
Qed.

(** *** The traversal *)

Lemma dfs_spec adj stack comp :
  (∀ u, u ∈ comp ∨ u ∈ stack → u ∈ dfs adj stack comp)
  ∧ (∀ u, u ∈ dfs adj stack comp → u ∈ comp ∨ ∃ s, s ∈ stack ∧ rtc (edge adj) s u)
  ∧ ((∀ u w, u ∈ comp → edge adj u w → w ∈ comp ∨ w ∈ stack) →
     ∀ u w, u ∈ dfs adj stack comp → edge adj u w → w ∈ dfs adj stack comp).
Proof.
  funelim (dfs adj stack comp).
  - split; [|split].
    + intros u [?|Hu]; [done|inversion Hu].
    + by left.
    + intros Hcl u w Hu Huw. destruct (Hcl u w Hu Huw) as [?|Hw]; [done|inversion Hw].
  - destruct H as (Hin & Hreach & Hclosed). split; [|split].
    + intros u [Hu|Hu]; [by apply Hin; left|].
      apply elem_of_cons in Hu as [->|Hu]; apply Hin; [by left|by right].
    + intros u Hu. destruct (Hreach u Hu) as [?|(s & Hs & Hsu)]; [by left|].
      right. exists s. split; [by right|done].
    + intros Hcl. apply Hclosed. intros u w Hu Huw.
      destruct (Hcl u w Hu Huw) as [?|Hw]; [by left|].
      apply elem_of_cons in Hw as [->|Hw]; [by left|by right].
  - destruct H as (Hin & Hreach & Hclosed). split; [|split].
    + intros u [Hu|Hu].
      * apply Hin. left. apply elem_of_union. by right.
      * apply elem_of_cons in Hu as [->|Hu]; apply Hin.
        -- left. apply elem_of_union. left. by apply elem_of_singleton.
        -- right. apply elem_of_app. by right.
    + intros u Hu. destruct (Hreach u Hu) as [Hu'|(s & Hs & Hsu)].
      * apply elem_of_union in Hu' as [Hu'|Hu']; [|by left].
        apply elem_of_singleton in Hu' as ->.
        right. exists current. split; [left|apply rtc_refl].
      * right. apply elem_of_app in Hs as [Hs|Hs].
        -- exists current. split; [left|].
           apply rtc_l with s; [|done].
           unfold edge. by apply elem_of_elements, elem_of_reverse.
        -- exists s. split; [by right|done].
    + intros Hcl. apply Hclosed. intros u w Hu Huw.
      apply elem_of_union in Hu as [Hu|Hu].
      * apply elem_of_singleton in Hu as ->. right.
        apply elem_of_app. left. by apply elem_of_reverse, elem_of_elements.
      * destruct (Hcl u w Hu Huw) as [?|Hw].
        -- left. apply elem_of_union. by right.
        -- apply elem_of_cons in Hw as [->|Hw].
           ++ left. apply elem_of_union. left. by apply elem_of_singleton.
           ++ right. apply elem_of_app. by right.
Qed.

(** The traversal from one node collects exactly what the node reaches. *)
Lemma dfs_reachable adj node u :
  u ∈ dfs adj [node] ∅ ↔ rtc (edge adj) node u.
Proof.
  destruct (dfs_spec adj [node] ∅) as (Hin & Hreach & Hclosed). split.
  - intros Hu. destruct (Hreach u Hu) as [Hu'|(s & Hs & Hsu)].
    + by apply not_elem_of_empty in Hu'.
    + by apply list_elem_of_singleton in Hs as ->.
  - revert u. apply rtc_ind_r.
    + apply Hin. right. left.
    + intros y z _ Hyz IH. apply Hclosed with y; [|done..].
      intros u w Hu. by apply not_elem_of_empty in Hu.
Qed.

Lemma rtc_iff {A} (R S : relation A) x y :
  (∀ a b, R a b ↔ S a b) → rtc R x y ↔ rtc S x y.
Proof.
  intros HRS. split; intros H; induction H as [|a b c Hab _ IH];
    try apply rtc_refl; (apply rtc_l with b; [by apply HRS|done]).
Qed.

(** On the adjacency dict of [E] the traversal yields the connected
    component of its start node. *)
Lemma dfs_component E node :
  is_component E node (dfs (adjacency (build_graph E)) [node] ∅).
Proof.
  intros u. rewrite dfs_reachable. apply rtc_iff. intros a b.
  destruct (build_graph_spec E) as (_ & Hget & _). apply Hget.
Qed.

Lemma is_component_unique E u v (C C' : gset nat) :
  connected E u v → is_component E u C → is_component E v C' → C = C'.
Proof.
  intros Huv HC HC'. apply set_eq. intros w. rewrite (HC w), (HC' w). split.
  - intros Huw. apply connected_trans with u; [by apply connected_sym|done].
  - intros Hvw. by apply connected_trans with v.
Qed.

Lemma elem_of_unique_indices E u :
  u ∈ unique_indices E ↔ ∃ v, adjacent E u v.
Proof.
  unfold unique_indices, adjacent. rewrite elem_of_list_to_set.
  rewrite list_elem_of_In, in_flat_map. split.
  - intros ([p c] & Hin & Hu). apply list_elem_of_In in Hin. simpl in Hu.
    destruct Hu as [<-|[<-|[]]]; [exists c|exists p]; tauto.
  - intros (v & [Hin|Hin]); apply list_elem_of_In in Hin.
    + exists (u, v). split; [done|]. by left.
    + exists (v, u). split; [done|]. right. by left.
Qed.

Lemma connected_node E u w :
  u ∈ unique_indices E → connected E u w → w ∈ unique_indices E.
Proof.
  intros Hu. revert w. apply rtc_ind_r; [done|].
  intros y z _ Hyz _. apply elem_of_unique_indices. exists y. by apply adjacent_sym.
Qed.

(** *** The loop over the nodes *)

Lemma component_step_inv E min_pts processed st node :
  node ∈ unique_indices E →
  loop_inv E min_pts processed st →
  loop_inv E min_pts (processed ++ [node])
    (component_step (build_graph E) min_pts st node).
Proof.
  intros Hnode (Hproc & Hnodes & Hclosed & Hvalid).
  destruct st as [visited valid_nodes]. simpl in *. unfold component_step.
  destruct (decide (node ∈ visited)) as [Hvis|Hvis]; simpl.
  { split; [|done].
    intros n Hn. apply elem_of_app in Hn as [Hn|Hn]; [by apply Hproc|].
    by apply list_elem_of_singleton in Hn as ->. }
  pose proof (dfs_component E node) as Hcomp.
  set (component := dfs (adjacency (build_graph E)) [node] ∅) in *.
  assert (∀ u, u ∈ component →
            (in_large_component E min_pts u ↔ (min_pts ≤ Z.of_nat (size component))%Z))
    as Hlarge.
  { intros u Hu. apply Hcomp in Hu. split.
    - intros (C & HC & Hsize).
      by rewrite (is_component_unique E node u component C Hu Hcomp HC).
    - intros Hsize. exists component. split; [|done].
      intros w. rewrite (Hcomp w). split.
      + intros Hw. apply connected_trans with node; [by apply connected_sym|done].
      + intros Hw. by apply connected_trans with u. }
  split; [|split; [|split]]; simpl.
  - intros n Hn. apply elem_of_union. apply elem_of_app in Hn as [Hn|Hn].
    + left. by apply Hproc.
    + apply list_elem_of_singleton in Hn as ->. right. apply Hcomp, rtc_refl.
  - intros u Hu. apply elem_of_union in Hu as [Hu|Hu]; [by apply Hnodes|].
    apply Hcomp in Hu. by apply connected_node with node.
  - intros u w Hu Huw. apply elem_of_union. apply elem_of_union in Hu as [Hu|Hu].
    + left. by apply Hclosed with u.
    + right. apply Hcomp. apply connected_trans with u; [by apply Hcomp|done].
  - intros u. destruct (decide (min_pts ≤ Z.of_nat (size component))%Z) as [Hsz|Hsz].
    + rewrite !elem_of_union, Hvalid. split.
      * intros [[? ?]|Hu]; [tauto|]. split; [by right|]. by apply (Hlarge u).
      * intros [[Hu|Hu] Hl]; [left; tauto|by right].
    + rewrite elem_of_union, Hvalid. split; [tauto|].
      intros [[Hu|Hu] Hl]; [tauto|]. exfalso. apply Hsz. by apply (Hlarge u).
Qed.

Lemma component_loop_inv E min_pts todo processed st :
  (∀ n, n ∈ todo → n ∈ unique_indices E) →
  loop_inv E min_pts processed st →
  loop_inv E min_pts (processed ++ todo)
    (foldl (component_step (build_graph E) min_pts) st todo).
Proof.
  revert processed st. induction todo as [|node todo IH]; intros processed st Htodo Hinv; simpl.
  - by rewrite app_nil_r.
  - rewrite (assoc_L _ processed [node] todo
               : processed ++ node :: todo = (processed ++ [node]) ++ todo).
    apply IH; [intros n Hn; apply Htodo; by right|].
    apply component_step_inv; [apply Htodo; left|done].
Qed.

Lemma valid_nodes_of_spec E min_pts v :
  v ∈ valid_nodes_of E min_pts
  ↔ v ∈ unique_indices E ∧ in_large_component E min_pts v.
Proof.
  unfold valid_nodes_of.
  destruct (build_graph_spec E) as (Hkeys & _ & Hdom).
  assert (∀ n, n ∈ keys (build_graph E) ↔ n ∈ unique_indices E) as Hk.
  { intros n. by rewrite Hkeys, Hdom, elem_of_unique_indices. }
  destruct (component_loop_inv E min_pts (keys (build_graph E)) [] (∅, ∅))
    as (Hproc & Hnodes & _ & Hvalid).
  { intros n. apply Hk. }
  { repeat split; simpl; try (intros ? H; by inversion H); set_solver. }
  simpl in *. rewrite Hvalid. split; intros [Hv Hl]; (split; [|done]).
  - by apply Hnodes.
  - apply Hproc, Hk, Hv.
Qed.

(** C4.  Chain Validator correctness.  The result is the input list
    filtered, in input order, by the test that both endpoints lie in
    [valid_nodes], and [valid_nodes] holds exactly the nodes of the
    undirected correlation graph whose connected component has at least
    [min_pts] nodes; so a correlation is returned if and only if it is an
    input correlation whose two endpoints lie in such a component. *)
Theorem filter_correlations_by_chain_size_spec (correlations : list (nat * nat))
    (min_pts : Z) :
  ∃ valid_nodes : gset nat,
    (∀ v, v ∈ valid_nodes
          ↔ v ∈ unique_indices correlations
            ∧ in_large_component correlations min_pts v)
    ∧ filter_correlations_by_chain_size correlations min_pts
      = filter (λ pc, pc.1 ∈ valid_nodes ∧ pc.2 ∈ valid_nodes) correlations
    ∧ ∀ p c, (p, c) ∈ filter_correlations_by_chain_size correlations min_pts
             ↔ (p, c) ∈ correlations
               ∧ in_large_component correlations min_pts p
               ∧ in_large_component correlations min_pts c.
Proof.
  exists (valid_nodes_of correlations min_pts).
  split; [apply valid_nodes_of_spec|]. split; [done|].
  intros p c. unfold filter_correlations_by_chain_size.
  rewrite list_elem_of_filter, !valid_nodes_of_spec. simpl. split; [tauto|].
  intros (Hin & Hp & Hc). split; [|done].
  split; (split; [|done]); apply elem_of_unique_indices;
    [exists c; by left|exists p; by right].
Qed.
End chain_validator.

(** ** The chunked run of the cluster engine *)

Section chunked_run.
Import lightning_bucketer.
Variables (all_x_values all_y_values all_z_values all_unix_values : list Q).
Variable min_pts : Z.
Variable group_ids : list nat.
Variables (max_lightning_duration max_dist_between_pts max_time_threshold : Q).
Variables (min_speed max_speed : Q).

Local Abbreviation process := (process_group all_x_values all_y_values all_z_values
  all_unix_values min_pts group_ids max_lightning_duration max_dist_between_pts
  max_time_threshold min_speed max_speed).
Local Abbreviation groups := (group_loop all_x_values all_y_values all_z_values
  all_unix_values min_pts group_ids max_lightning_duration max_dist_between_pts
  max_time_threshold min_speed max_speed).
Local Abbreviation run := (_group_process all_x_values all_y_values all_z_values
  all_unix_values min_pts group_ids max_lightning_duration max_dist_between_pts
  max_time_threshold min_speed max_speed).

Lemma group_loop_acc unique_groups acc :
  groups unique_groups acc = (acc ++.) <$> groups unique_groups [].
Proof.
  revert acc. induction unique_groups as [|g gs IH]; intros acc; simpl.
  - by rewrite app_nil_r.
  - destruct (process g) as [added|e]; simpl; [|done].
    rewrite (IH (acc ++ added)), (IH added).
    destruct (groups gs []) as [r|e]; simpl; [|done]. by rewrite app_assoc.
Qed.

Lemma group_loop_app gs1 gs2 acc :
  groups (gs1 ++ gs2) acc = groups gs1 acc ≫= groups gs2.
Proof.
  revert acc. induction gs1 as [|g gs1 IH]; intros acc; simpl; [done|].
  destruct (process g) as [added|e]; simpl; [apply IH|done].
Qed.

(** Running chunk after chunk is running all the groups in a row. *)
Lemma chunk_loop_flat chunks acc :
  chunk_loop run chunks acc = groups (concat chunks) acc.
Proof.
  revert acc. induction chunks as [|chunk chunks IH]; intros acc; simpl; [done|].
  rewrite group_loop_app, (group_loop_acc chunk acc).
  change (run chunk) with (groups chunk []).
  destruct (groups chunk []) as [added|e]; simpl; [apply IH|done].
Qed.

End chunked_run.

Lemma counter_nodup_aux k c : NoDup c.*1 → NoDup (counter_add k c).*1
  ∧ ∀ x, x ∈ (counter_add k c).*1 ↔ x = k ∨ x ∈ c.*1.
Proof.
  induction c as [|[k' n] c IH]; simpl; intros Hnd.
  - split; [repeat constructor; set_solver|]. intros x. set_solver.
  - apply NoDup_cons in Hnd as [Hk' Hnd]. destruct (IH Hnd) as [IH1 IH2].
    destruct (decide (k = k')) as [->|Hne]; simpl.
    + split; [by constructor|]. intros x. set_solver.
    + split.
      * constructor; [|done]. rewrite IH2. intros [?|?]; [congruence|done].
      * intros x. rewrite !elem_of_cons, IH2. tauto.
Qed.

Lemma Counter_NoDup l : NoDup (Counter l).*1.
Proof.
  unfold Counter.
  enough (∀ c, NoDup c.*1 → NoDup (foldl (λ c k, counter_add k c) c l).*1) as Hgen
    by (apply Hgen; constructor).
  induction l as [|k l IH]; intros c Hc; simpl; [done|].
  apply IH. by apply counter_nodup_aux.
Qed.

Section chunk_invariance.
Import lightning_bucketer.

(** What [_bucket_dataframe_lightnings] returns, with no chunks in sight. *)
Lemma bucket_unchunked MAX_CHUNK_SIZE df thr dur dist maxs mins min_pts :
  _bucket_dataframe_lightnings MAX_CHUNK_SIZE df thr dur dist maxs mins min_pts
  = let df' := sort_values df in
    let group_ids := time_groups_of (values time_unix df') thr in
    lightning_strikes ←
      _group_process (values col_x df') (values col_y df') (values col_z df')
        (values time_unix df') min_pts group_ids dur dist thr mins maxs
        (Counter group_ids).*1;
    Ok (df', lightning_strikes).
Proof.
  unfold _bucket_dataframe_lightnings. simpl.
  rewrite chunk_loop_flat. unfold toolbox.chunk_items.
  by rewrite chunk_loop_concat.
Qed.

(** C6.  Chunk-invariance.  For every table and all parameter values,
    any two values of [MAX_CHUNK_SIZE] give the same strikes (and the same
    exception, if one is raised) from [_bucket_dataframe_lightnings], the
    same outcome of [bucket_dataframe_lightnings], and the same chains when
    the strikes are handed to [stitch_lightning_strikes]. *)
Theorem chunk_invariance (m1 m2 : Z) (df : DataFrame) :
  (∀ thr dur dist maxs mins min_pts,
     _bucket_dataframe_lightnings m1 df thr dur dist maxs mins min_pts
     = _bucket_dataframe_lightnings m2 df thr dur dist maxs mins min_pts)
  ∧ (∀ cached params,
       bucket_dataframe_lightnings m1 cached df params
       = bucket_dataframe_lightnings m2 cached df params)
  ∧ (∀ params,
       raw_groups_of m1 df params
         ≫= (λ r, lightning_stitcher.stitch_lightning_strikes params r.2 r.1)
       = raw_groups_of m2 df params
           ≫= (λ r, lightning_stitcher.stitch_lightning_strikes params r.2 r.1)).
Proof.
  split; [|split].
  - intros. by rewrite !bucket_unchunked.
  - intros cached params. unfold bucket_dataframe_lightnings, raw_groups_of.
    destruct cached; [done|]. by rewrite !bucket_unchunked.
  - intros params. unfold raw_groups_of. by rewrite !bucket_unchunked.
Qed.

End chunk_invariance.

(** ** The duration bound of the cluster engine *)

Section duration_bound.
Import lightning_bucketer cluster_spec.

Lemma latest_le (times : list Q) hi :
  times ≠ [] → Forall (λ u, u <= hi)%Q times → (latest times <= hi)%Q.
Proof.
  intros Hne Hall. unfold latest.
  assert (times !!! 0%nat <= hi)%Q as H0.
  { destruct times as [|t times]; [done|]. by apply Forall_cons in Hall as [? _]. }
  generalize dependent (times !!! 0%nat). intros q0 Hq0. clear Hne.
  induction Hall as [|t times Ht _ IH]; simpl; [done|].
  by apply Q.max_lub.
Qed.

Lemma earliest_ge (times : list Q) lo :
  times ≠ [] → Forall (λ u, lo <= u)%Q times → (lo <= earliest times)%Q.
Proof.
  intros Hne Hall. unfold earliest.
  assert (lo <= times !!! 0%nat)%Q as H0.
  { destruct times as [|t times]; [done|]. by apply Forall_cons in Hall as [? _]. }
  generalize dependent (times !!! 0%nat). intros q0 Hq0. clear Hne.
  induction Hall as [|t times Ht _ IH]; simpl; [done|].
  by apply Q.min_glb.
Qed.

(** The last test of [accepts] is the duration test. *)
Lemma accepts_bound dist_sq thr min_sq max_sq dur ex ey ez eu sg :
  accepts dur dist_sq thr min_sq max_sq ex ey ez eu sg = true →
  (eu - first_unix sg <= dur)%Q.
Proof.
  unfold accepts. repeat case_match; try discriminate.
  intros Hb. by apply bool_decide_eq_true in Hb.
Qed.

Section one_group.
Variables (group_indices : list nat) (x_vals y_vals z_vals unix_vals : list Q).
Variables (min_pts : Z) (dur dist thr mins maxs : Q).
Hypothesis unix_sorted : StronglySorted Qle unix_vals.

Local Abbreviation ok := (sg_ok unix_vals dur).

Lemma sg_ok_mono j j' sg : ok j sg → (j ≤ j')%nat → ok j' sg.
Proof.
  intros (Hne & Hsorted & Hlt & Hunix & Hbound) Hj. repeat split; try done.
  eapply Forall_impl; [exact Hlt|]. intros i Hi. simpl in Hi. lia.
Qed.

Lemma first_unix_append j ex ey ez eu sg :
  sg_unix sg ≠ [] → first_unix (append_event j ex ey ez eu sg) = first_unix sg.
Proof.
  intros Hne. unfold first_unix, append_event. simpl.
  destruct (sg_unix sg); [done|reflexivity].
Qed.

Lemma sg_ok_first j sg :
  ok j sg → ∃ i, (i < j)%nat ∧ first_unix sg = unix_vals !!! i.
Proof.
  intros (Hne & _ & Hlt & Hunix & _). unfold first_unix. rewrite Hunix.
  destruct (sg_indices sg) as [|i rest]; [done|].
  apply Forall_cons in Hlt as [Hi _]. by exists i.
Qed.

Lemma unix_vals_le i j :
  (i < j)%nat → (j < length unix_vals)%nat → (unix_vals !!! i <= unix_vals !!! j)%Q.
Proof.
  intros Hij Hj.
  eapply (StronglySorted_lookup Qle unix_vals i j); try done;
    apply list_lookup_lookup_total_lt; lia.
Qed.

Lemma append_event_ok j ex ey ez sg :
  (j < length unix_vals)%nat → ok j sg →
  (unix_vals !!! j - first_unix sg <= dur)%Q →
  ok (S j) (append_event j ex ey ez (unix_vals !!! j) sg).
Proof.
  intros Hj Hok Hacc. destruct (sg_ok_first j sg Hok) as (i0 & Hi0 & Hfirst).
  destruct Hok as (Hne & Hsorted & Hlt & Hunix & Hbound).
  assert (sg_unix sg ≠ []) as Hune by (rewrite Hunix; by destruct (sg_indices sg)).
  split; [|split; [|split; [|split]]]; simpl.
  - by destruct (sg_indices sg).
  - apply StronglySorted_app_2; [|done|repeat constructor].
    intros a b Ha Hb. apply list_elem_of_singleton in Hb as ->.
    by eapply Forall_forall in Hlt.
  - apply Forall_app. split; [|by repeat constructor].
    eapply Forall_impl; [exact Hlt|]. intros i Hi. simpl in Hi. lia.
  - by rewrite fmap_app, Hunix.
  - rewrite first_unix_append by done. apply Forall_app. split; [done|].
    constructor; [|constructor]. split.
    + rewrite Hfirst. by apply unix_vals_le.
    + pose proof (Q.le_max_r 0 dur). lra.
Qed.

Lemma try_attach_ok dist_sq min_sq max_sq j ex ey ez sub_groups sub_groups' :
  (j < length unix_vals)%nat → Forall (ok j) sub_groups →
  try_attach dur dist_sq thr min_sq max_sq j ex ey ez (unix_vals !!! j) sub_groups
    = Some sub_groups' →
  Forall (ok (S j)) sub_groups'.
Proof.
  intros Hj. revert sub_groups'.
  induction sub_groups as [|sg rest IH]; intros sub_groups' Hall; simpl; [done|].
  apply Forall_cons in Hall as [Hsg Hrest].
  destruct (accepts _ _ _ _ _ _ _ _ _ sg) eqn:Hacc.
  - intros [= <-]. constructor.
    + apply append_event_ok; [done..|]. by eapply accepts_bound.
    + eapply Forall_impl; [exact Hrest|]. intros sg' Hsg'.
      apply sg_ok_mono with j; [done|lia].
  - destruct (try_attach _ _ _ _ _ _ _ _ _ _ rest) as [rest'|] eqn:Hrec; [|done].
    intros [= <-]. constructor; [|by apply IH].
    apply sg_ok_mono with j; [done|lia].
Qed.

Lemma singleton_ok j ex ey ez :
  ok (S j) {| sg_indices := [j]; sg_x := [ex]; sg_y := [ey]; sg_z := [ez];
              sg_unix := [unix_vals !!! j] |}.
Proof.
  split; [done|]. split; [repeat constructor|]. split; [repeat constructor|].
  split; [done|]. simpl. pose proof (Q.le_max_l 0 dur).
  repeat constructor; unfold first_unix; simpl; lra.
Qed.

Local Abbreviation emitted := (strike_ok group_indices unix_vals dur).
Local Abbreviation step := (event_step min_pts dur dist thr mins maxs group_indices
  x_vals y_vals z_vals unix_vals).

Lemma event_step_inv j st st' :
  (j < length unix_vals)%nat →
  Forall emitted st.1 → Forall (ok j) st.2 →
  step st j = Ok st' →
  Forall emitted st'.1 ∧ Forall (ok (S j)) st'.2.
Proof.
  intros Hj Hem Hopen. destruct st as [lightning_strikes sub_groups].
  simpl in Hem, Hopen. unfold event_step.
  set (kept := filter _ sub_groups).
  assert (Forall (ok j) kept) as Hkept.
  { apply Forall_forall. intros sg Hsg.
    apply list_elem_of_filter in Hsg as [_ Hsg]. by eapply Forall_forall in Hopen. }
  assert (Forall emitted
            (lightning_strikes ++
             (strike_of group_indices <$>
                filter (λ sg, (dur < unix_vals !!! j - first_unix sg)%Q
                              ∧ (min_pts ≤ Z.of_nat (length (sg_indices sg)))%Z)
                  sub_groups))) as Hem'.
  { apply Forall_app. split; [done|]. apply Forall_fmap, Forall_forall.
    intros sg Hsg. apply list_elem_of_filter in Hsg as [_ Hsg].
    exists sg, j. split; [by eapply Forall_forall in Hopen|]. split; [lia|done]. }
  intros Hstep.
  apply bind_Ok in Hstep as (dist_sq & _ & Hstep).
  apply bind_Ok in Hstep as (min_sq & _ & Hstep).
  apply bind_Ok in Hstep as (max_sq & _ & Hstep).
  destruct (try_attach _ _ _ _ _ _ _ _ _ _ kept) as [attached|] eqn:Hatt;
    simpl in Hstep; injection Hstep as <-; simpl.
  - split; [done|]. by eapply try_attach_ok.
  - split; [done|]. apply Forall_app. split.
    + eapply Forall_impl; [exact Hkept|]. intros sg Hsg.
      apply sg_ok_mono with j; [done|lia].
    + constructor; [apply singleton_ok|constructor].
Qed.

Lemma event_loop_inv len s st st' :
  (s + len ≤ length unix_vals)%nat →
  Forall emitted st.1 → Forall (ok s) st.2 →
  for_loop step st (seq s len) = Ok st' →
  Forall emitted st'.1 ∧ Forall (ok (s + len)) st'.2.
Proof.
  revert s st. induction len as [|len IH]; intros s st Hlen Hem Hopen; simpl.
  - intros [= <-]. by rewrite Nat.add_0_r.
  - intros Hloop. apply bind_Ok in Hloop as (st1 & Hstep & Hloop).
    assert (s < length unix_vals)%nat as Hs by lia.
    destruct (event_step_inv s st st1 Hs Hem Hopen Hstep) as [Hem' Hopen'].
    rewrite <- Nat.add_succ_comm. by apply (IH (S s) st1); [lia|..].
Qed.

End one_group.

Lemma StronglySorted_of_lookup {A} (R : relation A) (l : list A) :
  (∀ i j a b, (i < j)%nat → l !! i = Some a → l !! j = Some b → R a b) →
  StronglySorted R l.
Proof.
  induction l as [|x l IH]; intros Hl; constructor.
  - apply IH. intros i j a b Hij Hi Hj. by apply (Hl (S i) (S j) a b); [lia|..].
  - apply Forall_forall. intros y Hy. apply list_elem_of_lookup in Hy as [k Hk].
    by apply (Hl 0%nat (S k) x y); [lia|..].
Qed.

Lemma take_indices_sorted (a : list Q) idx vals :
  take_indices a idx = Ok vals → StronglySorted lt idx → StronglySorted Qle a →
  StronglySorted Qle vals.
Proof.
  intros Hok Hidx Ha. apply StronglySorted_of_lookup. intros i j u v Hij Hi Hj.
  pose proof (take_indices_length _ _ _ Hok) as Hlen.
  destruct (lookup_lt_is_Some_2 idx i) as [p Hp];
    [rewrite <- Hlen; by eapply lookup_lt_Some|].
  destruct (lookup_lt_is_Some_2 idx j) as [q Hq];
    [rewrite <- Hlen; by eapply lookup_lt_Some|].
  destruct (take_indices_lookup a idx vals i p Hok Hp) as [Hu Hpa].
  destruct (take_indices_lookup a idx vals j q Hok Hq) as [Hv Hqa].
  assert (u = a !!! p) as -> by congruence.
  assert (v = a !!! q) as -> by congruence.
  apply (StronglySorted_lookup Qle a p q); [done| | |].
  - by apply (StronglySorted_lookup lt idx i j).
  - by apply list_lookup_lookup_total_lt.
  - by apply list_lookup_lookup_total_lt.
Qed.

Lemma strike_ok_bounded all_unix_values group_indices unix_vals dur strike :
  take_indices all_unix_values group_indices = Ok unix_vals →
  StronglySorted lt group_indices →
  strike_ok group_indices unix_vals dur strike →
  strike_bounded all_unix_values (Qmax 0 dur) strike.
Proof.
  intros Htake Hgi (sg & j & (Hne & Hsorted & Hlt & Hunix & Hbound) & Hj & ->).
  pose proof (take_indices_length _ _ _ Htake) as Hlen.
  assert (∀ idx, idx ∈ sg_indices sg →
            ∃ a, group_indices !! idx = Some a ∧ group_indices !!! idx = a
                 ∧ (a < length all_unix_values)%nat
                 ∧ unix_vals !!! idx = all_unix_values !!! a) as Hidx.
  { intros idx Hin. eapply Forall_forall in Hlt; [|exact Hin]. simpl in Hlt.
    destruct (lookup_lt_is_Some_2 group_indices idx) as [a Ha]; [lia|].
    destruct (take_indices_lookup _ _ _ _ _ Htake Ha) as [Hv Hlt'].
    exists a. split; [done|]. split; [by apply list_lookup_total_correct|].
    split; [done|]. by apply list_lookup_total_correct. }
  unfold strike_of. split; [|split; [|split]].
  - by destruct (sg_indices sg).
  - apply NoDup_fmap_2_strong; [|by apply StronglySorted_lt_NoDup].
    intros i1 i2 Hi1 Hi2 Heq.
    destruct (Hidx i1 Hi1) as (a1 & Ha1 & Ht1 & _).
    destruct (Hidx i2 Hi2) as (a2 & Ha2 & Ht2 & _).
    assert (a1 = a2) as <- by congruence.
    apply (NoDup_lookup group_indices i1 i2 a1); [|done..].
    by apply StronglySorted_lt_NoDup.
  - apply Forall_fmap, Forall_forall. intros idx Hin.
    destruct (Hidx idx Hin) as (a & _ & Heq & Ha & _). simpl. by rewrite Heq.
  - exists (first_unix sg).
    assert (times_of all_unix_values ((λ idx, group_indices !!! idx) <$> sg_indices sg)
            = sg_unix sg) as ->; [|done].
    rewrite Hunix. unfold times_of. rewrite <- list_fmap_compose.
    apply Forall_fmap_ext_1, Forall_forall. intros idx Hin.
    destruct (Hidx idx Hin) as (a & _ & Heq & _ & Hval). simpl. by rewrite Heq, Hval.
Qed.

Lemma strike_bounded_duration all_unix_values dur strike :
  strike_bounded all_unix_values dur strike →
  (duration_of all_unix_values strike <= dur)%Q
  ∧ ∀ a b, a ∈ strike → b ∈ strike →
      (all_unix_values !!! a - all_unix_values !!! b <= dur)%Q.
Proof.
  intros (Hne & _ & _ & first & Hall). split.
  - unfold duration_of.
    assert (times_of all_unix_values strike ≠ []) as Htne by (by destruct strike).
    assert (latest (times_of all_unix_values strike) <= first + dur)%Q as Hhi.
    { apply latest_le; [done|]. eapply Forall_impl; [exact Hall|].
      intros t Ht. simpl in Ht. lra. }
    assert (first <= earliest (times_of all_unix_values strike))%Q as Hlo.
    { apply earliest_ge; [done|]. eapply Forall_impl; [exact Hall|].
      intros t Ht. simpl in Ht. lra. }
    lra.
  - intros a b Ha Hb. unfold times_of in Hall.
    rewrite Forall_fmap, Forall_forall in Hall.
    pose proof (Hall a Ha) as Hta. pose proof (Hall b Hb) as Htb. simpl in *. lra.
Qed.

Section groups.
Variables (all_x_values all_y_values all_z_values all_unix_values : list Q).
Variable min_pts : Z.
Variable group_ids : list nat.
Variables (dur dist thr mins maxs : Q).
Hypothesis all_unix_sorted : StronglySorted Qle all_unix_values.

Lemma process_group_bounded group strikes :
  process_group all_x_values all_y_values all_z_values all_unix_values min_pts
    group_ids dur dist thr mins maxs group = Ok strikes →
  Forall (strike_bounded all_unix_values (Qmax 0 dur)) strikes.
Proof.
  unfold process_group. set (group_indices := np_where _).
  case_decide; [intros [= <-]; constructor|].
  intros Hok.
  apply bind_Ok in Hok as (x_vals & Hx & Hok).
  apply bind_Ok in Hok as (y_vals & Hy & Hok).
  apply bind_Ok in Hok as (z_vals & Hz & Hok).
  apply bind_Ok in Hok as (unix_vals & Hu & Hok).
  assert (StronglySorted lt group_indices) as Hgi by apply np_where_sorted.
  assert (StronglySorted Qle unix_vals) as Hsorted
    by (by eapply take_indices_sorted).
  assert (length x_vals = length unix_vals) as Hlen.
  { by rewrite (take_indices_length _ _ _ Hx), (take_indices_length _ _ _ Hu). }
  apply bind_Ok in Hok as ([lightning_strikes sub_groups] & Hloop & Hok).
  destruct (event_loop_inv group_indices x_vals y_vals z_vals unix_vals min_pts
              dur dist thr mins maxs Hsorted (length x_vals) 0%nat ([], [])
              (lightning_strikes, sub_groups))
    as [Hem Hopen]; [simpl; lia|constructor..|exact Hloop|].
  simpl in *.
  injection Hok as <-. apply Forall_app. split.
  - eapply Forall_impl; [exact Hem|]. intros strike Hs.
    by eapply strike_ok_bounded.
  - apply Forall_fmap, Forall_forall. intros sg Hsg.
    apply list_elem_of_filter in Hsg as [_ Hsg]. simpl.
    eapply strike_ok_bounded; [done..|].
    exists sg, (length x_vals). split; [by eapply Forall_forall in Hopen|].
    split; [lia|done].
Qed.

Lemma group_loop_bounded unique_groups acc strikes :
  Forall (strike_bounded all_unix_values (Qmax 0 dur)) acc →
  group_loop all_x_values all_y_values all_z_values all_unix_values min_pts
    group_ids dur dist thr mins maxs unique_groups acc = Ok strikes →
  Forall (strike_bounded all_unix_values (Qmax 0 dur)) strikes.
Proof.
  revert acc. induction unique_groups as [|g gs IH]; intros acc Hacc; simpl.
  - by intros [= <-].
  - intros Hok. apply bind_Ok in Hok as (added & Hadd & Hok).
    apply (IH (acc ++ added)); [|done]. apply Forall_app. split; [done|].
    by eapply process_group_bounded.
Qed.

End groups.

Lemma sort_values_sorted df : StronglySorted Qle (values time_unix (sort_values df)).
Proof.
  unfold values, sort_values. apply sort_by_key_fmap_sorted.
  by apply Forall_fmap, Forall_true.
Qed.

Lemma try_attach_spec dur dist_sq thr min_sq max_sq j ex ey ez eu sub_groups
    sub_groups' :
  try_attach dur dist_sq thr min_sq max_sq j ex ey ez eu sub_groups = Some sub_groups' →
  ∃ pre sg post,
    sub_groups = pre ++ sg :: post
    ∧ sub_groups' = pre ++ append_event j ex ey ez eu sg :: post
    ∧ (eu - first_unix sg <= dur)%Q.
Proof.
  revert sub_groups'. induction sub_groups as [|sg rest IH]; intros sub_groups'; simpl;
    [done|].
  destruct (accepts _ _ _ _ _ _ _ _ _ sg) eqn:Hacc.
  - intros [= <-]. exists [], sg, rest. repeat split. by eapply accepts_bound.
  - destruct (try_attach _ _ _ _ _ _ _ _ _ _ rest) as [rest'|]; [|done].
    intros [= <-]. destruct (IH rest' eq_refl) as (pre & sg' & post & -> & -> & Hb).
    by exists (sg :: pre), sg', post.
Qed.

(** The strikes of [_bucket_dataframe_lightnings], for any parameter
    values: positions of the sorted table, without repetition, within
    [max(0, max_lightning_duration)] of their first event. *)
Lemma bucket_strikes_bounded MAX_CHUNK_SIZE df thr dur dist maxs mins min_pts
    df' strikes :
  _bucket_dataframe_lightnings MAX_CHUNK_SIZE df thr dur dist maxs mins min_pts
    = Ok (df', strikes) →
  df' = sort_values df
  ∧ Forall (strike_bounded (values time_unix (sort_values df)) (Qmax 0 dur)) strikes.
Proof.
  intros Hok. rewrite bucket_unchunked in Hok. simpl in Hok.
  apply bind_Ok in Hok as (strikes' & Hrun & [= <- <-]). split; [done|].
  eapply group_loop_bounded; [apply sort_values_sorted|constructor|exact Hrun].
Qed.

Lemma bucket_strikes_distinct MAX_CHUNK_SIZE df thr dur dist maxs mins min_pts
    df' strikes :
  _bucket_dataframe_lightnings MAX_CHUNK_SIZE df thr dur dist maxs mins min_pts
    = Ok (df', strikes) →
  Forall (λ strike, NoDup strike ∧ Forall (λ i, i < length df')%nat strike) strikes.
Proof.
  intros Hok. destruct (bucket_strikes_bounded _ _ _ _ _ _ _ _ _ _ Hok) as [-> Hall].
  eapply Forall_impl; [exact Hall|]. intros strike (_ & Hnd & Hlt & _).
  split; [done|]. unfold values in Hlt. by rewrite length_fmap in Hlt.
Qed.

(** C1.  Duration bound on clusters.  For a non-negative
    [max_lightning_duration]: every strike [_group_process] emits from
    time-sorted columns spans at most [max_lightning_duration] between its
    earliest and its latest member event; so does every strike of
    [_bucket_dataframe_lightnings], which sorts the table itself (the
    members are positions of the sorted table); and an event is appended to
    a subgroup only if it lies within [max_lightning_duration] of the
    subgroup's first event, whatever the squared thresholds are. *)
Theorem cluster_duration_bound (dur : Q) :
  (0 <= dur)%Q →
  (∀ all_x all_y all_z all_unix min_pts group_ids dist thr mins maxs
     unique_groups strikes,
     StronglySorted Qle all_unix →
     _group_process all_x all_y all_z all_unix min_pts group_ids dur dist thr
       mins maxs unique_groups = Ok strikes →
     ∀ strike, strike ∈ strikes →
       Forall (λ i, i < length all_unix)%nat strike
       ∧ (duration_of all_unix strike <= dur)%Q)
  ∧ (∀ MAX_CHUNK_SIZE df thr dist maxs mins min_pts df' strikes,
       _bucket_dataframe_lightnings MAX_CHUNK_SIZE df thr dur dist maxs mins min_pts
         = Ok (df', strikes) →
       ∀ strike, strike ∈ strikes →
         Forall (λ i, i < length df')%nat strike
         ∧ (duration_of (values time_unix df') strike <= dur)%Q
         ∧ ∀ a b, a ∈ strike → b ∈ strike →
             (values time_unix df' !!! a - values time_unix df' !!! b <= dur)%Q)
  ∧ (∀ thr dist_sq min_sq max_sq j ex ey ez eu sub_groups sub_groups',
       try_attach dur dist_sq thr min_sq max_sq j ex ey ez eu sub_groups
         = Some sub_groups' →
       ∃ pre sg post,
         sub_groups = pre ++ sg :: post
         ∧ sub_groups' = pre ++ append_event j ex ey ez eu sg :: post
         ∧ (eu - first_unix sg <= dur)%Q).
Proof.
  intros Hdur.
  assert (∀ all_unix strike,
            strike_bounded all_unix (Qmax 0 dur) strike →
            (duration_of all_unix strike <= dur)%Q
            ∧ ∀ a b, a ∈ strike → b ∈ strike →
                (all_unix !!! a - all_unix !!! b <= dur)%Q) as Hbound.
  { intros all_unix strike Hb.
    destruct (strike_bounded_duration _ _ _ Hb) as [Hspan Hpair].
    pose proof (Q.max_r 0 dur Hdur) as Hmax. split.
    - by rewrite <- Hmax.
    - intros a b Ha Hb'. rewrite <- Hmax. by apply Hpair. }
  split; [|split].
  - intros all_x all_y all_z all_unix min_pts group_ids dist thr mins maxs
      unique_groups strikes Hsorted Hok strike Hin.
    assert (strike_bounded all_unix (Qmax 0 dur) strike) as Hb.
    { eapply Forall_forall; [|exact Hin].
      eapply group_loop_bounded; [exact Hsorted|constructor|exact Hok]. }
    split; [by destruct Hb as (_ & _ & Hlt & _)|by apply Hbound].
  - intros MAX_CHUNK_SIZE df thr dist maxs mins min_pts df' strikes Hok strike Hin.
    destruct (bucket_strikes_bounded _ _ _ _ _ _ _ _ _ _ Hok) as [-> Hall].
    assert (strike_bounded (values time_unix (sort_values df)) (Qmax 0 dur) strike)
      as Hb by (by eapply Forall_forall in Hall).
    split; [|by apply Hbound].
    destruct Hb as (_ & _ & Hlt & _). unfold values in Hlt.
    by rewrite length_fmap in Hlt.
  - intros. by eapply try_attach_spec.
Qed.

Lemma cluster_duration_bound_witness :
  (0 <= 20)%Q
  ∧ StronglySorted Qle [0; 4 # 10; 10; 104 # 10]%Q
  ∧ _group_process [0; 1; 2; 3]%Q [0; 0; 0; 0]%Q [0; 0; 0; 0]%Q
      [0; 4 # 10; 10; 104 # 10]%Q 2 [0; 0; 1; 1]%nat 20 50000 1 0 (299792458 # 1000)
      [0; 1]%nat
    = Ok [[0; 1]; [2; 3]]%nat
  ∧ (duration_of [0; 4 # 10; 10; 104 # 10]%Q [0; 1]%nat <= 20)%Q
  ∧ _bucket_dataframe_lightnings 50000 examples.two_strike_events 1 20 50000
      (299792458 # 1000) 0 2
    = Ok (examples.two_strike_events, [[0; 1]; [2; 3]]%nat)
  ∧ (duration_of (values time_unix examples.two_strike_events) [2; 3]%nat <= 20)%Q.
Proof.
  assert (0 <= 20)%Q as Hdur by (vm_compute; discriminate).
  assert (StronglySorted Qle [0; 4 # 10; 10; 104 # 10]%Q) as Hsorted
    by (apply (bool_decide_unpack _); vm_compute; exact I).
  assert (_group_process [0; 1; 2; 3]%Q [0; 0; 0; 0]%Q [0; 0; 0; 0]%Q
            [0; 4 # 10; 10; 104 # 10]%Q 2 [0; 0; 1; 1]%nat 20 50000 1 0
            (299792458 # 1000) [0; 1]%nat
          = Ok [[0; 1]; [2; 3]]%nat) as Hgroups by (vm_compute; reflexivity).
  assert (_bucket_dataframe_lightnings 50000 examples.two_strike_events 1 20 50000
            (299792458 # 1000) 0 2
          = Ok (examples.two_strike_events, [[0; 1]; [2; 3]]%nat)) as Hrun
    by (vm_compute; reflexivity).
  destruct (cluster_duration_bound 20 Hdur) as (Hgroup & Hbucket & _).
  split; [exact Hdur|]. split; [exact Hsorted|]. split; [exact Hgroups|].
  split; [|split; [exact Hrun|]].
  - apply (λ H, proj2 (Hgroup _ _ _ _ _ _ _ _ _ _ _ _ Hsorted Hgroups [0; 1]%nat H)). left.
  - destruct (Hbucket _ _ _ _ _ _ _ _ _ Hrun [2; 3]%nat) as (_ & Hspan & _).
    + right. left.
    + exact Hspan.
Defined.

End duration_bound.

(** ** Empty and non-empty tables *)

Section degenerate_inputs.
Import lightning_bucketer cluster_spec.

Lemma np_diff_length a : length (np_diff a) = (length a - 1)%nat.
Proof.
  induction a as [|u [|v rest] IH]; simpl in *; [done..|]. rewrite IH. lia.
Qed.

Lemma cumsum_from_length acc a : length (cumsum_from acc a) = length a.
Proof. revert acc. induction a as [|v a IH]; intros acc; simpl; [done|]. by rewrite IH. Qed.

(** One group id per event, as soon as there is an event. *)
Lemma time_groups_length times thr :
  times ≠ [] → length (time_groups_of times thr) = length times.
Proof.
  intros Hne. unfold time_groups_of, np_cumsum. simpl.
  rewrite cumsum_from_length, length_fmap, np_diff_length.
  destruct times; [done|simpl; lia].
Qed.

(** One group id for no event at all. *)
Lemma time_groups_empty thr : time_groups_of [] thr = [0%nat].
Proof. reflexivity. Qed.

(** *** When the cluster engine returns

    The only statement of the event loop that can raise is the squaring of
    the three thresholds, in every turn. *)

Section event_loop_outcome.
Variables (group_indices : list nat) (x_vals y_vals z_vals unix_vals : list Q).
Variables (min_pts : Z) (dur dist thr mins maxs : Q).

Local Abbreviation step := (event_step min_pts dur dist thr mins maxs group_indices
  x_vals y_vals z_vals unix_vals).

Lemma event_step_total st j :
  squarable dist → squarable mins → squarable maxs → ∃ st', step st j = Ok st'.
Proof.
  intros Hd Hmin Hmax. destruct st as [lightning_strikes sub_groups].
  unfold event_step. rewrite !float_pow2_squarable by done. simpl.
  destruct (try_attach _ _ _ _ _ _ _ _ _ _ _); by eexists.
Qed.

Lemma event_step_overflow st j :
  ¬ (squarable dist ∧ squarable mins ∧ squarable maxs) →
  step st j = Raise OverflowError.
Proof.
  intros Hno. destruct st as [lightning_strikes sub_groups]. unfold event_step.
  destruct (decide (squarable dist)) as [Hd|Hd];
    [rewrite (float_pow2_squarable dist Hd)|by rewrite (float_pow2_overflow dist Hd)].
  destruct (decide (squarable mins)) as [Hmin|Hmin];
    [rewrite (float_pow2_squarable mins Hmin)|by rewrite (float_pow2_overflow mins Hmin)].
  destruct (decide (squarable maxs)) as [Hmax|Hmax];
    [tauto|by rewrite (float_pow2_overflow maxs Hmax)].
Qed.

Lemma event_loop_total st l :
  squarable dist → squarable mins → squarable maxs →
  ∃ st', for_loop step st l = Ok st'.
Proof.
  intros Hd Hmin Hmax. revert st. induction l as [|j l IH]; intros st; simpl.
  - by eexists.
  - destruct (event_step_total st j Hd Hmin Hmax) as [st' ->]. simpl. apply IH.
Qed.

Lemma event_loop_overflow st l :
  l ≠ [] → ¬ (squarable dist ∧ squarable mins ∧ squarable maxs) →
  for_loop step st l = Raise OverflowError.
Proof.
  intros Hl Hno. apply for_loop_raise; [done|]. intros st' j.
  by apply event_step_overflow.
Qed.

End event_loop_outcome.

(** A group of a table whose columns have one entry per group id: it is
    skipped, or its events are handled one by one, which ends in
    OverflowError at the first event when a threshold cannot be squared. *)
Lemma process_group_outcome all_x all_y all_z all_unix min_pts group_ids
    dur dist thr mins maxs group :
  length all_x = length group_ids → length all_y = length group_ids →
  length all_z = length group_ids → length all_unix = length group_ids →
  let overflow :=
    handled group_ids min_pts group
    ∧ ¬ (squarable dist ∧ squarable mins ∧ squarable maxs) in
  (overflow →
   process_group all_x all_y all_z all_unix min_pts group_ids
     dur dist thr mins maxs group = Raise OverflowError)
  ∧ (¬ overflow →
     ∃ strikes, process_group all_x all_y all_z all_unix min_pts group_ids
                  dur dist thr mins maxs group = Ok strikes).
Proof.
  intros Hx Hy Hz Hu. unfold handled, process_group. simpl.
  set (group_indices := np_where _).
  assert (Forall (λ i, i < length group_ids)%nat group_indices) as Hin.
  { apply Forall_forall. intros i Hi. apply elem_of_np_where in Hi.
    apply lookup_lt_Some in Hi. by rewrite length_fmap in Hi. }
  destruct (take_indices_total all_x group_indices) as [x_vals Hxv]; [by rewrite Hx|].
  destruct (take_indices_total all_y group_indices) as [y_vals ->]; [by rewrite Hy|].
  destruct (take_indices_total all_z group_indices) as [z_vals ->]; [by rewrite Hz|].
  destruct (take_indices_total all_unix group_indices) as [unix_vals ->]; [by rewrite Hu|].
  pose proof (take_indices_length _ _ _ Hxv) as Hlen. rewrite Hxv. simpl.
  split.
  - intros [[Hne Hmin] Hno]. rewrite decide_False by lia.
    rewrite event_loop_overflow; [done| |done].
    destruct group_indices; [done|]. by destruct x_vals.
  - intros Hyes. case_decide as Hshort; [by eexists|].
    destruct (decide (group_indices = [])) as [Hnil|Hne].
    + rewrite Hnil in Hlen. destruct x_vals; [|done]. simpl. by eexists.
    + assert (squarable dist ∧ squarable mins ∧ squarable maxs) as (Hd & Hmin & Hmax).
      { destruct (decide (squarable dist ∧ squarable mins ∧ squarable maxs));
          [done|]. destruct Hyes. split; [|done]. split; [done|lia]. }
      destruct (event_loop_total group_indices x_vals y_vals z_vals unix_vals min_pts
                  dur dist thr mins maxs ([], []) (seq 0 (length x_vals)) Hd Hmin Hmax)
        as [[lightning_strikes sub_groups] ->].
      simpl. by eexists.
Qed.

Lemma process_group_total all_x all_y all_z all_unix min_pts group_ids
    dur dist thr mins maxs group :
  length all_x = length group_ids → length all_y = length group_ids →
  length all_z = length group_ids → length all_unix = length group_ids →
  squarable dist → squarable mins → squarable maxs →
  ∃ strikes, process_group all_x all_y all_z all_unix min_pts group_ids
               dur dist thr mins maxs group = Ok strikes.
Proof.
  intros Hx Hy Hz Hu Hd Hmin Hmax.
  apply (process_group_outcome all_x all_y all_z all_unix min_pts group_ids
           dur dist thr mins maxs group Hx Hy Hz Hu). tauto.
Qed.

Lemma group_loop_total all_x all_y all_z all_unix min_pts group_ids
    dur dist thr mins maxs unique_groups acc :
  length all_x = length group_ids → length all_y = length group_ids →
  length all_z = length group_ids → length all_unix = length group_ids →
  squarable dist → squarable mins → squarable maxs →
  ∃ strikes, group_loop all_x all_y all_z all_unix min_pts group_ids
               dur dist thr mins maxs unique_groups acc = Ok strikes.
Proof.
  intros Hx Hy Hz Hu Hd Hmin Hmax. revert acc.
  induction unique_groups as [|g gs IH]; intros acc; simpl; [by eexists|].
  destruct (process_group_total all_x all_y all_z all_unix min_pts group_ids
              dur dist thr mins maxs g Hx Hy Hz Hu Hd Hmin Hmax) as [added ->].
  simpl. apply IH.
Qed.

(** The groups in a row: the run ends in OverflowError exactly when a
    threshold cannot be squared and some group is handled. *)
Lemma group_loop_outcome all_x all_y all_z all_unix min_pts group_ids
    dur dist thr mins maxs unique_groups acc :
  length all_x = length group_ids → length all_y = length group_ids →
  length all_z = length group_ids → length all_unix = length group_ids →
  let overflow :=
    Exists (handled group_ids min_pts) unique_groups
    ∧ ¬ (squarable dist ∧ squarable mins ∧ squarable maxs) in
  (overflow →
   group_loop all_x all_y all_z all_unix min_pts group_ids
     dur dist thr mins maxs unique_groups acc = Raise OverflowError)
  ∧ (¬ overflow →
     ∃ strikes, group_loop all_x all_y all_z all_unix min_pts group_ids
                  dur dist thr mins maxs unique_groups acc = Ok strikes).
Proof.
  intros Hx Hy Hz Hu. simpl. revert acc.
  induction unique_groups as [|g gs IH]; intros acc; simpl.
  - split; [|by eexists]. intros [Hex _]. by apply Exists_nil in Hex.
  - destruct (process_group_outcome all_x all_y all_z all_unix min_pts group_ids
                dur dist thr mins maxs g Hx Hy Hz Hu) as [Hraise Hok].
    destruct (decide (handled group_ids min_pts g
                      ∧ ¬ (squarable dist ∧ squarable mins ∧ squarable maxs)))
      as [Hhere|Hnot].
    + rewrite (Hraise Hhere). simpl. split; [done|].
      intros Hno. destruct Hno. split; [left|]; tauto.
    + destruct (Hok Hnot) as [added ->]. simpl.
      destruct (IH (acc ++ added)) as [IHraise IHok]. split.
      * intros [Hex Hno]. apply IHraise. split; [|done].
        apply Exists_cons in Hex as [Hg|Hex]; [|done]. destruct Hnot. by split.
      * intros Hno. apply IHok. intros [Hex Hsq]. apply Hno. split; [by right|done].
Qed.

Lemma sort_values_length df : length (sort_values df) = length df.
Proof.
  unfold sort_values. by rewrite length_fmap, sort_by_key_length, length_fmap.
Qed.

(** On a table with at least one event the cluster engine returns when
    the thresholds can be squared. *)
Lemma bucket_total MAX_CHUNK_SIZE df thr dur dist maxs mins min_pts :
  df ≠ [] → squarable dist → squarable mins → squarable maxs →
  ∃ strikes,
    _bucket_dataframe_lightnings MAX_CHUNK_SIZE df thr dur dist maxs mins min_pts
    = Ok (sort_values df, strikes).
Proof.
  intros Hne Hd Hmin Hmax. rewrite bucket_unchunked. simpl.
  assert (values time_unix (sort_values df) ≠ []) as Hne'.
  { intros Hnil%(f_equal length). unfold values in Hnil.
    rewrite length_fmap, sort_values_length in Hnil. by destruct df. }
  pose proof (time_groups_length _ thr Hne') as Hlen.
  unfold values in *. rewrite length_fmap in Hlen.
  unfold _group_process.
  edestruct (group_loop_total ((col_x <$> sort_values df)) (col_y <$> sort_values df)
              (col_z <$> sort_values df) (time_unix <$> sort_values df) min_pts
              (time_groups_of (time_unix <$> sort_values df) thr)
              dur dist thr mins maxs) as [strikes ->];
    rewrite ?length_fmap; try done.
  by eexists.
Qed.

(** On a table with at least one event the cluster engine raises
    OverflowError when it handles a group and a threshold cannot be
    squared, and returns otherwise. *)
Lemma bucket_outcome MAX_CHUNK_SIZE df thr dur dist maxs mins min_pts :
  df ≠ [] →
  let group_ids := time_groups_of (values time_unix (sort_values df)) thr in
  let overflow :=
    Exists (handled group_ids min_pts) (Counter group_ids).*1
    ∧ ¬ (squarable dist ∧ squarable mins ∧ squarable maxs) in
  (overflow →
   _bucket_dataframe_lightnings MAX_CHUNK_SIZE df thr dur dist maxs mins min_pts
   = Raise OverflowError)
  ∧ (¬ overflow →
     ∃ strikes,
       _bucket_dataframe_lightnings MAX_CHUNK_SIZE df thr dur dist maxs mins min_pts
       = Ok (sort_values df, strikes)).
Proof.
  intros Hne. rewrite bucket_unchunked. simpl.
  assert (values time_unix (sort_values df) ≠ []) as Hne'.
  { intros Hnil%(f_equal length). unfold values in Hnil.
    rewrite length_fmap, sort_values_length in Hnil. by destruct df. }
  pose proof (time_groups_length _ thr Hne') as Hlen.
  unfold values in *. rewrite length_fmap in Hlen.
  unfold _group_process.
  destruct (group_loop_outcome (col_x <$> sort_values df) (col_y <$> sort_values df)
              (col_z <$> sort_values df) (time_unix <$> sort_values df) min_pts
              (time_groups_of (time_unix <$> sort_values df) thr)
              dur dist thr mins maxs
              (Counter (time_groups_of (time_unix <$> sort_values df) thr)).*1 [])
    as [Hraise Hok]; rewrite ?length_fmap; try done.
  split.
  - intros Hover. by rewrite (Hraise Hover).
  - intros Hno. destruct (Hok Hno) as [strikes ->]. by exists strikes.
Qed.

Lemma bucket_outcome_cases MAX_CHUNK_SIZE df thr dur dist maxs mins min_pts :
  df ≠ [] →
  (∃ strikes,
     _bucket_dataframe_lightnings MAX_CHUNK_SIZE df thr dur dist maxs mins min_pts
     = Ok (sort_values df, strikes))
  ∨ (_bucket_dataframe_lightnings MAX_CHUNK_SIZE df thr dur dist maxs mins min_pts
     = Raise OverflowError
     ∧ ¬ (squarable dist ∧ squarable mins ∧ squarable maxs)).
Proof.
  intros Hne.
  destruct (bucket_outcome MAX_CHUNK_SIZE df thr dur dist maxs mins min_pts Hne)
    as [Hraise Hok].
  match type of Hraise with ?overflow → _ =>
    destruct (decide overflow) as [Hover|Hno] end.
  - right. split; [by apply Hraise|]. by destruct Hover.
  - left. by apply Hok.
Qed.

(** C7.  Empty input.  For a table with no event the time bucketer still
    makes one group id; with [min_pts] 0 or 1 that group is not skipped, and
    indexing the empty columns with its position 0 raises IndexError,
    whatever the other parameters are.  With the default parameters the run
    gets past the cluster engine and ends in the TypeError of the call to
    the stitcher. *)
Theorem empty_table_raises MAX_CHUNK_SIZE thr dur dist maxs mins :
  time_groups_of [] thr = [0%nat]
  ∧ _bucket_dataframe_lightnings MAX_CHUNK_SIZE [] thr dur dist maxs mins 0
    = Raise IndexError
  ∧ _bucket_dataframe_lightnings MAX_CHUNK_SIZE [] thr dur dist maxs mins 1
    = Raise IndexError
  ∧ bucket_dataframe_lightnings MAX_CHUNK_SIZE None []
      (Build_Params (Some thr) (Some dur) (Some dist) (Some maxs) (Some mins)
         (Some 0%Z) None None None)
    = Raise IndexError
  ∧ bucket_dataframe_lightnings MAX_CHUNK_SIZE None [] no_params = Raise TypeError.
Proof.
  repeat split; reflexivity.
Qed.

End degenerate_inputs.

(** ** The chain builder *)

Section chain_builder.
Import lightning_stitcher chain_builder_spec.

Lemma zip_with_fmap_same {A B C D} (op : B → C → D) (f : A → B) (g : A → C) l :
  zip_with op (f <$> l) (g <$> l) = (λ a, op (f a) (g a)) <$> l.
Proof. induction l as [|a l IH]; csimpl; [done|]. by f_equal. Qed.

Lemma values_lookup_total (col : Row → Q) (rows : list Row) i :
  (i < length rows)%nat → values col rows !!! i = col (rows !!! i).
Proof.
  intros Hi. apply list_lookup_total_correct. unfold values.
  by rewrite list_lookup_fmap, (list_lookup_lookup_total_lt rows i Hi).
Qed.

Lemma distances_squared_rows rows i :
  (i < length rows)%nat →
  distances_squared_to (values col_x rows) (values col_y rows) (values col_z rows) i
  = (λ rk, dist2 rk (rows !!! i)) <$> take i rows.
Proof.
  intros Hi. unfold distances_squared_to, np_add, np_mul, np_sub_scalar.
  rewrite !values_lookup_total by done. unfold values.
  rewrite <- !fmap_take, <- !list_fmap_compose.
  by rewrite !zip_with_fmap_same.
Qed.

Lemma dt_squared_rows rows i :
  (i < length rows)%nat →
  dt_squared_to (values time_unix rows) i = (λ rk, dt2 rk (rows !!! i)) <$> take i rows.
Proof.
  intros Hi. unfold dt_squared_to, np_mul.
  rewrite values_lookup_total by done. unfold values.
  rewrite <- !fmap_take, <- !list_fmap_compose.
  by rewrite zip_with_fmap_same, <- list_fmap_compose.
Qed.

Lemma mask_of_rows params rows i :
  (i < length rows)%nat →
  let max_time_threshold := get (max_lightning_time_threshold params) 1%Q in
  let max_dist_between_pts := get (max_lightning_dist params) 50000%Q in
  let max_speed := get (max_lightning_speed params) (299792458 # 1000)%Q in
  let min_speed := get (min_lightning_speed params) 0%Q in
  let distances_squared :=
    distances_squared_to (values col_x rows) (values col_y rows) (values col_z rows) i in
  let dt_squared := dt_squared_to (values time_unix rows) i in
  mask_of distances_squared (np_div distances_squared dt_squared) dt_squared
    (max_dist_between_pts * max_dist_between_pts) (max_speed * max_speed)
    (min_speed * min_speed) (max_time_threshold * max_time_threshold)
  = (λ rk, gate params rk (rows !!! i)) <$> take i rows.
Proof.
  intros Hi. simpl. unfold mask_of.
  rewrite distances_squared_rows, dt_squared_rows by done.
  unfold np_and, np_le_scalar, np_ge_scalar, np_div.
  rewrite zip_with_fmap_same, <- !list_fmap_compose.
  by rewrite !zip_with_fmap_same.
Qed.

(** Every divisor of the speed computation is at least 1e-5. *)
Lemma dt_squared_positive (all_times : list Q) i :
  Forall (λ d, 0 < d)%Q (dt_squared_to all_times i).
Proof.
  unfold dt_squared_to. apply Forall_fmap, Forall_forall. intros d _.
  apply dt2_floor_pos.
Qed.

Lemma elem_of_candidates params rows i k :
  (i < length rows)%nat →
  k ∈ candidates params rows i
  ↔ (k < i)%nat ∧ gate params (rows !!! k) (rows !!! i) = true.
Proof.
  intros Hi. unfold candidates. rewrite elem_of_np_where, list_lookup_fmap.
  destruct (decide (k < i)%nat) as [Hk|Hk].
  - rewrite lookup_take_lt by done.
    rewrite (list_lookup_lookup_total_lt rows k) by lia. simpl.
    split; [intros [= ->]; done|]. by intros [_ ->].
  - rewrite lookup_take_ge by lia. simpl. split; [done|]. tauto.
Qed.

Lemma argmin_from_spec rest pre best besti :
  pre !! besti = Some best →
  (∀ j v, pre !! j = Some v → (best <= v)%Q ∧ ((j < besti)%nat → (best < v)%Q)) →
  ∃ vm, (pre ++ rest) !! argmin_from best besti (length pre) rest = Some vm
        ∧ ∀ j v, (pre ++ rest) !! j = Some v →
            (vm <= v)%Q
            ∧ ((j < argmin_from best besti (length pre) rest)%nat → (vm < v)%Q).
Proof.
  revert pre best besti. induction rest as [|v rest IH]; intros pre best besti Hbest Hmin.
  - simpl. rewrite app_nil_r. by exists best.
  - simpl. rewrite (cons_middle v pre rest), app_assoc.
    replace (S (length pre)) with (length (pre ++ [v]))
      by (rewrite length_app; simpl; lia).
    pose proof (lookup_lt_Some _ _ _ Hbest) as Hlt.
    destruct (decide (v < best)%Q) as [Hv|Hv].
    + apply IH.
      * by rewrite lookup_app_r, Nat.sub_diag.
      * intros j u Hj. apply lookup_app_Some in Hj as [Hj|[Hge Hj]].
        -- destruct (Hmin j u Hj) as [Hle _]. split; [lra|]. intros _. lra.
        -- apply list_lookup_singleton_Some in Hj as [_ <-].
           split; [lra|]. intros ?. lia.
    + apply Qnot_lt_le in Hv. apply IH.
      * by apply lookup_app_l_Some.
      * intros j u Hj. apply lookup_app_Some in Hj as [Hj|[Hge Hj]].
        -- by apply Hmin.
        -- apply list_lookup_singleton_Some in Hj as [_ <-].
           split; [done|]. intros ?. lia.
Qed.

(** [np.argmin] returns the first position of a least entry. *)
Lemma np_argmin_spec (a : list Q) :
  a ≠ [] →
  ∃ vm, a !! np_argmin a = Some vm
        ∧ ∀ j v, a !! j = Some v →
            (vm <= v)%Q ∧ ((j < np_argmin a)%nat → (vm < v)%Q).
Proof.
  destruct a as [|v0 rest]; [done|]. intros _. unfold np_argmin.
  apply (argmin_from_spec rest [v0] v0 0%nat); [done|].
  intros [|j] v Hj; simpl in Hj; [|by destruct j].
  injection Hj as <-. split; [lra|lia].
Qed.

Lemma np_argmin_fmap (f : nat → Q) (valid : list nat) :
  (0 < length valid)%nat →
  (np_argmin (f <$> valid) < length valid)%nat
  ∧ ∀ j k', valid !! j = Some k' →
      (f (valid !!! np_argmin (f <$> valid)) <= f k')%Q
      ∧ ((j < np_argmin (f <$> valid))%nat →
         (f (valid !!! np_argmin (f <$> valid)) < f k')%Q).
Proof.
  intros Hlen. destruct (np_argmin_spec (f <$> valid)) as (vm & Hvm & Hmin).
  { destruct valid; [simpl in Hlen; lia|done]. }
  assert (np_argmin (f <$> valid) < length valid)%nat as Hm.
  { apply lookup_lt_Some in Hvm. by rewrite length_fmap in Hvm. }
  split; [done|]. intros j k' Hj.
  rewrite list_lookup_fmap, (list_lookup_lookup_total_lt valid _ Hm) in Hvm.
  injection Hvm as <-. apply Hmin. by rewrite list_lookup_fmap, Hj.
Qed.

Lemma candidates_sorted params rows i : StronglySorted lt (candidates params rows i).
Proof. apply np_where_sorted. Qed.

(** The parent is the first among the closest masked predecessors. *)
Lemma chosen_parent_Some params rows i k :
  (i < length rows)%nat →
  chosen_parent params rows i = Some k →
  (k < i)%nat ∧ gate params (rows !!! k) (rows !!! i) = true
  ∧ ∀ k', (k' < i)%nat → gate params (rows !!! k') (rows !!! i) = true →
      (dist2 (rows !!! k) (rows !!! i) <= dist2 (rows !!! k') (rows !!! i))%Q
      ∧ ((k' < k)%nat →
         (dist2 (rows !!! k) (rows !!! i) < dist2 (rows !!! k') (rows !!! i))%Q).
Proof.
  intros Hi. unfold chosen_parent.
  set (valid := candidates params rows i).
  set (f := λ k : nat, dist2 (rows !!! k) (rows !!! i)).
  case_decide as Hlen; [|done]. intros [= Hk].
  destruct (np_argmin_fmap f valid Hlen) as [Hm Hmin].
  pose proof (list_lookup_lookup_total_lt valid _ Hm) as Hlk. rewrite Hk in Hlk.
  rewrite Hk in Hmin.
  assert (k ∈ valid) as Hkin by (by eapply list_elem_of_lookup_2).
  apply elem_of_candidates in Hkin as [Hki Hgate]; [|done].
  split; [done|]. split; [done|].
  intros k' Hk'i Hgate'.
  assert (k' ∈ valid) as Hk'in by (apply elem_of_candidates; done).
  apply list_elem_of_lookup in Hk'in as [j Hj].
  destruct (Hmin j k' Hj) as [Hle Hstrict].
  split; [done|]. intros Hlt. apply Hstrict.
  destruct (decide (j < np_argmin (f <$> valid))%nat) as [|Hge]; [done|].
  exfalso. destruct (decide (j = np_argmin (f <$> valid))) as [->|Hne].
  - assert (k' = k) by congruence. lia.
  - assert (k < k')%nat; [|lia].
    apply (StronglySorted_lookup lt valid (np_argmin (f <$> valid)) j);
      [apply candidates_sorted|lia|done..].
Qed.

Lemma chosen_parent_None params rows i :
  (i < length rows)%nat →
  chosen_parent params rows i = None →
  ∀ k', (k' < i)%nat → gate params (rows !!! k') (rows !!! i) = false.
Proof.
  intros Hi. unfold chosen_parent. case_decide as Hlen; [done|]. intros _ k' Hk'.
  destruct (gate params (rows !!! k') (rows !!! i)) eqn:Hg; [|done].
  assert (k' ∈ candidates params rows i) as Hin by (apply elem_of_candidates; done).
  destruct (candidates params rows i); [by inversion Hin|simpl in Hlen; lia].
Qed.

(** *** The loop *)

Lemma edge_at_first params order rows : edge_at params order rows 0 = [].
Proof. reflexivity. Qed.

(** One turn of the loop: it squares the thresholds when the event has a
    predecessor, and then adds the edge of the position. *)
Lemma stitch_event_step params order rows i corrs :
  length order = length rows → (i < length rows)%nat →
  stitch_event params order (values col_x rows) (values col_y rows)
    (values col_z rows) (values time_unix rows) (take i order, corrs) i
  = if decide (i = 0%nat ∨ squarable_thresholds params)
    then Ok (take (S i) order, corrs ++ edge_at params order rows i)
    else Raise OverflowError.
Proof.
  intros Hlen Hi. unfold stitch_event.
  rewrite length_take_le by lia.
  assert (take i order ++ [order !!! i] = take (S i) order) as Hsnoc.
  { by rewrite (take_S_r order i (order !!! i))
      by (apply list_lookup_lookup_total_lt; lia). }
  destruct (decide (0 < i)%nat) as [Hpos|Hzero].
  2:{ assert (i = 0%nat) as -> by lia. rewrite decide_True by (by left).
      simpl. by rewrite app_nil_r, <- Hsnoc. }
  destruct (decide (squarable_thresholds params)) as [Hsq|Hsq].
  2:{ rewrite decide_False by (intros [?|?]; [lia|done]).
      unfold squarable_thresholds in Hsq.
      destruct (decide (squarable (get (max_lightning_dist params) 50000%Q)))
        as [H1|H1]; [rewrite (float_pow2_squarable _ H1)
                    |by rewrite (float_pow2_overflow _ H1)].
      destruct (decide (squarable (get (max_lightning_speed params)
                                     (299792458 # 1000)%Q)))
        as [H2|H2]; [rewrite (float_pow2_squarable _ H2)
                    |by rewrite (float_pow2_overflow _ H2)].
      destruct (decide (squarable (get (min_lightning_speed params) 0%Q)))
        as [H3|H3]; [rewrite (float_pow2_squarable _ H3)
                    |by rewrite (float_pow2_overflow _ H3)].
      destruct (decide (squarable (get (max_lightning_time_threshold params) 1%Q)))
        as [H4|H4]; [tauto|by rewrite (float_pow2_overflow _ H4)]. }
  rewrite decide_True by (by right).
  destruct Hsq as (H1 & H2 & H3 & H4).
  rewrite (float_pow2_squarable _ H1), (float_pow2_squarable _ H2),
    (float_pow2_squarable _ H3), (float_pow2_squarable _ H4).
  cbn [mbind result_bind].
  rewrite (mask_of_rows params rows i Hi), distances_squared_rows by done.
  unfold edge_at, chosen_parent.
  fold (candidates params rows i). set (valid := candidates params rows i).
  set (f := λ k : nat, dist2 (rows !!! k) (rows !!! i)).
  assert ((λ k, ((λ rk, dist2 rk (rows !!! i)) <$> take i rows) !!! k) <$> valid
          = f <$> valid) as ->.
  { apply Forall_fmap_ext_1, Forall_forall. intros k Hk.
    apply elem_of_candidates in Hk as [Hk _]; [|done].
    apply list_lookup_total_correct.
    rewrite list_lookup_fmap, lookup_take_lt by done.
    by rewrite (list_lookup_lookup_total_lt rows k) by lia. }
  destruct (decide (0 < length valid)%nat) as [Hv|Hv].
  - destruct (np_argmin_fmap f valid Hv) as [Hm _].
    assert (valid !!! np_argmin (f <$> valid) ∈ valid) as Hin
      by (by apply list_elem_of_lookup_total_2).
    apply elem_of_candidates in Hin as [Hlt _]; [|done].
    cbn [mbind result_bind]. rewrite Hsnoc.
    by rewrite lookup_total_take_lt by done.
  - cbn [mbind result_bind]. by rewrite app_nil_r, Hsnoc.
Qed.

(** The loop over [n] positions: no threshold is squared for a strike of
    at most one event. *)
Lemma stitch_events_fold params order rows n corrs :
  length order = length rows → (n ≤ length rows)%nat →
  for_loop (stitch_event params order (values col_x rows) (values col_y rows)
              (values col_z rows) (values time_unix rows)) ([], corrs) (seq 0 n)
  = if decide ((n ≤ 1)%nat ∨ squarable_thresholds params)
    then Ok (take n order, corrs ++ flat_map (edge_at params order rows) (seq 0 n))
    else Raise OverflowError.
Proof.
  intros Hlen. induction n as [|n IH]; intros Hn.
  - cbn [seq for_loop]. rewrite decide_True by (left; lia).
    simpl. by rewrite app_nil_r.
  - rewrite seq_S, for_loop_app, IH by lia. cbn [Nat.add].
    destruct (decide (squarable_thresholds params)) as [Hsq|Hsq].
    + rewrite !decide_True by (by right). cbn [mbind result_bind for_loop].
      rewrite stitch_event_step by (done || lia).
      rewrite decide_True by (by right). cbn [mbind result_bind].
      rewrite flat_map_app, app_assoc. simpl. by rewrite app_nil_r.
    + destruct n as [|n].
      * rewrite !decide_True by (left; lia). cbn [mbind result_bind for_loop].
        rewrite stitch_event_step by (done || lia).
        rewrite decide_True by (by left). cbn [mbind result_bind].
        rewrite flat_map_app, app_assoc. cbn [flat_map]. by rewrite !app_nil_r.
      * rewrite (decide_False (P := (S (S n) ≤ 1)%nat ∨ _))
          by (intros [?|?]; [lia|done]).
        destruct (decide ((S n ≤ 1)%nat ∨ squarable_thresholds params));
          [|done].
        cbn [mbind result_bind for_loop].
        rewrite stitch_event_step by (done || lia).
        by rewrite decide_False by (intros [?|?]; [lia|done]).
Qed.

Lemma elem_of_flat_map {A B} (f : A → list B) (l : list A) (b : B) :
  b ∈ flat_map f l ↔ ∃ a, a ∈ l ∧ b ∈ f a.
Proof.
  rewrite list_elem_of_In, in_flat_map. split; intros (a & Ha & Hb); exists a;
    by rewrite ?list_elem_of_In in *.
Qed.

Lemma sorted_strike_perm strike events order :
  sorted_strike strike events = Ok order → order ≡ₚ strike.
Proof.
  unfold sorted_strike. intros Hok. apply bind_Ok in Hok as (cells & Hcells & Hok).
  case_decide; [done|]. injection Hok as <-.
  apply mapM_Ok, Forall2_length in Hcells.
  rewrite sort_by_key_perm, fst_zip; [done|]. rewrite length_fmap. lia.
Qed.

(** What [stitch_loop] does once the strike is sorted and its rows are
    read: OverflowError when it has two or more events and a threshold
    cannot be squared. *)
Lemma stitch_loop_run params strike events order rows :
  sorted_strike strike events = Ok order → iloc events order = Ok rows →
  stitch_loop params strike events
  = if decide ((length order ≤ 1)%nat ∨ squarable_thresholds params)
    then Ok (order, flat_map (edge_at params order rows) (seq 0 (length order)))
    else Raise OverflowError.
Proof.
  intros Horder Hrows. unfold stitch_loop. rewrite Horder. cbn [mbind result_bind].
  rewrite Hrows. cbn [mbind result_bind].
  pose proof (take_indices_length _ _ _ Hrows) as Hlen.
  rewrite stitch_events_fold by (done || lia).
  case_decide; [|done]. done.
Qed.

Lemma stitch_loop_Ok params strike events order corrs :
  stitch_loop params strike events = Ok (order, corrs) →
  sorted_strike strike events = Ok order
  ∧ ((length order ≤ 1)%nat ∨ squarable_thresholds params)
  ∧ ∃ rows, iloc events order = Ok rows
      ∧ corrs = flat_map (edge_at params order rows) (seq 0 (length order)).
Proof.
  intros Hok. pose proof Hok as Hrun. unfold stitch_loop in Hok.
  apply bind_Ok in Hok as (order' & Horder & Hok).
  apply bind_Ok in Hok as (rows & Hrows & Hok).
  rewrite (stitch_loop_run params strike events order' rows Horder Hrows) in Hrun.
  case_decide as Hsq; [|done]. injection Hrun as <- <-.
  split; [done|]. split; [done|]. by exists rows.
Qed.

Lemma iloc_lookup events order rows k p :
  iloc events order = Ok rows → order !! k = Some p →
  events !! p = Some (rows !!! k) ∧ rows !! k = Some (rows !!! k).
Proof.
  intros Hrows Hk. destruct (take_indices_lookup events order rows k p Hrows Hk)
    as [Hrk Hp].
  rewrite (list_lookup_total_correct _ _ _ Hrk). split; [|done].
  by apply list_lookup_lookup_total_lt.
Qed.

(** With positional labels the [loc] key of an index is the time of the
    row at that position. *)
Lemma loc_positional_aux (l : list Row) off idx :
  (∀ i r, l !! i = Some r → label r = (off + i)%nat) →
  filter (λ r, label r = idx) l
  = match l !! (idx - off)%nat with
    | Some r => if decide (off ≤ idx)%nat then [r] else []
    | None => []
    end.
Proof.
  revert off. induction l as [|r l IH]; intros off Hpos; [done|].
  assert (label r = off) as Hr by (rewrite (Hpos 0%nat r eq_refl); lia).
  rewrite filter_cons, (IH (S off)).
  2:{ intros i r' Hi. rewrite (Hpos (S i) r' Hi). lia. }
  destruct (decide (label r = idx)) as [Heq|Hne].
  - assert (idx - off = 0)%nat as -> by lia. simpl.
    rewrite decide_True by lia.
    replace (idx - S off)%nat with 0%nat by lia.
    destruct (l !! 0%nat); [|done]. by rewrite decide_False by lia.
  - destruct (decide (off ≤ idx)%nat) as [Hle|Hgt].
    + assert (idx - off = S (idx - S off))%nat as -> by lia. simpl.
      destruct (l !! (idx - S off)%nat); [|done]. by rewrite decide_True by lia.
    + destruct (l !! (idx - S off)%nat), ((r :: l) !! (idx - off)%nat); try done;
        by rewrite ?decide_False by lia.
Qed.

Lemma loc_positional events idx :
  positional events → (idx < length events)%nat →
  loc_time_unix events idx = Ok (Scalar (time_unix (events !!! idx))).
Proof.
  intros Hpos Hidx. unfold loc_time_unix.
  rewrite (loc_positional_aux events 0 idx) by (intros i r Hi; by apply Hpos).
  rewrite Nat.sub_0_r, (list_lookup_lookup_total_lt events idx Hidx).
  by rewrite decide_True by lia.
Qed.

Lemma sorted_strike_chronological strike events order rows :
  positional events →
  sorted_strike strike events = Ok order → iloc events order = Ok rows →
  StronglySorted Qle (time_unix <$> rows).
Proof.
  intros Hpos Hsorted Hrows.
  pose proof (sorted_strike_perm _ _ _ Hsorted) as Hperm.
  assert (∀ idx, idx ∈ strike → (idx < length events)%nat) as Hrange.
  { intros idx Hin. rewrite <- Hperm in Hin.
    apply list_elem_of_lookup in Hin as [k Hk].
    by destruct (take_indices_lookup events order rows k idx Hrows Hk). }
  unfold sorted_strike in Hsorted.
  apply bind_Ok in Hsorted as (cells & Hcells & Hsorted).
  case_decide; [done|]. injection Hsorted as <-.
  apply mapM_Ok in Hcells.
  assert (zip strike (cell_value <$> cells)
          = (λ idx, (idx, time_unix (events !!! idx))) <$> strike) as Hzip.
  { clear Hrows Hperm H. induction Hcells as [|idx c strike cells Hc _ IH]; [done|].
    csimpl. rewrite loc_positional in Hc by (done || apply Hrange; left).
    injection Hc as <-. simpl. f_equal. apply IH. intros i Hi. apply Hrange. by right. }
  rewrite Hzip in Hrows.
  set (keyed := (λ idx, (idx, time_unix (events !!! idx))) <$> strike) in *.
  assert (rows = (λ idx, events !!! idx) <$> (sort_by_key keyed).*1) as ->.
  { apply take_indices_Ok in Hrows. apply list_eq. intros k.
    rewrite list_lookup_fmap.
    destruct ((sort_by_key keyed).*1 !! k) as [idx|] eqn:Hk; simpl.
    - destruct (Forall2_lookup_l _ _ _ _ _ Hrows Hk) as (r & -> & Hr).
      by rewrite (list_lookup_total_correct _ _ _ Hr).
    - apply lookup_ge_None. rewrite <- (Forall2_length _ _ _ Hrows).
      by apply lookup_ge_None. }
  rewrite <- list_fmap_compose.
  apply (sort_by_key_fmap_sorted (time_unix ∘ (λ idx, events !!! idx))).
  unfold keyed. by apply Forall_fmap, Forall_true.
Qed.

(** With positional labels, indices inside the table and thresholds that
    can be squared (or a strike of at most one event) the chain builder
    returns. *)
Lemma stitch_loop_total params strike events :
  positional events → Forall (λ idx, idx < length events)%nat strike →
  (length strike ≤ 1)%nat ∨ squarable_thresholds params →
  ∃ order corrs, stitch_loop params strike events = Ok (order, corrs).
Proof.
  intros Hpos Hrange Hsq.
  assert (mapM (loc_time_unix events) strike
          = Ok ((λ idx, Scalar (time_unix (events !!! idx))) <$> strike)) as Hcells.
  { apply mapM_Ok. clear Hsq.
    induction Hrange as [|idx strike Hidx _ IH]; csimpl; constructor;
      [by apply loc_positional|done]. }
  destruct (sorted_strike strike events) as [order|e] eqn:Hsorted.
  2:{ unfold sorted_strike in Hsorted. rewrite Hcells in Hsorted. simpl in Hsorted.
      case_decide as Hser; [|done]. destruct Hser as [_ Hser].
      apply existsb_exists in Hser as (c & Hc & Hs).
      apply list_elem_of_In, list_elem_of_fmap in Hc as (idx & -> & _). done. }
  pose proof (sorted_strike_perm _ _ _ Hsorted) as Hperm.
  destruct (take_indices_total events order) as [rows Hrows].
  { by rewrite Hperm. }
  rewrite (stitch_loop_run params strike events order rows Hsorted Hrows).
  rewrite decide_True; [by eexists _, _|].
  by rewrite (Permutation_length Hperm).
Qed.

(** The order [sorted] gives is ascending in the keys read by label. *)
Lemma sorted_strike_by_key strike events order :
  sorted_strike strike events = Ok order →
  StronglySorted Qle (loc_key events <$> order).
Proof.
  unfold sorted_strike. intros Hok. apply bind_Ok in Hok as (cells & Hcells & Hok).
  case_decide; [done|]. injection Hok as <-.
  apply sort_by_key_fmap_sorted. apply mapM_Ok in Hcells.
  clear H. induction Hcells as [|idx c strike cells Hc _ IH]; [constructor|].
  csimpl. constructor; [|done]. simpl. unfold loc_key. by rewrite Hc.
Qed.

(** The sort key is read by label, the data by position: on a table whose
    labels are not the positions the loop runs in the order of the keys,
    here against time. *)
Lemma sort_key_by_label :
  stitch_loop examples.two_point_params [0; 1]%nat examples.relabelled_events
  = Ok ([1; 0]%nat, [(1, 0)]%nat).
Proof. vm_compute. reflexivity. Qed.

(** The parent selection of the chain builder.  The loop handles the strike in
    the order [sorted] gives it (a permutation of the strike; ascending in
    time when the index labels of the table are the positions).  The
    correlations it emits are, position by position, the edge of that
    position: one correlation [(parent, current)] when some earlier position
    passes the mask, the parent being the first among the masked earlier
    positions at least squared distance; no correlation when none passes.
    Every earlier position is a candidate, parented or not. *)
Theorem parent_selection params strike events order corrs :
  stitch_loop params strike events = Ok (order, corrs) →
  order ≡ₚ strike
  ∧ ∃ rows,
      iloc events order = Ok rows
      ∧ (positional events → StronglySorted Qle (time_unix <$> rows))
      ∧ corrs = flat_map (edge_at params order rows) (seq 0 (length order))
      ∧ ∀ i, (i < length order)%nat →
          match chosen_parent params rows i with
          | Some k =>
              edge_at params order rows i = [(order !!! k, order !!! i)]
              ∧ (k < i)%nat
              ∧ gate params (rows !!! k) (rows !!! i) = true
              ∧ ∀ k', (k' < i)%nat → gate params (rows !!! k') (rows !!! i) = true →
                  (dist2 (rows !!! k) (rows !!! i) <= dist2 (rows !!! k') (rows !!! i))%Q
                  ∧ ((k' < k)%nat →
                     (dist2 (rows !!! k) (rows !!! i)
                      < dist2 (rows !!! k') (rows !!! i))%Q)
          | None =>
              edge_at params order rows i = []
              ∧ ∀ k', (k' < i)%nat → gate params (rows !!! k') (rows !!! i) = false
          end.
Proof.
  intros Hok. apply stitch_loop_Ok in Hok as (Hsorted & _ & rows & Hrows & Hcorrs).
  split; [by eapply sorted_strike_perm|]. exists rows.
  split; [done|]. split; [intros Hpos; by eapply sorted_strike_chronological|].
  split; [done|]. intros i Hi.
  pose proof (take_indices_length _ _ _ Hrows) as Hlen.
  unfold edge_at. destruct (chosen_parent params rows i) as [k|] eqn:Hchosen.
  - split; [done|]. apply chosen_parent_Some; [lia|done].
  - split; [done|]. apply chosen_parent_None; [lia|done].
Qed.

Lemma parent_selection_witness :
  stitch_loop examples.two_point_params [0; 1]%nat examples.fast_events
    = Ok ([0; 1]%nat, [(0, 1)]%nat)
  ∧ [0; 1]%nat ≡ₚ [0; 1]%nat.
Proof.
  assert (stitch_loop examples.two_point_params [0; 1]%nat examples.fast_events
          = Ok ([0; 1]%nat, [(0, 1)]%nat)) as Hrun by (vm_compute; reflexivity).
  split; [exact Hrun|].
  exact (proj1 (parent_selection _ _ _ _ _ Hrun)).
Defined.

(** C3.  Chain Builder parent selection: the processing order.  The
    chain builder sorts the indices of a strike by the time of the row that
    carries the index as its label, and then reads the rows by position.
    The cluster engine sorts the table in place, which keeps the labels:
    on the table it leaves for two events given with the later one first,
    the strike it emits is handled against time, and the later event is
    made the parent of the earlier one.  So the events of a strike are not
    always processed in ascending time order. *)
Theorem strike_order_by_label :
  (∀ params strike events order corrs,
     stitch_loop params strike events = Ok (order, corrs) →
     StronglySorted Qle (loc_key events <$> order)
     ∧ ∃ rows, iloc events order = Ok rows
               ∧ (positional events → time_unix <$> rows = loc_key events <$> order))
  ∧ lightning_bucketer.raw_groups_of 50000 examples.swapped_events
      examples.two_point_params
    = Ok (examples.relabelled_events, [[0; 1]]%nat)
  ∧ ¬ positional examples.relabelled_events
  ∧ stitch_loop examples.two_point_params [0; 1]%nat examples.relabelled_events
    = Ok ([1; 0]%nat, [(1, 0)]%nat)
  ∧ time_unix <$> examples.relabelled_events = [0; 1 # 2]%Q
  ∧ stitch_lightning_strike examples.two_point_params [0; 1]%nat
      examples.relabelled_events
    = Ok [(1, 0)]%nat
  ∧ ¬ chronological_claim.
Proof.
  assert (stitch_loop examples.two_point_params [0; 1]%nat examples.relabelled_events
          = Ok ([1; 0]%nat, [(1, 0)]%nat)) as Hrun by (vm_compute; reflexivity).
  split; [|split; [|split; [|split; [|split; [|split]]]]].
  - intros params strike events order corrs Hok.
    apply stitch_loop_Ok in Hok as (Hsorted & _ & rows & Hrows & _).
    split; [by eapply sorted_strike_by_key|]. exists rows. split; [done|].
    intros Hpos. apply list_eq. intros k. rewrite !list_lookup_fmap.
    destruct (order !! k) as [idx|] eqn:Hk; simpl.
    + destruct (take_indices_lookup events order rows k idx Hrows Hk) as [-> Hlt].
      simpl. unfold loc_key. by rewrite loc_positional.
    + apply take_indices_length in Hrows.
      rewrite (proj2 (lookup_ge_None rows k)); [done|].
      rewrite Hrows. by apply lookup_ge_None.
  - vm_compute. reflexivity.
  - intros Hpos. by specialize (Hpos 0%nat _ eq_refl).
  - exact Hrun.
  - reflexivity.
  - vm_compute. reflexivity.
  - intros Hclaim.
    specialize (Hclaim examples.two_point_params [0; 1]%nat examples.relabelled_events
                  [1; 0]%nat [(1, 0)]%nat _ Hrun eq_refl).
    apply StronglySorted_inv in Hclaim as [_ Hall].
    apply Forall_cons in Hall as [Hle _]. vm_compute in Hle. by apply Hle.
Qed.

End chain_builder.

(** ** The gates on a correlation, and the forest shape *)

Section gates.
Import lightning_stitcher chain_builder_spec gating_spec examples.

Lemma gate_squared params rp rc :
  gate params rp rc = true ↔ squared_gated params rp rc.
Proof.
  unfold gate, squared_gated, dt2. simpl.
  rewrite !andb_true_iff, !bool_decide_eq_true. tauto.
Qed.

Lemma filter_chain_size_sublist raw min_pts :
  filter_correlations_by_chain_size raw min_pts `sublist_of` raw.
Proof. apply sublist_filter. Qed.

Lemma filter_chain_size_elem raw min_pts pc :
  pc ∈ filter_correlations_by_chain_size raw min_pts → pc ∈ raw.
Proof. intros Hin. by apply list_elem_of_filter in Hin as [_ ?]. Qed.

(** Every edge of the loop joins an earlier position to a later one,
    through the mask. *)
Lemma edge_at_elem params order rows i p c :
  (i < length rows)%nat →
  (p, c) ∈ edge_at params order rows i →
  ∃ k, (k < i)%nat ∧ p = order !!! k ∧ c = order !!! i
       ∧ gate params (rows !!! k) (rows !!! i) = true.
Proof.
  intros Hi. unfold edge_at.
  destruct (chosen_parent params rows i) as [k|] eqn:Hchosen; [|by inversion 1].
  intros [= -> ->]%list_elem_of_singleton.
  destruct (chosen_parent_Some params rows i k Hi Hchosen) as (Hk & Hg & _).
  by exists k.
Qed.

Lemma stitch_edge params strike events corrs p c :
  stitch_lightning_strike params strike events = Ok corrs → (p, c) ∈ corrs →
  ∃ order rows k i,
    order ≡ₚ strike ∧ iloc events order = Ok rows
    ∧ (k < i)%nat ∧ order !! k = Some p ∧ order !! i = Some c
    ∧ gate params (rows !!! k) (rows !!! i) = true.
Proof.
  unfold stitch_lightning_strike. intros Hok Hin.
  apply bind_Ok in Hok as ([order raw] & Hloop & [= <-]).
  apply filter_chain_size_elem in Hin.
  apply stitch_loop_Ok in Hloop as (Hsorted & _ & rows & Hrows & ->).
  pose proof (take_indices_length _ _ _ Hrows) as Hlen.
  apply elem_of_flat_map in Hin as (i & Hi%elem_of_seq & Hedge).
  apply edge_at_elem in Hedge as (k & Hk & -> & -> & Hgate); [|lia].
  exists order, rows, k, i. split; [by eapply sorted_strike_perm|].
  split; [done|]. split; [done|].
  split; [|split; [|done]]; apply list_lookup_lookup_total_lt; lia.
Qed.

Lemma Qdiv_le_inv (a b c : Q) : (0 < c)%Q → (a / c <= b)%Q → (a <= b * c)%Q.
Proof.
  intros Hc Hle. apply (Qmult_le_compat_r _ _ c) in Hle; [|by apply Qlt_le_weak].
  assert (a == a / c * c)%Q as Heq; [|by rewrite Heq].
  field. intros H0. rewrite H0 in Hc. by apply Qlt_irrefl in Hc.
Qed.

Lemma Qdiv_ge_inv (a b c : Q) : (0 < c)%Q → (b <= a / c)%Q → (b * c <= a)%Q.
Proof.
  intros Hc Hle. apply (Qmult_le_compat_r _ _ c) in Hle; [|by apply Qlt_le_weak].
  assert (a == a / c * c)%Q as Heq; [|by rewrite Heq].
  field. intros H0. rewrite H0 in Hc. by apply Qlt_irrefl in Hc.
Qed.

(** C2.  Gates on every output correlation, as the mask applies them.  For every
    correlation [(p, c)] that [stitch_lightning_strike] returns, on the rows
    of [p] and [c]: the squared distance is at most [max_lightning_dist]
    squared; the squared time difference, floored at 1e-5, is at most
    [max_lightning_time_threshold] squared (so is the squared time
    difference itself); the squared distance over the floored squared time
    difference lies between [min_lightning_speed] squared and
    [max_lightning_speed] squared.  With non-negative thresholds, and for a
    pair with a positive time difference whose square is at least 1e-5,
    these are the bounds on the distance, the time difference and the speed
    themselves. *)
Theorem correlation_gate params strike events corrs p c :
  stitch_lightning_strike params strike events = Ok corrs → (p, c) ∈ corrs →
  ∃ rp rc,
    events !! p = Some rp ∧ events !! c = Some rc
    ∧ squared_gated params rp rc
    ∧ (let dt := (time_unix rc - time_unix rp)%Q in
       let thr := get (max_lightning_time_threshold params) 1%Q in
       (dt * dt <= thr * thr)%Q)
    ∧ (let dt := (time_unix rc - time_unix rp)%Q in
       (0 <= get (max_lightning_dist params) 50000)%Q →
       (0 <= get (max_lightning_time_threshold params) 1)%Q →
       (0 <= get (max_lightning_speed params) (299792458 # 1000))%Q →
       (0 < dt)%Q → (1 # 100000 <= dt * dt)%Q →
       speed_gated params rp rc).
Proof.
  intros Hok Hin.
  destruct (stitch_edge params strike events corrs p c Hok Hin)
    as (order & rows & k & i & _ & Hrows & Hki & Hk & Hi & Hgate).
  destruct (iloc_lookup events order rows k p Hrows Hk) as [Hp _].
  destruct (iloc_lookup events order rows i c Hrows Hi) as [Hc _].
  exists (rows !!! k), (rows !!! i). split; [done|]. split; [done|].
  apply gate_squared in Hgate. split; [done|].
  destruct Hgate as (Hd & Ht & Hmin & Hmax).
  set (rp := rows !!! k) in *. set (rc := rows !!! i) in *.
  set (dt := (time_unix rc - time_unix rp)%Q) in *.
  destruct (dt2_floor_ge (dt * dt)) as [Hfloor _].
  split; [simpl; lra|].
  simpl. intros Hdist Hthr Hspeed Hdt Hbig.
  assert (dt2_floor (dt * dt) = (dt * dt)%Q) as Hex.
  { unfold dt2_floor. destruct (decide (dt * dt < 1 # 100000)%Q); [lra|done]. }
  rewrite Hex in *.
  assert (0 < dt * dt)%Q as Hpos by lra.
  apply Qdiv_le_inv in Hmax; [|done]. apply Qdiv_ge_inv in Hmin; [|done].
  unfold speed_gated, distance_le, distance_ge. fold dt.
  split; [split; [done|done]|]. split; [nra|]. intros _.
  split; [right; nra|]. split; [nra|nra].
Qed.

Lemma correlation_gate_witness :
  stitch_lightning_strike two_point_params [0; 1]%nat fast_events = Ok [(0, 1)]%nat
  ∧ ∃ rp rc,
      fast_events !! 0%nat = Some rp ∧ fast_events !! 1%nat = Some rc
      ∧ squared_gated two_point_params rp rc.
Proof.
  assert (stitch_lightning_strike two_point_params [0; 1]%nat fast_events
          = Ok [(0, 1)]%nat) as Hrun by (vm_compute; reflexivity).
  split; [exact Hrun|].
  destruct (correlation_gate two_point_params [0; 1]%nat fast_events [(0, 1)]%nat
              0%nat 1%nat Hrun) as (rp & rc & Hp & Hc & Hgate & _).
  { left. }
  exists rp, rc. split; [exact Hp|]. split; [exact Hc|exact Hgate].
Defined.

(** C2 as stated does not hold: with the default thresholds two events
    500 m and 1 ms apart are linked (the squared time difference is floored
    at 1e-5), at a speed of 500 km/s. *)
Lemma speed_gating_counterexample : ¬ speed_gating_claim.
Proof.
  intros Hclaim.
  destruct (Hclaim two_point_params [0; 1]%nat fast_events [(0, 1)]%nat 0%nat 1%nat
              _ _ ltac:(vm_compute; reflexivity) ltac:(left) eq_refl eq_refl)
    as (_ & _ & Hspeed).
  destruct Hspeed as (_ & _ & Hle); [reflexivity|].
  vm_compute in Hle. by apply Hle.
Qed.

(** *** At most one parent *)

Lemma edges_children params order rows (l : list nat) :
  NoDup order → NoDup l → Forall (λ i, i < length order)%nat l →
  NoDup (flat_map (edge_at params order rows) l).*2.
Proof.
  intros Horder Hl Hrange. induction l as [|i l IH]; [constructor|].
  apply NoDup_cons in Hl as [Hi Hl]. apply Forall_cons in Hrange as [Hir Hrange].
  simpl. rewrite fmap_app. apply NoDup_app. split; [|split; [|by apply IH]].
  - unfold edge_at. destruct (chosen_parent params rows i); repeat constructor.
    by inversion 1.
  - intros c Hc Hc'.
    assert (c = order !!! i) as ->.
    { unfold edge_at in Hc. destruct (chosen_parent params rows i); simpl in Hc;
        [by apply list_elem_of_singleton in Hc|by inversion Hc]. }
    apply list_elem_of_fmap in Hc' as ([p c'] & Heq & Hin). simpl in Heq. subst c'.
    apply elem_of_flat_map in Hin as (j & Hj & Hedge).
    assert (order !!! i = order !!! j) as Heq.
    { unfold edge_at in Hedge. destruct (chosen_parent params rows j); simpl in Hedge;
        [|by inversion Hedge]. by apply list_elem_of_singleton in Hedge as [= _ ->]. }
    assert (i = j) as ->; [|done].
    eapply Forall_forall in Hrange; [|exact Hj]. simpl in Hrange.
    apply (NoDup_lookup order i j (order !!! i)); [done| |].
    + by apply list_lookup_lookup_total_lt.
    + rewrite Heq. by apply list_lookup_lookup_total_lt.
Qed.

(** The chain merger stitches the indices of a set. *)
Lemma merged_indices_distinct (corr : list (nat * nat)) :
  NoDup (elements (unique_indices corr)).
Proof. apply NoDup_elements. Qed.

Lemma filter_chain_size_children raw min_pts :
  NoDup raw.*2 → NoDup (filter_correlations_by_chain_size raw min_pts).*2.
Proof.
  intros Hraw. apply (sublist_NoDup _ raw.*2); [done|].
  apply fmap_sublist, filter_chain_size_sublist.
Qed.

Lemma stitch_children_distinct params strike events corrs :
  NoDup strike →
  stitch_lightning_strike params strike events = Ok corrs →
  NoDup corrs.*2.
Proof.
  intros Hnd Hok. unfold stitch_lightning_strike in Hok.
  apply bind_Ok in Hok as ([order raw] & Hloop & [= <-]).
  apply filter_chain_size_children.
  apply stitch_loop_Ok in Hloop as (Hsorted & _ & rows & Hrows & ->).
  apply edges_children.
  - by rewrite (sorted_strike_perm _ _ _ Hsorted).
  - apply NoDup_seq.
  - apply Forall_forall. intros i Hi%elem_of_seq. lia.
Qed.

Lemma stitch_edges_forward params strike events corrs :
  stitch_lightning_strike params strike events = Ok corrs →
  ∃ order, order ≡ₚ strike
    ∧ ∀ p c, (p, c) ∈ corrs →
        ∃ k i, (k < i)%nat ∧ order !! k = Some p ∧ order !! i = Some c.
Proof.
  intros Hok. unfold stitch_lightning_strike in Hok.
  apply bind_Ok in Hok as ([order raw] & Hloop & [= <-]).
  exists order.
  apply stitch_loop_Ok in Hloop as (Hsorted & _ & rows & Hrows & ->).
  split; [by eapply sorted_strike_perm|].
  intros p c Hin%filter_chain_size_elem.
  pose proof (take_indices_length _ _ _ Hrows) as Hlen.
  apply elem_of_flat_map in Hin as (i & Hi%elem_of_seq & Hedge).
  apply edge_at_elem in Hedge as (k & Hk & -> & -> & _); [|lia].
  exists k, i. split; [done|]. split; apply list_lookup_lookup_total_lt; lia.
Qed.

(** C10.  At most one parent per event.  For a strike without repeated
    indices, no event is the child of two correlations of the list
    [stitch_lightning_strike] returns, and every correlation joins an
    earlier position of the processing order to a later one, so the edges
    form a forest.  The component-size filter returns a sublist of its
    input, and so keeps the children distinct.  The strikes the cluster
    engine emits and the index lists the chain merger stitches again have
    no repeated index, so the same holds of every list the pipeline
    stitches. *)
Theorem one_parent_per_event params strike events corrs :
  NoDup strike →
  stitch_lightning_strike params strike events = Ok corrs →
  NoDup corrs.*2
  ∧ (∃ order, order ≡ₚ strike
       ∧ ∀ p c, (p, c) ∈ corrs →
           ∃ k i, (k < i)%nat ∧ order !! k = Some p ∧ order !! i = Some c)
  ∧ (∀ raw min_pts,
       filter_correlations_by_chain_size raw min_pts `sublist_of` raw
       ∧ (NoDup raw.*2 → NoDup (filter_correlations_by_chain_size raw min_pts).*2))
  ∧ (∀ MAX_CHUNK_SIZE df thr dur dist maxs mins min_pts df' strikes cluster chain,
       lightning_bucketer._bucket_dataframe_lightnings MAX_CHUNK_SIZE df thr dur
         dist maxs mins min_pts = Ok (df', strikes) →
       cluster ∈ strikes →
       stitch_lightning_strike params cluster df' = Ok chain →
       NoDup chain.*2)
  ∧ (∀ combined_corr chain,
       stitch_lightning_strike params (elements (unique_indices combined_corr)) events
         = Ok chain →
       NoDup chain.*2).
Proof.
  intros Hnd Hok. split; [by eapply stitch_children_distinct|].
  split; [by eapply stitch_edges_forward|]. split; [|split].
  - intros raw min_pts.
    split; [apply filter_chain_size_sublist|apply filter_chain_size_children].
  - intros MAX_CHUNK_SIZE df thr dur dist maxs mins min_pts df' strikes cluster chain
      Hbucket Hin Hchain.
    eapply stitch_children_distinct; [|exact Hchain].
    pose proof (bucket_strikes_distinct _ _ _ _ _ _ _ _ _ _ Hbucket) as Hall.
    eapply Forall_forall in Hall; [|exact Hin]. by destruct Hall.
  - intros combined_corr chain Hchain.
    eapply stitch_children_distinct; [apply merged_indices_distinct|exact Hchain].
Qed.

Lemma one_parent_per_event_witness :
  NoDup [0; 1]%nat
  ∧ stitch_lightning_strike two_point_params [0; 1]%nat fast_events = Ok [(0, 1)]%nat
  ∧ NoDup [(0, 1)]%nat.*2.
Proof.
  assert (NoDup [0; 1]%nat) as Hnd by (apply (bool_decide_unpack _); vm_compute; exact I).
  assert (stitch_lightning_strike two_point_params [0; 1]%nat fast_events
          = Ok [(0, 1)]%nat) as Hrun by (vm_compute; reflexivity).
  split; [exact Hnd|]. split; [exact Hrun|].
  exact (proj1 (one_parent_per_event two_point_params [0; 1]%nat fast_events
                  [(0, 1)]%nat Hnd Hrun)).
Defined.

End gates.

(** ** Parameters: no validation, and the defaults of the duration *)

Section parameters.
Import lightning_stitcher lightning_bucketer gating_spec params_spec examples.

Lemma no_config_error_bind {A B} (m : result A) (f : A → result B) :
  no_config_error m → (∀ a, m = Ok a → no_config_error (f a)) →
  no_config_error (m ≫= f).
Proof.
  unfold no_config_error. intros Hm Hf. destruct m as [a|e]; simpl; [by apply Hf|].
  intros [= ->]. by apply Hm.
Qed.

Lemma no_config_error_Ok {A} (a : A) : no_config_error (Ok a).
Proof. done. Qed.

Lemma no_config_error_getitem {A} (l : list A) i : no_config_error (getitem l i).
Proof. unfold getitem. by destruct (l !! i). Qed.

Lemma no_config_error_mapM {A B} (f : A → result B) l :
  (∀ a, no_config_error (f a)) → no_config_error (mapM f l).
Proof.
  intros Hf. induction l as [|a l IH]; [done|].
  change (no_config_error (f a ≫= λ y, mapM f l ≫= λ k, mret (y :: k))).
  apply no_config_error_bind; [done|]. intros y _.
  apply no_config_error_bind; [done|]. by intros.
Qed.

Lemma no_config_error_take_indices {A} (l : list A) idx :
  no_config_error (take_indices l idx).
Proof. apply no_config_error_mapM. intros i. apply no_config_error_getitem. Qed.

Lemma no_config_error_float_pow2 v : no_config_error (float_pow2 v).
Proof. unfold float_pow2. by case_decide. Qed.

Lemma no_config_error_for_loop {S A} (body : S → A → result S) st l :
  (∀ st a, no_config_error (body st a)) → no_config_error (for_loop body st l).
Proof.
  intros Hbody. revert st. induction l as [|a l IH]; intros st; simpl; [done|].
  apply no_config_error_bind; [apply Hbody|]. intros st' _. apply IH.
Qed.

Local Ltac no_config :=
  repeat lazymatch goal with
    | |- no_config_error (Ok _) => apply no_config_error_Ok
    | |- no_config_error (float_pow2 _) => apply no_config_error_float_pow2
    | |- no_config_error (getitem _ _) => apply no_config_error_getitem
    | |- no_config_error (take_indices _ _) => apply no_config_error_take_indices
    | |- no_config_error (mbind _ _) => apply no_config_error_bind; [|intros ? ?]
    end.

Lemma no_config_error_process_group ax ay az au min_pts ids dur dist thr mins maxs g :
  no_config_error (process_group ax ay az au min_pts ids dur dist thr mins maxs g).
Proof.
  unfold process_group. case_decide; [done|]. no_config.
  - apply no_config_error_for_loop. intros [lightning_strikes sub_groups] j.
    unfold event_step. no_config. by case_match.
  - by case_match.
Qed.

Lemma no_config_error_group_loop ax ay az au min_pts ids dur dist thr mins maxs gs acc :
  no_config_error (group_loop ax ay az au min_pts ids dur dist thr mins maxs gs acc).
Proof.
  revert acc. induction gs as [|g gs IH]; intros acc; simpl; [done|].
  apply no_config_error_bind; [apply no_config_error_process_group|]. intros; apply IH.
Qed.

Lemma no_config_error_bucket MAX_CHUNK_SIZE df thr dur dist maxs mins min_pts :
  no_config_error
    (_bucket_dataframe_lightnings MAX_CHUNK_SIZE df thr dur dist maxs mins min_pts).
Proof.
  rewrite bucket_unchunked. simpl.
  apply no_config_error_bind; [apply no_config_error_group_loop|done].
Qed.

Lemma no_config_error_stitch_strike params strike events :
  no_config_error (stitch_lightning_strike params strike events).
Proof.
  unfold stitch_lightning_strike, stitch_loop, sorted_strike.
  apply no_config_error_bind; [|by intros [? ?] _].
  apply no_config_error_bind.
  - apply no_config_error_bind; [|intros; by case_decide].
    apply no_config_error_mapM. intros idx. unfold loc_time_unix.
    by repeat case_match.
  - intros order _. apply no_config_error_bind;
      [apply no_config_error_take_indices|].
    intros rows _. apply no_config_error_bind; [|by intros [? ?] _].
    apply no_config_error_for_loop. intros [parsed_indices correlations] i.
    unfold stitch_event. apply no_config_error_bind; [|done].
    case_decide; [|done]. no_config. by case_decide.
Qed.

Lemma no_config_error_sort_correlations times corr :
  no_config_error (sort_correlations times corr).
Proof.
  unfold sort_correlations. apply no_config_error_bind; [|done].
  apply no_config_error_mapM. intros c.
  apply no_config_error_bind; [apply no_config_error_getitem|done].
Qed.

Lemma no_config_error_first_parent corr : no_config_error (first_parent corr).
Proof. unfold first_parent. by destruct (head corr). Qed.

Lemma no_config_error_last_child corr : no_config_error (last_child corr).
Proof. unfold last_child. by destruct (last corr). Qed.

Lemma no_config_error_merge_into params sq events sorted_corr st et x1 y1 z1 temp :
  no_config_error (merge_into params sq events sorted_corr st et x1 y1 z1 temp).
Proof.
  induction temp as [|temp_corr rest IH]; simpl; [done|].
  apply no_config_error_bind.
  { apply no_config_error_bind; [apply no_config_error_first_parent|].
    intros; apply no_config_error_getitem. }
  intros temp_start _. apply no_config_error_bind.
  { apply no_config_error_bind; [apply no_config_error_last_child|].
    intros; apply no_config_error_getitem. }
  intros temp_last _. apply no_config_error_bind.
  { case_match; [|done]. no_config. }
  intros [|] _.
  - apply no_config_error_bind; [apply no_config_error_stitch_strike|].
    intros merged _. apply no_config_error_bind;
      [apply no_config_error_sort_correlations|done].
  - apply no_config_error_bind; [apply IH|done].
Qed.

Lemma no_config_error_merge_loop params sq events todo temp :
  no_config_error (merge_loop params sq events todo temp).
Proof.
  revert temp. induction todo as [|corr todo IH]; intros temp; simpl; [done|].
  apply no_config_error_bind; [|intros; apply IH].
  unfold merge_step. case_decide; [done|].
  apply no_config_error_bind; [apply no_config_error_sort_correlations|].
  intros sorted_corr _.
  apply no_config_error_bind; [apply no_config_error_first_parent|]. intros start_idx _.
  apply no_config_error_bind; [apply no_config_error_last_child|]. intros end_idx _.
  no_config.
  - apply no_config_error_merge_into.
  - by case_match.
Qed.

Lemma no_config_error_stitch_strikes params strikes events :
  no_config_error (stitch_lightning_strikes params strikes events).
Proof.
  unfold stitch_lightning_strikes. apply no_config_error_bind.
  - apply no_config_error_mapM. intros s. apply no_config_error_stitch_strike.
  - intros corrs _. apply no_config_error_bind;
      [apply no_config_error_float_pow2|].
    intros sq _. case_match; [apply no_config_error_merge_loop|done].
Qed.

(** C8.  Parameter validation: there is none.  For every table, parameter
    set and cache outcome, [bucket_dataframe_lightnings] does not raise
    ConfigError, nor do the cluster stage and the stitching stage; the
    cluster stage receives the six values as [params.get] returns them,
    unchanged. *)
Theorem no_parameter_validation MAX_CHUNK_SIZE cached df params :
  bucket_dataframe_lightnings MAX_CHUNK_SIZE cached df params ≠ Raise ConfigError
  ∧ raw_groups_of MAX_CHUNK_SIZE df params ≠ Raise ConfigError
  ∧ (∀ bucketed_strike_indices,
       stitch_lightning_strikes params bucketed_strike_indices df ≠ Raise ConfigError)
  ∧ raw_groups_of MAX_CHUNK_SIZE df params
    = _bucket_dataframe_lightnings MAX_CHUNK_SIZE df
        (default 1%Q (max_lightning_time_threshold params))
        (default 20%Q (max_lightning_duration params))
        (default 50000%Q (max_lightning_dist params))
        (default (299792458 # 1000)%Q (max_lightning_speed params))
        (default 0%Q (min_lightning_speed params))
        (default 300%Z (min_lightning_points params)).
Proof.
  split; [|split; [|split]].
  - unfold bucket_dataframe_lightnings, raw_groups_of. destruct cached; [done|].
    apply no_config_error_bind; [apply no_config_error_bucket|].
    intros [df' raw] _. by apply no_config_error_bind.
  - unfold raw_groups_of. apply no_config_error_bucket.
  - intros strikes. apply no_config_error_stitch_strikes.
  - reflexivity.
Qed.

(** C8 as stated does not hold: with the minimum speed above the maximum
    speed the cluster engine runs and returns strikes, and no ConfigError
    comes out. *)
Lemma validation_counterexample :
  ¬ validation_claim
  ∧ out_of_domain crossed_speed_params
  ∧ raw_groups_of 50000 fast_events crossed_speed_params
    = Ok (fast_events, [[0]; [1]]%nat).
Proof.
  assert (out_of_domain crossed_speed_params) as Hout by (left; reflexivity).
  split; [|split; [exact Hout|vm_compute; reflexivity]].
  intros Hclaim. specialize (Hclaim 50000%Z fast_events crossed_speed_params Hout).
  vm_compute in Hclaim. discriminate.
Qed.

(** *** The default of "max_lightning_duration" *)

Lemma stitch_strike_with_duration d params :
  stitch_lightning_strike (with_duration d params) = stitch_lightning_strike params.
Proof. reflexivity. Qed.

Lemma merge_into_default_duration params sq events sorted_corr st et x1 y1 z1 temp :
  max_lightning_duration params = None →
  merge_into (with_duration 10 params) sq events sorted_corr st et x1 y1 z1 temp
  = merge_into params sq events sorted_corr st et x1 y1 z1 temp.
Proof.
  intros Habsent. induction temp as [|temp_corr rest IH]; [done|].
  cbn [merge_into]. rewrite IH, stitch_strike_with_duration.
  by rewrite Habsent.
Qed.

Lemma bind_ext {A B} (m : result A) (f g : A → result B) :
  (∀ a, f a = g a) → m ≫= f = m ≫= g.
Proof. intros Hfg. destruct m; simpl; [apply Hfg|done]. Qed.

Lemma merge_step_default_duration params sq events temp corr :
  max_lightning_duration params = None →
  merge_step (with_duration 10 params) sq events temp corr
  = merge_step params sq events temp corr.
Proof.
  intros Habsent. unfold merge_step. case_decide; [done|].
  do 8 (apply bind_ext; intros ?).
  by rewrite merge_into_default_duration.
Qed.

Lemma merge_loop_default_duration params sq events todo temp :
  max_lightning_duration params = None →
  merge_loop (with_duration 10 params) sq events todo temp
  = merge_loop params sq events todo temp.
Proof.
  intros Habsent. revert temp. induction todo as [|corr todo IH]; intros temp; [done|].
  cbn [merge_loop]. rewrite merge_step_default_duration by done.
  apply bind_ext. intros temp'. apply IH.
Qed.

(** C9.  Defaults of [max_lightning_duration].  Without the key,
    the cluster stage runs as with the value 20.0, and the chain merger
    runs as with the value 10. *)
Theorem duration_defaults params :
  max_lightning_duration params = None →
  (∀ MAX_CHUNK_SIZE df,
     raw_groups_of MAX_CHUNK_SIZE df params
     = raw_groups_of MAX_CHUNK_SIZE df (with_duration 20 params))
  ∧ (∀ bucketed_strike_indices events,
       stitch_lightning_strikes params bucketed_strike_indices events
       = stitch_lightning_strikes (with_duration 10 params)
           bucketed_strike_indices events).
Proof.
  intros Habsent. split.
  - intros MAX_CHUNK_SIZE df. unfold raw_groups_of. by rewrite Habsent.
  - intros strikes events. unfold stitch_lightning_strikes.
    rewrite stitch_strike_with_duration. apply bind_ext. intros corrs.
    change (combine_strikes_with_intercepting_times (with_duration 10 params))
      with (combine_strikes_with_intercepting_times params).
    change (intercepting_times_extension_max_distance (with_duration 10 params))
      with (intercepting_times_extension_max_distance params).
    apply bind_ext. intros sq.
    case_match; [|done]. symmetry. by apply merge_loop_default_duration.
Qed.

Lemma duration_defaults_witness :
  max_lightning_duration two_point_params = None
  ∧ stitch_lightning_strikes two_point_params [[0; 1]; [2; 3]]%nat two_strike_events
    = stitch_lightning_strikes (with_duration 10 two_point_params)
        [[0; 1]; [2; 3]]%nat two_strike_events.
Proof.
  split; [reflexivity|].
  exact (proj2 (duration_defaults two_point_params eq_refl)
           [[0; 1]; [2; 3]]%nat two_strike_events).
Defined.

(** C9 as stated does not hold: without the key the chain merger keeps
    the two strikes apart, as it does with the value 10; with the value 20.0
    it joins them. *)
Lemma uniform_default_counterexample :
  ¬ uniform_default_claim
  ∧ stitch_lightning_strikes two_point_params [[0; 1]; [2; 3]]%nat two_strike_events
    = Ok [[(0, 1)]; [(2, 3)]]%nat
  ∧ stitch_lightning_strikes (with_duration 20 two_point_params)
      [[0; 1]; [2; 3]]%nat two_strike_events
    = Ok [[(0, 1); (2, 3)]]%nat.
Proof.
  assert (stitch_lightning_strikes two_point_params [[0; 1]; [2; 3]]%nat
            two_strike_events = Ok [[(0, 1)]; [(2, 3)]]%nat) as Habsent
    by (vm_compute; reflexivity).
  assert (stitch_lightning_strikes (with_duration 20 two_point_params)
            [[0; 1]; [2; 3]]%nat two_strike_events = Ok [[(0, 1); (2, 3)]]%nat) as H20
    by (vm_compute; reflexivity).
  split; [|split; [exact Habsent|exact H20]].
  intros Hclaim. destruct (Hclaim two_point_params eq_refl) as [_ Hmerge].
  specialize (Hmerge [[0; 1]; [2; 3]]%nat two_strike_events).
  rewrite Habsent, H20 in Hmerge. discriminate.
Qed.

End parameters.

(** ** The helpers of toolbox.py *)

Section zig_zag.
Import toolbox helpers_spec.

Lemma elem_of_py_range lo hi x : x ∈ py_range lo hi ↔ (lo ≤ x < hi)%Z.
Proof.
  unfold py_range. rewrite list_elem_of_fmap. split.
  - intros (k & -> & Hk%elem_of_seq). lia.
  - intros Hx. exists (Z.to_nat (x - lo)). split; [lia|]. apply elem_of_seq. lia.
Qed.

Lemma NoDup_py_range lo hi : NoDup (py_range lo hi).
Proof.
  unfold py_range. apply NoDup_fmap_2; [|apply NoDup_seq].
  intros i j Hij. lia.
Qed.

Lemma length_py_range lo hi : length (py_range lo hi) = Z.to_nat (hi - lo).
Proof. unfold py_range. by rewrite length_fmap, length_seq. Qed.

Lemma elem_of_zig_zag_turn max_value start first_pos d x :
  x ∈ zig_zag_turn max_value start first_pos d
  ↔ (x = start + d ∧ start + d < max_value)%Z ∨ (x = start - d ∧ 0 ≤ start - d)%Z.
Proof.
  unfold zig_zag_turn.
  destruct first_pos; repeat case_decide;
    rewrite ?elem_of_app, ?list_elem_of_singleton, ?elem_of_nil; intuition lia.
Qed.

Lemma zig_zag_turn_sorted max_value start d :
  (1 ≤ d)%Z →
  StronglySorted (zig_zag_before max_value start)
    (zig_zag_turn max_value start (bool_decide (max_value - start - 1 < start)%Z) d).
Proof.
  intros Hd. unfold zig_zag_turn.
  assert (∀ a b, (Z.abs (a - start) = Z.abs (b - start))%Z →
            (if bool_decide (max_value - start - 1 < start)%Z then b < a else a < b)%Z →
            StronglySorted (zig_zag_before max_value start) [a; b]) as Hpair.
  { intros a b Heq Hord. apply SSorted_cons; [apply SSorted_cons; [constructor|constructor]|].
    apply Forall_cons. split; [|constructor]. by right. }
  assert (∀ a, StronglySorted (zig_zag_before max_value start) [a]) as Hone.
  { intros a. apply SSorted_cons; constructor. }
  destruct (bool_decide _) eqn:Hfirst; repeat case_decide; simpl;
    first [apply SSorted_nil | apply Hone | apply Hpair; lia].
Qed.

Lemma zig_zag_turns_sorted max_value start n k :
  (1 ≤ k)%Z →
  StronglySorted (zig_zag_before max_value start)
    (flat_map (zig_zag_turn max_value start (bool_decide (max_value - start - 1 < start)%Z))
       ((λ i, (k + Z.of_nat i)%Z) <$> seq 0 n)).
Proof.
  revert k. induction n as [|n IH]; intros k Hk; [constructor|].
  rewrite <- cons_seq, <- fmap_S_seq. rewrite fmap_cons, <- list_fmap_compose.
  simpl. rewrite Z.add_0_r. apply StronglySorted_app_2.
  - intros a b Ha%elem_of_zig_zag_turn Hb%elem_of_flat_map.
    destruct Hb as (d & Hd & Hb).
    apply list_elem_of_fmap in Hd as (i & -> & _). simpl in Hb.
    apply elem_of_zig_zag_turn in Hb. left. lia.
  - by apply zig_zag_turn_sorted.
  - assert (((λ i, (k + Z.of_nat i)%Z) ∘ S) <$> seq 0 n
            = (λ i, (k + 1 + Z.of_nat i)%Z) <$> seq 0 n) as ->.
    { apply list_fmap_ext. intros i j _. simpl. lia. }
    apply IH. lia.
Qed.

Lemma zig_zag_before_irrefl max_value start a : ¬ zig_zag_before max_value start a a.
Proof. unfold zig_zag_before. case_bool_decide; lia. Qed.

Lemma StronglySorted_irrefl_NoDup {A} (R : relation A) (l : list A) :
  (∀ a, ¬ R a a) → StronglySorted R l → NoDup l.
Proof.
  intros Hirr. induction 1 as [|x l _ IH Hall]; constructor; [|done].
  intros Hin. eapply Forall_forall in Hall; [|exact Hin]. by apply Hirr in Hall.
Qed.

(** The shape of the result on the valid domain. *)
Lemma zig_zag_range_valid max_value start :
  (0 ≤ start < max_value)%Z →
  zig_zag_range max_value start
  = Ok (start :: flat_map (zig_zag_turn max_value start
                             (bool_decide (max_value - start - 1 < start)%Z))
                   (py_range 1 (Z.max (max_value - start - 1) start + 1))).
Proof.
  intros Hs. unfold zig_zag_range.
  case_decide; [lia|]. case_decide; [lia|]. reflexivity.
Qed.

Lemma zig_zag_range_sorted max_value start l :
  zig_zag_range max_value start = Ok l →
  StronglySorted (zig_zag_before max_value start) l.
Proof.
  unfold zig_zag_range. case_decide; [intros [= <-]; constructor|].
  case_decide; [done|]. intros [= <-]. constructor.
  - apply zig_zag_turns_sorted. lia.
  - apply Forall_forall. intros b Hb%elem_of_flat_map.
    destruct Hb as (d & Hd & Hb).
    apply elem_of_py_range in Hd. apply elem_of_zig_zag_turn in Hb. left. lia.
Qed.

Lemma elem_of_zig_zag_range max_value start l x :
  (0 ≤ start < max_value)%Z →
  zig_zag_range max_value start = Ok l →
  x ∈ l ↔ (0 ≤ x < max_value)%Z.
Proof.
  intros Hs. rewrite zig_zag_range_valid by done. intros [= <-].
  rewrite elem_of_cons. split.
  - intros [->|Hx%elem_of_flat_map]; [lia|].
    destruct Hx as (d & Hd & Hx).
    apply elem_of_py_range in Hd. apply elem_of_zig_zag_turn in Hx. lia.
  - intros Hx. destruct (decide (x = start)) as [->|Hne]; [by left|]. right.
    apply elem_of_flat_map. exists (Z.abs (x - start)). split.
    + apply elem_of_py_range. lia.
    + apply elem_of_zig_zag_turn. lia.
Qed.

(** X1.  [zig_zag_range] visits every index once.  For a start inside
    the range, the generator runs to its end without an exception and
    yields each of [0 .. max_value - 1] exactly once. *)
Theorem zig_zag_range_permutation max_value start :
  (0 ≤ start < max_value)%Z →
  ∃ l, zig_zag_range max_value start = Ok l
       ∧ l ≡ₚ py_range 0 max_value
       ∧ length l = Z.to_nat max_value.
Proof.
  intros Hs. destruct (zig_zag_range max_value start) as [l|e] eqn:Hrun.
  - exists l. split; [done|].
    assert (l ≡ₚ py_range 0 max_value) as Hperm.
    { apply NoDup_Permutation.
      + apply (StronglySorted_irrefl_NoDup (zig_zag_before max_value start));
          [apply zig_zag_before_irrefl|by apply zig_zag_range_sorted].
      + apply NoDup_py_range.
      + intros x. rewrite elem_of_py_range.
        by apply (elem_of_zig_zag_range max_value start). }
    split; [done|]. rewrite Hperm, length_py_range. f_equal. lia.
  - rewrite zig_zag_range_valid in Hrun by done. discriminate.
Qed.

Lemma zig_zag_range_permutation_witness :
  (0 ≤ 5 < 10)%Z
  ∧ zig_zag_range 10 5 = Ok [5; 6; 4; 7; 3; 8; 2; 9; 1; 0]%Z
  ∧ [5; 6; 4; 7; 3; 8; 2; 9; 1; 0]%Z ≡ₚ py_range 0 10.
Proof.
  assert (0 ≤ 5 < 10)%Z as Hs by lia.
  split; [exact Hs|]. split; [vm_compute; reflexivity|].
  destruct (zig_zag_range_permutation 10 5 Hs) as (l & Hrun & Hperm & _).
  vm_compute in Hrun. injection Hrun as <-. exact Hperm.
Defined.

(** X2.  [zig_zag_range] moves outwards.  The first value is [start];
    the values come in order of their distance from [start]; of the two
    indices at the same distance the upper one comes first exactly when
    fewer steps are possible upwards than downwards
    ([max_value - start - 1 < start]). *)
Theorem zig_zag_range_outward max_value start l :
  zig_zag_range max_value start = Ok l →
  (max_value ≠ 0%Z → head l = Some start)
  ∧ StronglySorted (zig_zag_before max_value start) l
  ∧ ∀ i j a b, (i < j)%nat → l !! i = Some a → l !! j = Some b →
      (Z.abs (a - start) ≤ Z.abs (b - start))%Z.
Proof.
  intros Hrun. pose proof (zig_zag_range_sorted _ _ _ Hrun) as Hsorted.
  split; [|split; [done|]].
  - intros Hne. unfold zig_zag_range in Hrun.
    case_decide; [done|]. case_decide; [done|]. by injection Hrun as <-.
  - intros i j a b Hij Hi Hj.
    pose proof (StronglySorted_lookup _ _ _ _ _ _ Hsorted Hij Hi Hj) as [Hlt|[Heq _]]; lia.
Qed.

Lemma zig_zag_range_outward_witness :
  zig_zag_range 10 2 = Ok [2; 1; 3; 0; 4; 5; 6; 7; 8; 9]%Z
  ∧ head [2; 1; 3; 0; 4; 5; 6; 7; 8; 9]%Z = Some 2%Z
  ∧ StronglySorted (zig_zag_before 10 2) [2; 1; 3; 0; 4; 5; 6; 7; 8; 9]%Z.
Proof.
  assert (zig_zag_range 10 2 = Ok [2; 1; 3; 0; 4; 5; 6; 7; 8; 9]%Z) as Hrun
    by (vm_compute; reflexivity).
  split; [exact Hrun|].
  destruct (zig_zag_range_outward 10 2 _ Hrun) as (Hhead & Hsorted & _).
  split; [apply Hhead; lia|exact Hsorted].
Defined.

(** X3.  The domain of [zig_zag_range].  It raises ValueError exactly
    when [max_value] is not 0 and [start] is outside [0 .. max_value - 1]
    (so for every negative [max_value]); it never raises anything else;
    it yields nothing exactly when [max_value] is 0, whatever [start]
    is. *)
Theorem zig_zag_range_domain max_value start :
  (zig_zag_range max_value start = Raise ValueError
   ↔ max_value ≠ 0%Z ∧ ¬ (0 ≤ start < max_value)%Z)
  ∧ (∀ e, zig_zag_range max_value start = Raise e → e = ValueError)
  ∧ (zig_zag_range max_value start = Ok [] ↔ max_value = 0%Z)
  ∧ ((max_value < 0)%Z → zig_zag_range max_value start = Raise ValueError).
Proof.
  unfold zig_zag_range. repeat split; repeat case_decide; try done; try lia;
    try (intros; congruence).
Qed.

End zig_zag.

Section numeric_helpers.
Import toolbox.

Lemma py_int_floor (v : Q) : (0 <= v)%Q → py_int v = Qfloor v.
Proof.
  intros Hv. unfold py_int, Qfloor. destruct v as [n d]. simpl.
  apply Z.quot_div_nonneg; [|lia].
  unfold Qle in Hv. simpl in Hv. lia.
Qed.

(** X4.  [cpu_pct_to_cores].  With [os.cpu_count()] equal to [n] and a
    fraction in [0, 1], the result is at least 1, at most [max(1, n)],
    and it is the integer part of [pct * n] whenever that product is at
    least 1.  A fraction outside [0, 1] raises TypeError (the statement
    raises a string), as does a missing core count; no other exception
    occurs. *)
Theorem cpu_pct_to_cores_range (n : Z) (pct : Q) :
  (0 <= pct <= 1)%Q →
  ∃ k, cpu_pct_to_cores (Some n) pct = Ok k
       ∧ (1 ≤ k ≤ Z.max 1 n)%Z
       ∧ ((1 <= pct * inject_Z n)%Q →
          (inject_Z k <= pct * inject_Z n)%Q ∧ (pct * inject_Z n < inject_Z (k + 1))%Q)
       ∧ ((pct * inject_Z n < 1)%Q → k = 1%Z)
       ∧ (∀ pct', (pct' < 0 ∨ 1 < pct')%Q →
            cpu_pct_to_cores (Some n) pct' = Raise TypeError)
       ∧ cpu_pct_to_cores None pct = Raise TypeError.
Proof.
  intros [Hlo Hhi]. unfold cpu_pct_to_cores.
  destruct (decide (pct < 0 ∨ 1 < pct)%Q) as [[H|H]|_]; [lra..|].
  eexists. split; [reflexivity|].
  assert (∀ pct', (pct' < 0 ∨ 1 < pct')%Q
            → (if decide (pct' < 0 ∨ 1 < pct')%Q then @Raise Z TypeError
               else Ok (if decide (pct' * inject_Z n < 1)%Q then 1%Z
                        else py_int (pct' * inject_Z n))) = Raise TypeError) as Hout.
  { intros pct' Hout. by case_decide. }
  destruct (decide (pct * inject_Z n < 1)%Q) as [Hsmall|Hbig].
  - split; [lia|]. split; [lra|]. split; [done|]. split; [exact Hout|done].
  - assert (1 <= pct * inject_Z n)%Q as Hge by lra.
    rewrite py_int_floor by lra.
    pose proof (Qfloor_le (pct * inject_Z n)) as Hfl.
    pose proof (Qlt_floor (pct * inject_Z n)) as Hfu.
    assert (1 ≤ Qfloor (pct * inject_Z n))%Z as H1.
    { change 1%Z with (Qfloor 1). by apply Qfloor_resp_le. }
    assert (Qfloor (pct * inject_Z n) ≤ n)%Z as Hn.
    { assert (0 <= inject_Z n)%Q as Hn0.
      { destruct (Qlt_le_dec (inject_Z n) 0) as [Hneg|]; [|done].
        assert (pct * inject_Z n <= 0)%Q by nra. lra. }
      transitivity (Qfloor (inject_Z n)); [|by rewrite Qfloor_Z].
      apply Qfloor_resp_le. nra. }
    split; [lia|]. split; [done|]. split; [lra|]. split; [exact Hout|done].
Qed.

Lemma cpu_pct_to_cores_range_witness :
  (0 <= 1 # 4 <= 1)%Q ∧ cpu_pct_to_cores (Some 8%Z) (1 # 4) = Ok 2%Z.
Proof.
  assert (0 <= 1 # 4 <= 1)%Q as Hpct by (split; vm_compute; discriminate).
  split; [exact Hpct|].
  destruct (cpu_pct_to_cores_range 8 (1 # 4) Hpct) as (k & Hrun & _).
  vm_compute in Hrun. vm_compute. reflexivity.
Defined.

(** X5.  [lerp], in exact arithmetic.  [t = 0] gives [start], [t = 1]
    gives [end]; the value moves from [start] by the fraction [t] of the
    way to [end], so for [t] in [0, 1] it lies between the two, and
    outside [0, 1] it extrapolates beyond them. *)
Theorem lerp_between (start end_ t : Q) :
  (0 <= t <= 1)%Q →
  (Qmin start end_ <= lerp start end_ t <= Qmax start end_)%Q
  ∧ (lerp start end_ 0 == start)%Q
  ∧ (lerp start end_ 1 == end_)%Q
  ∧ (lerp start end_ t == start + t * (end_ - start))%Q
  ∧ (∀ t', (1 < t')%Q → (start < end_)%Q → (end_ < lerp start end_ t')%Q)
  ∧ (∀ t', (t' < 0)%Q → (start < end_)%Q → (lerp start end_ t' < start)%Q).
Proof.
  intros [Hlo Hhi]. unfold lerp.
  pose proof (Q.le_min_l start end_) as Hml. pose proof (Q.le_min_r start end_) as Hmr.
  pose proof (Q.le_max_l start end_) as HMl. pose proof (Q.le_max_r start end_) as HMr.
  revert Hml Hmr HMl HMr. generalize (Qmin start end_) (Qmax start end_).
  intros lo hi Hml Hmr HMl HMr.
  assert (∀ a b, 0 <= a → 0 <= b → 0 <= a * b)%Q as Hpos
    by (intros; by apply Qmult_le_0_compat).
  repeat split; try ring.
  - pose proof (Hpos (1 - t) (start - lo))%Q. pose proof (Hpos t (end_ - lo))%Q. lra.
  - pose proof (Hpos (1 - t) (hi - start))%Q. pose proof (Hpos t (hi - end_))%Q. lra.
  - intros t' Ht' Hlt. pose proof (Hpos (t' - 1) (end_ - start))%Q.
    assert (0 < (t' - 1) * (end_ - start))%Q by (apply Qmult_lt_0_compat; lra). lra.
  - intros t' Ht' Hlt.
    assert (0 < (0 - t') * (end_ - start))%Q by (apply Qmult_lt_0_compat; lra). lra.
Qed.

Lemma lerp_between_witness :
  (0 <= 1 # 2 <= 1)%Q ∧ (lerp 10 20 (1 # 2) == 15)%Q.
Proof.
  assert (0 <= 1 # 2 <= 1)%Q as Ht by (split; vm_compute; discriminate).
  split; [exact Ht|].
  destruct (lerp_between 10 20 (1 # 2) Ht) as (_ & _ & _ & -> & _).
  vm_compute. reflexivity.
Defined.

End numeric_helpers.

Section hashing.
Import toolbox helpers_spec.
Variable sha256_hexdigest : string → string.
Local Arguments String.append !_ _ / : simpl nomatch.

Lemma string_append_assoc (a b c : string) :
  ((a +:+ b) +:+ c = a +:+ b +:+ c)%string.
Proof. induction a as [|x a IH]; simpl; [done|]. by rewrite IH. Qed.

Lemma NUL_free_app_inj (x y r1 r2 : string) :
  NUL_free x → NUL_free y →
  (x +:+ NUL +:+ r1 = y +:+ NUL +:+ r2)%string → x = y ∧ r1 = r2.
Proof.
  unfold NUL. revert y. induction x as [|a x IH]; intros [|b y] Hx Hy; simpl.
  - by intros [= <-].
  - intros [= Hb _]. destruct Hy as [Hy _]. by destruct Hy.
  - intros [= Ha _]. destruct Hx as [Hx _]. by destruct Hx.
  - intros [= <- Hrest]. destruct Hx as [_ Hx], Hy as [_ Hy].
    destruct (IH y Hx Hy Hrest) as [-> ->]. done.
Qed.

Lemma NUL_free_not_app (x y r : string) :
  NUL_free x → x ≠ (y +:+ NUL +:+ r)%string.
Proof.
  unfold NUL. revert y. induction x as [|a x IH]; intros [|b y] Hx; simpl; try done.
  - intros [= -> _]. by destruct Hx as [Hx _].
  - intros [= <- Hrest]. destruct Hx as [_ Hx]. by apply (IH y).
Qed.

Lemma joined_cons (s : string) (rest : list string) :
  rest ≠ [] → joined (s :: rest) = (s +:+ NUL +:+ joined rest)%string.
Proof. unfold joined. destruct rest; [done|reflexivity]. Qed.

Lemma joined_injective (l1 l2 : list string) :
  l1 ≠ [] → l2 ≠ [] → Forall NUL_free l1 → Forall NUL_free l2 →
  joined l1 = joined l2 → l1 = l2.
Proof.
  revert l2. induction l1 as [|x l1 IH]; intros l2 Hne1 Hne2 Hf1 Hf2; [done|].
  destruct l2 as [|y l2]; [done|].
  apply Forall_cons in Hf1 as [Hx Hf1]. apply Forall_cons in Hf2 as [Hy Hf2].
  destruct l1 as [|x' l1], l2 as [|y' l2].
  - unfold joined. simpl. by intros ->.
  - rewrite (joined_cons y) by done. unfold joined at 1. simpl.
    intros Heq. by apply NUL_free_not_app in Heq.
  - rewrite (joined_cons x) by done. unfold joined at 2. simpl.
    intros Heq. symmetry in Heq. by apply NUL_free_not_app in Heq.
  - rewrite (joined_cons x), (joined_cons y) by done. intros Heq.
    apply NUL_free_app_inj in Heq as [-> Hrest]; [|done..].
    f_equal. by apply IH.
Qed.

(** X6.  The delimiter of [hash_string_list] keeps the boundaries.  For
    non-empty lists of strings that hold no NUL character, the string
    that is hashed determines the list: two such lists with the same
    joined string are equal, so two different lists get the same hash
    only if SHA-256 collides on their joined strings. *)
Theorem hash_string_list_boundaries (l1 l2 : list string) :
  l1 ≠ [] → l2 ≠ [] → Forall NUL_free l1 → Forall NUL_free l2 →
  (joined l1 = joined l2 → l1 = l2)
  ∧ (hash_string_list sha256_hexdigest l1 = hash_string_list sha256_hexdigest l2 →
     l1 ≠ l2 →
     joined l1 ≠ joined l2
     ∧ sha256_hexdigest (joined l1) = sha256_hexdigest (joined l2)).
Proof.
  intros Hne1 Hne2 Hf1 Hf2. split; [by apply joined_injective|].
  intros Hhash Hdiff. split; [|exact Hhash].
  intros Heq. by apply Hdiff, joined_injective.
Qed.

(** X7.  Where [hash_string_list] does not separate lists, whatever the
    digest: the empty list and the list of one empty string are hashed
    alike, and a string that holds a NUL is hashed like the two strings
    on either side of it. *)
Theorem hash_string_list_collisions (s t : string) (rest : list string) :
  hash_string_list sha256_hexdigest [] = hash_string_list sha256_hexdigest [EmptyString]
  ∧ hash_string_list sha256_hexdigest ((s +:+ NUL +:+ t)%string :: rest)
    = hash_string_list sha256_hexdigest (s :: t :: rest)
  ∧ ([] : list string) ≠ [EmptyString]
  ∧ (s +:+ NUL +:+ t)%string :: rest ≠ s :: t :: rest.
Proof.
  split; [reflexivity|]. split; [|split; [done|]].
  - unfold hash_string_list. f_equal. unfold joined.
    destruct rest as [|r rest]; simpl.
    + reflexivity.
    + by rewrite !string_append_assoc.
  - intros Heq. apply (f_equal length) in Heq. simpl in Heq. lia.
Qed.

End hashing.

Lemma hash_string_list_boundaries_witness :
  Forall helpers_spec.NUL_free ["hello"; "world"]%string
  ∧ toolbox.joined ["hello"; "world"]%string = toolbox.joined ["hello"; "world"]%string
  ∧ ["hello"; "world"]%string = ["hello"; "world"]%string.
Proof.
  assert (Forall helpers_spec.NUL_free ["hello"; "world"]%string) as Hfree
    by (repeat constructor; discriminate).
  split; [exact Hfree|].
  split; [reflexivity|].
  exact (proj1 (hash_string_list_boundaries id ["hello"; "world"]%string
                  ["hello"; "world"]%string ltac:(discriminate) ltac:(discriminate)
                  Hfree Hfree) eq_refl).
Defined.

(** ** The result cache *)

Section result_cache_proofs.
Import lightning_bucketer cache_spec.
Variable key_digest : nat → option Q → option Q → Params → string.

Local Abbreviation key := (_compute_cache_key key_digest).
Local Abbreviation lookup_cache := (_get_result_cache key_digest).
Local Abbreviation save := (save_result_cache key_digest).
Local Abbreviation run := (bucket_dataframe_lightnings_cached key_digest).

Lemma get_after_save file df params result df' params' :
  key df' params' = key df params →
  lookup_cache (save file df params result) df' params' = Some result.
Proof.
  intros Hkey. unfold _get_result_cache, save_result_cache. rewrite Hkey.
  apply lookup_insert_eq.
Qed.

Lemma run_hit MAX_CHUNK_SIZE file df params result :
  lookup_cache file df params = Some result →
  run true MAX_CHUNK_SIZE file df params = (Ok result, file).
Proof. intros Hhit. unfold bucket_dataframe_lightnings_cached. by rewrite Hhit. Qed.

(** X8.  Cache round trip.  Whatever the cache file was (absent,
    unreadable or a dict), after [save_result_cache(df, params, result)]
    the lookup [_get_result_cache(df, params)] returns [result], and
    [bucket_dataframe_lightnings(df, params)] returns it without
    clustering and leaves the file as it is; after [delete_result_cache]
    the lookup misses. *)
Theorem result_cache_round_trip MAX_CHUNK_SIZE file df params result :
  lookup_cache (save file df params result) df params = Some result
  ∧ run true MAX_CHUNK_SIZE (save file df params result) df params
    = (Ok result, save file df params result)
  ∧ bucket_dataframe_lightnings MAX_CHUNK_SIZE
      (lookup_cache (save file df params result) df params) df params
    = Ok result
  ∧ lookup_cache (delete_result_cache (save file df params result)) df params = None.
Proof.
  assert (lookup_cache (save file df params result) df params = Some result) as Hhit
    by (by apply get_after_save).
  split; [exact Hhit|]. split; [by apply run_hit|]. split; [by rewrite Hhit|done].
Qed.

(** X9.  What a save keeps.  [save_result_cache] changes the entry of
    its own key only: the lookup of every other key gives what it gave
    before.  An absent or unreadable file is replaced by a dict with the
    one new entry; saving twice under the same key keeps the later
    result. *)
Theorem save_result_cache_frame file df params result df' params' :
  key df' params' ≠ key df params →
  lookup_cache (save file df params result) df' params' = lookup_cache file df' params'
  ∧ (file = Absent ∨ file = Unreadable →
     save file df params result = Pickled {[ key df params := result ]})
  ∧ (∀ result', save (save file df params result') df params result
                = save file df params result).
Proof.
  intros Hkey. split; [|split].
  - unfold _get_result_cache, save_result_cache.
    destruct file; by rewrite lookup_insert_ne.
  - by intros [-> | ->].
  - intros result'. unfold save_result_cache. f_equal.
    destruct file; by rewrite insert_insert_eq.
Qed.

(** X10.  What the cache key ignores.  The key is computed from the row
    count, the earliest and the latest time, and the parameters: two
    tables that agree on these get the same key, wherever their events
    lie.  A result saved for one is what the lookup, and
    [bucket_dataframe_lightnings], return for the other. *)
Theorem cache_key_ignores_events MAX_CHUNK_SIZE file df1 df2 params result :
  length df1 = length df2 →
  series_min (values time_unix df1) = series_min (values time_unix df2) →
  series_max (values time_unix df1) = series_max (values time_unix df2) →
  key df1 params = key df2 params
  ∧ lookup_cache (save file df1 params result) df2 params = Some result
  ∧ run true MAX_CHUNK_SIZE (save file df1 params result) df2 params
    = (Ok result, save file df1 params result).
Proof.
  intros Hlen Hmin Hmax.
  assert (key df1 params = key df2 params) as Hkey.
  { unfold _compute_cache_key. by rewrite Hlen, Hmin, Hmax. }
  split; [exact Hkey|].
  assert (lookup_cache (save file df1 params result) df2 params = Some result) as Hhit
    by (by apply get_after_save).
  split; [exact Hhit|by apply run_hit].
Qed.

Lemma Qmin_cases (a b : Q) : Qmin a b = a ∨ Qmin a b = b.
Proof. unfold Qmin, GenericMinMax.gmin. destruct (a ?= b)%Q; auto. Qed.

Lemma Qmax_cases (a b : Q) : Qmax a b = a ∨ Qmax a b = b.
Proof. unfold Qmax, GenericMinMax.gmax. destruct (a ?= b)%Q; auto. Qed.

Lemma foldl_Qmin_spec (l : list Q) (v : Q) :
  foldl Qmin v l ∈ v :: l ∧ Forall (λ u, foldl Qmin v l <= u)%Q (v :: l).
Proof.
  revert v. induction l as [|w l IH]; intros v; simpl.
  - split; [left|]. repeat constructor. lra.
  - destruct (IH (Qmin v w)) as [Hin Hle]. split.
    + apply elem_of_cons in Hin as [->|Hin].
      * destruct (Qmin_cases v w) as [-> | ->]; [left|right; left].
      * by do 2 right.
    + apply Forall_cons in Hle as [Hm Hle].
      pose proof (Q.le_min_l v w). pose proof (Q.le_min_r v w).
      repeat constructor; [lra..|done].
Qed.

Lemma foldl_Qmax_spec (l : list Q) (v : Q) :
  foldl Qmax v l ∈ v :: l ∧ Forall (λ u, u <= foldl Qmax v l)%Q (v :: l).
Proof.
  revert v. induction l as [|w l IH]; intros v; simpl.
  - split; [left|]. repeat constructor. lra.
  - destruct (IH (Qmax v w)) as [Hin Hle]. split.
    + apply elem_of_cons in Hin as [->|Hin].
      * destruct (Qmax_cases v w) as [-> | ->]; [left|right; left].
      * by do 2 right.
    + apply Forall_cons in Hle as [Hm Hle].
      pose proof (Q.le_max_l v w). pose proof (Q.le_max_r v w).
      repeat constructor; [lra..|done].
Qed.

Lemma canonical_eq (a b : Q) : Qred a = a → Qred b = b → (a == b)%Q → a = b.
Proof. intros Ha Hb Heq. rewrite <- Ha, <- Hb. by apply Qred_complete. Qed.

Lemma series_min_perm (l1 l2 : list Q) :
  l1 ≡ₚ l2 → Forall (λ t, Qred t = t) l1 → series_min l1 = series_min l2.
Proof.
  intros Hperm Hcan. destruct l1 as [|v1 l1], l2 as [|v2 l2]; simpl.
  - done.
  - by apply Permutation_nil_l in Hperm.
  - by apply Permutation_nil_r in Hperm.
  - f_equal.
    destruct (foldl_Qmin_spec l1 v1) as [Hin1 Hle1].
    destruct (foldl_Qmin_spec l2 v2) as [Hin2 Hle2].
    assert (Forall (λ t, Qred t = t) (v2 :: l2)) as Hcan2 by (by rewrite <- Hperm).
    apply canonical_eq.
    + by eapply Forall_forall in Hcan.
    + by eapply Forall_forall in Hcan2.
    + apply Qle_antisym.
      * rewrite <- Hperm in Hin2. by eapply Forall_forall in Hle1.
      * rewrite Hperm in Hin1. by eapply Forall_forall in Hle2.
Qed.

Lemma series_max_perm (l1 l2 : list Q) :
  l1 ≡ₚ l2 → Forall (λ t, Qred t = t) l1 → series_max l1 = series_max l2.
Proof.
  intros Hperm Hcan. destruct l1 as [|v1 l1], l2 as [|v2 l2]; simpl.
  - done.
  - by apply Permutation_nil_l in Hperm.
  - by apply Permutation_nil_r in Hperm.
  - f_equal.
    destruct (foldl_Qmax_spec l1 v1) as [Hin1 Hle1].
    destruct (foldl_Qmax_spec l2 v2) as [Hin2 Hle2].
    assert (Forall (λ t, Qred t = t) (v2 :: l2)) as Hcan2 by (by rewrite <- Hperm).
    apply canonical_eq.
    + by eapply Forall_forall in Hcan.
    + by eapply Forall_forall in Hcan2.
    + apply Qle_antisym.
      * rewrite Hperm in Hin1. by eapply Forall_forall in Hle2.
      * rewrite <- Hperm in Hin2. by eapply Forall_forall in Hle1.
Qed.

Lemma sort_values_perm df : sort_values df ≡ₚ df.
Proof.
  unfold sort_values. rewrite sort_by_key_perm, <- list_fmap_compose.
  by rewrite list_fmap_id.
Qed.

Lemma key_perm df df' params :
  canonical_times df → df' ≡ₚ df → key df' params = key df params.
Proof.
  intros Hcan Hperm. unfold _compute_cache_key.
  assert (values time_unix df' ≡ₚ values time_unix df) as Hvals
    by (unfold values; by rewrite Hperm).
  assert (Forall (λ t, Qred t = t) (values time_unix df')) as Hcan'.
  { unfold values. rewrite Hperm. by apply Forall_fmap. }
  rewrite (series_min_perm _ _ Hvals Hcan'), (series_max_perm _ _ Hvals Hcan').
  f_equal. by apply Permutation_length.
Qed.

(** X11.  The cache key does not depend on the row order.  A table and
    any reordering of it, in particular the table sorted in place by
    [_bucket_dataframe_lightnings], have the same key: an entry saved
    under the sorted table is found by the lookup that
    [bucket_dataframe_lightnings] makes with the unsorted one. *)
Theorem cache_key_row_order file df params result :
  canonical_times df →
  key (sort_values df) params = key df params
  ∧ (∀ df', df' ≡ₚ df → key df' params = key df params)
  ∧ lookup_cache (save file (sort_values df) params result) df params = Some result.
Proof.
  intros Hcan.
  assert (key (sort_values df) params = key df params) as Hkey
    by (apply key_perm; [done|apply sort_values_perm]).
  split; [exact Hkey|]. split; [intros df'; by apply key_perm|].
  by apply get_after_save.
Qed.

(** The cluster engine on the empty table. *)
Lemma raw_groups_of_empty MAX_CHUNK_SIZE params :
  raw_groups_of MAX_CHUNK_SIZE [] params
  = if decide (1 < get (min_lightning_points params) 300)%Z then Ok ([], [])
    else Raise IndexError.
Proof.
  unfold raw_groups_of. rewrite bucket_unchunked. simpl.
  unfold _group_process. simpl. unfold process_group. simpl.
  change (Z.of_nat 1) with 1%Z.
  by destruct (decide (1 < get (min_lightning_points params) 300)%Z).
Qed.

(** X12.  Without a cache hit [bucket_dataframe_lightnings] does not
    return.  When the cache is off or the lookup misses, the call raises.
    With thresholds that the cluster engine can square it raises TypeError
    from the call of [stitch_lightning_strikes] with [params] as a third
    positional argument, for every table with at least one event, and
    IndexError for the empty table when [min_lightning_points] is at most
    1.  With a threshold too large to square the only other outcome is the
    OverflowError of the cluster engine, on a table with at least one
    event.  A result is returned only when it was in the cache file, and no
    path writes the file. *)
Theorem bucket_dataframe_lightnings_needs_cache USE_CACHE MAX_CHUNK_SIZE file df params :
  let miss := USE_CACHE = false ∨ lookup_cache file df params = None in
  let squarable_thresholds :=
    squarable (get (max_lightning_dist params) 50000%Q)
    ∧ squarable (get (min_lightning_speed params) 0%Q)
    ∧ squarable (get (max_lightning_speed params) (299792458 # 1000)%Q) in
  let unless_overflow :=
    Raise (if decide (df = [] ∧ (get (min_lightning_points params) 300 ≤ 1)%Z)
           then IndexError else TypeError) in
  (run USE_CACHE MAX_CHUNK_SIZE file df params).2 = file
  ∧ (∀ result, (run USE_CACHE MAX_CHUNK_SIZE file df params).1 = Ok result →
       USE_CACHE = true ∧ lookup_cache file df params = Some result)
  ∧ (miss → squarable_thresholds →
     (run USE_CACHE MAX_CHUNK_SIZE file df params).1 = unless_overflow)
  ∧ (miss →
     (run USE_CACHE MAX_CHUNK_SIZE file df params).1 = unless_overflow
     ∨ (df ≠ [] ∧ ¬ squarable_thresholds
        ∧ (run USE_CACHE MAX_CHUNK_SIZE file df params).1 = Raise OverflowError))
  ∧ (run USE_CACHE MAX_CHUNK_SIZE file df params).1
    = bucket_dataframe_lightnings MAX_CHUNK_SIZE
        (if USE_CACHE then lookup_cache file df params else None) df params.
Proof.
  intros miss squarable_thresholds unless_overflow.
  assert (∀ cached, cached = None →
            bucket_dataframe_lightnings MAX_CHUNK_SIZE cached df params
              = unless_overflow
            ∨ (df ≠ [] ∧ ¬ squarable_thresholds
               ∧ bucket_dataframe_lightnings MAX_CHUNK_SIZE cached df params
                 = Raise OverflowError)) as Hmiss.
  { intros cached ->. unfold bucket_dataframe_lightnings, unless_overflow.
    destruct df as [|r df].
    - left. rewrite raw_groups_of_empty.
      destruct (decide (1 < get (min_lightning_points params) 300)%Z) as [Hbig|Hsmall];
        simpl.
      + case_decide as Hc; [destruct Hc; lia|done].
      + case_decide as Hc; [done|]. destruct Hc. split; [done|lia].
    - unfold raw_groups_of.
      destruct (bucket_outcome_cases MAX_CHUNK_SIZE (r :: df)
                  (get (max_lightning_time_threshold params) 1%Q)
                  (get (max_lightning_duration params) 20%Q)
                  (get (max_lightning_dist params) 50000%Q)
                  (get (max_lightning_speed params) (299792458 # 1000)%Q)
                  (get (min_lightning_speed params) 0%Q)
                  (get (min_lightning_points params) 300%Z))
        as [[strikes ->]|[-> Hno]]; [done| |].
      + left.
        destruct (decide (r :: df = [] ∧ (get (min_lightning_points params) 300 ≤ 1)%Z))
          as [[Hc _]|_]; [done|reflexivity].
      + right. split; [done|]. split; [|done]. unfold squarable_thresholds. tauto. }
  assert (∀ cached, cached = None → squarable_thresholds →
            bucket_dataframe_lightnings MAX_CHUNK_SIZE cached df params
            = unless_overflow) as Hplain.
  { intros cached Hcached Hsq.
    destruct (Hmiss cached Hcached) as [Hrun|(_ & Hno & _)]; [done|]. by destruct Hno. }
  assert ((run USE_CACHE MAX_CHUNK_SIZE file df params).1
          = bucket_dataframe_lightnings MAX_CHUNK_SIZE
              (if USE_CACHE then lookup_cache file df params else None) df params
          ∧ (run USE_CACHE MAX_CHUNK_SIZE file df params).2 = file) as [Hfst Hsnd].
  { unfold bucket_dataframe_lightnings_cached, bucket_dataframe_lightnings.
    destruct (if USE_CACHE then lookup_cache file df params else None); [done|].
    destruct (raw_groups_of MAX_CHUNK_SIZE df params) as [[df' raw]|e]; done. }
  assert (miss → (if USE_CACHE then lookup_cache file df params else None) = None)
    as Hnone.
  { intros [-> | Hnone]; [done|]. rewrite Hnone. by destruct USE_CACHE. }
  split; [exact Hsnd|]. split; [|split; [|split; [|exact Hfst]]].
  - intros result. rewrite Hfst.
    destruct USE_CACHE; [destruct (lookup_cache file df params) eqn:Hhit|].
    + simpl. by intros [= ->].
    + intros Hok. destruct (Hmiss None eq_refl) as [Hrun|(_ & _ & Hrun)];
        rewrite Hrun in Hok; discriminate.
    + intros Hok. destruct (Hmiss None eq_refl) as [Hrun|(_ & _ & Hrun)];
        rewrite Hrun in Hok; discriminate.
  - intros Hoff Hsq. rewrite Hfst. by apply Hplain; [apply Hnone|].
  - intros Hoff. rewrite Hfst. by apply Hmiss, Hnone.
Qed.

End result_cache_proofs.

Lemma save_result_cache_frame_witness :
  lightning_bucketer._compute_cache_key cache_spec.rows_digest [] no_params
  ≠ lightning_bucketer._compute_cache_key cache_spec.rows_digest
      examples.fast_events no_params
  ∧ lightning_bucketer._get_result_cache cache_spec.rows_digest
      (lightning_bucketer.save_result_cache cache_spec.rows_digest
         lightning_bucketer.Absent examples.fast_events no_params ([], []))
      [] no_params
    = None.
Proof.
  assert (lightning_bucketer._compute_cache_key cache_spec.rows_digest [] no_params
          ≠ lightning_bucketer._compute_cache_key cache_spec.rows_digest
              examples.fast_events no_params) as Hkey
    by (vm_compute; discriminate).
  split; [exact Hkey|].
  exact (proj1 (save_result_cache_frame cache_spec.rows_digest
                  lightning_bucketer.Absent examples.fast_events no_params ([], [])
                  [] no_params Hkey)).
Defined.

Lemma cache_key_row_order_witness :
  cache_spec.canonical_times cache_spec.unsorted_events
  ∧ sort_values cache_spec.unsorted_events ≠ cache_spec.unsorted_events
  ∧ lightning_bucketer._get_result_cache cache_spec.rows_digest
      (lightning_bucketer.save_result_cache cache_spec.rows_digest
         lightning_bucketer.Unreadable (sort_values cache_spec.unsorted_events)
         no_params ([], []))
      cache_spec.unsorted_events no_params
    = Some ([], []).
Proof.
  assert (cache_spec.canonical_times cache_spec.unsorted_events) as Hcan
    by (repeat constructor).
  split; [exact Hcan|]. split; [vm_compute; discriminate|].
  exact (proj2 (proj2 (cache_key_row_order cache_spec.rows_digest
                  lightning_bucketer.Unreadable cache_spec.unsorted_events
                  no_params ([], []) Hcan))).
Defined.

Lemma bucket_dataframe_lightnings_needs_cache_witness :
  (squarable 50000 ∧ squarable 0 ∧ squarable (299792458 # 1000))
  ∧ (lightning_bucketer.bucket_dataframe_lightnings_cached cache_spec.rows_digest
       true 50000 lightning_bucketer.Absent examples.fast_events
       examples.two_point_params).1
    = Raise TypeError.
Proof.
  assert (squarable 50000 ∧ squarable 0 ∧ squarable (299792458 # 1000)) as Hsq
    by (repeat split; vm_compute; reflexivity).
  split; [exact Hsq|].
  exact (proj1 (proj2 (proj2 (bucket_dataframe_lightnings_needs_cache
           cache_spec.rows_digest true 50000 lightning_bucketer.Absent
           examples.fast_events examples.two_point_params))) (or_intror eq_refl) Hsq).
Defined.

Lemma cache_key_ignores_events_witness :
  examples.fast_events ≠ cache_spec.moved_events
  ∧ lightning_bucketer._get_result_cache cache_spec.rows_digest
      (lightning_bucketer.save_result_cache cache_spec.rows_digest
         lightning_bucketer.Absent examples.fast_events no_params ([[0; 1]%nat], [[(0, 1)%nat]]))
      cache_spec.moved_events no_params
    = Some ([[0; 1]%nat], [[(0, 1)%nat]]).
Proof.
  split; [discriminate|].
  exact (proj1 (proj2 (cache_key_ignores_events cache_spec.rows_digest 50000
                  lightning_bucketer.Absent examples.fast_events cache_spec.moved_events
                  no_params ([[0; 1]%nat], [[(0, 1)%nat]])
                  eq_refl eq_refl eq_refl))).
Defined.

(** ** The strikes of the cluster engine *)

Section engine_arrays.
Import lightning_bucketer engine_spec.

Lemma bool_index_fmap {A B} (f : A → B) (h : A → bool) (l : list A) :
  bool_index (f <$> l) (h <$> l) = f <$> filter (λ a, h a = true) l.
Proof.
  unfold bool_index. induction l as [|a l IH]; [done|].
  csimpl. rewrite !filter_cons. simpl.
  destruct (h a); simpl; [csimpl; by f_equal|done].
Qed.

Lemma np_any_fmap {A} (g : A → bool) (l : list A) :
  np_any (g <$> l) = true ↔ ∃ a, a ∈ l ∧ g a = true.
Proof.
  unfold np_any. rewrite existsb_exists. split.
  - intros (b & Hb%list_elem_of_In & Hid).
    apply list_elem_of_fmap in Hb as (a & -> & Ha). by exists a.
  - intros (a & Ha & Hg). exists (g a). split; [|done].
    apply list_elem_of_In, list_elem_of_fmap. by exists a.
Qed.

Lemma np_le_scalar_fmap {A} (f : A → Q) (l : list A) c :
  np_le_scalar (f <$> l) c = (λ a, bool_decide (f a <= c)%Q) <$> l.
Proof. unfold np_le_scalar. by rewrite <- list_fmap_compose. Qed.

Lemma np_ge_scalar_fmap {A} (f : A → Q) (l : list A) c :
  np_ge_scalar (f <$> l) c = (λ a, bool_decide (c <= f a)%Q) <$> l.
Proof. unfold np_ge_scalar. by rewrite <- list_fmap_compose. Qed.

Lemma np_sub_scalar_fmap {A} (f : A → Q) (l : list A) c :
  np_sub_scalar (f <$> l) c = (λ a, f a - c)%Q <$> l.
Proof. unfold np_sub_scalar. by rewrite <- list_fmap_compose. Qed.

Section one_subgroup.
Variables (x_vals y_vals z_vals unix_vals : list Q).
Variables (dur dist thr mins maxs : Q).

Local Abbreviation wf := (sg_wf x_vals y_vals z_vals unix_vals thr dist mins maxs).
Local Abbreviation joins := (attached x_vals y_vals z_vals unix_vals thr dist mins maxs).

Lemma distances_fmap (cand : list nat) c :
  np_add
    (np_add
       (np_mul (np_sub_scalar ((λ i, x_vals !!! i) <$> cand) (x_vals !!! c))
               (np_sub_scalar ((λ i, x_vals !!! i) <$> cand) (x_vals !!! c)))
       (np_mul (np_sub_scalar ((λ i, y_vals !!! i) <$> cand) (y_vals !!! c))
               (np_sub_scalar ((λ i, y_vals !!! i) <$> cand) (y_vals !!! c))))
    (np_mul (np_sub_scalar ((λ i, z_vals !!! i) <$> cand) (z_vals !!! c))
            (np_sub_scalar ((λ i, z_vals !!! i) <$> cand) (z_vals !!! c)))
  = (λ a, distance_sq x_vals y_vals z_vals a c) <$> cand.
Proof.
  rewrite !np_sub_scalar_fmap. unfold np_mul, np_add.
  by rewrite !zip_with_fmap_same.
Qed.

Lemma speeds_fmap (cand : list nat) c :
  np_div ((λ a, distance_sq x_vals y_vals z_vals a c) <$> cand)
    (dt2_floor <$>
       np_mul ((λ i, Qabs (unix_vals !!! c - unix_vals !!! i)) <$> cand)
              ((λ i, Qabs (unix_vals !!! c - unix_vals !!! i)) <$> cand))
  = (λ a, speed_sq x_vals y_vals z_vals unix_vals a c) <$> cand.
Proof.
  unfold np_mul, np_div. rewrite zip_with_fmap_same, <- list_fmap_compose.
  by rewrite zip_with_fmap_same.
Qed.

(** [accepts] in terms of the members of the subgroup, the squared
    thresholds being the squares. *)
Lemma accepts_spec j c sg :
  wf j sg →
  accepts dur (dist * dist) thr (mins * mins) (maxs * maxs)
    (x_vals !!! c) (y_vals !!! c) (z_vals !!! c) (unix_vals !!! c) sg = true
  ↔ joins (sg_indices sg) c ∧ (unix_vals !!! c - first_unix sg <= dur)%Q.
Proof.
  intros (_ & _ & _ & Hx & Hy & Hz & Hu & _). unfold accepts.
  rewrite Hx, Hy, Hz, Hu. set (idx := sg_indices sg).
  assert ((λ u, Qabs (unix_vals !!! c - u)) <$> ((λ i, unix_vals !!! i) <$> idx)
          = (λ i, Qabs (unix_vals !!! c - unix_vals !!! i)) <$> idx) as ->
    by (by rewrite <- list_fmap_compose).
  rewrite np_le_scalar_fmap.
  rewrite !(bool_index_fmap _ (λ i, bool_decide
             (Qabs (unix_vals !!! c - unix_vals !!! i) <= thr)%Q) idx).
  set (cand := filter _ idx).
  rewrite distances_fmap, speeds_fmap.
  rewrite np_ge_scalar_fmap, !np_le_scalar_fmap. unfold np_and.
  rewrite zip_with_fmap_same.
  assert (∀ a, a ∈ cand ↔ a ∈ idx ∧ (gap unix_vals a c <= thr)%Q) as Hcand.
  { intros a. unfold cand. rewrite list_elem_of_filter, bool_decide_eq_true. unfold gap.
    tauto. }
  unfold attached. split.
  - destruct (negb _) eqn:Hany; [done|].
    destruct (np_any (_ <$> cand)) eqn:Hdist; [|done].
    destruct (np_any _) eqn:Hspeed in |- *; [|done].
    intros Hdur%bool_decide_eq_true. split; [|done]. split.
    + apply np_any_fmap in Hdist as (a & Ha & Hle%bool_decide_eq_true).
      apply Hcand in Ha as [Ha Hgap]. by exists a.
    + apply np_any_fmap in Hspeed as (b & Hb & Hs).
      apply andb_true_iff in Hs as [Hlo%bool_decide_eq_true Hhi%bool_decide_eq_true].
      apply Hcand in Hb as [Hb Hgap]. by exists b.
  - intros [[(a & Ha & Hagap & Hadist) (b & Hb & Hbgap & Hlo & Hhi)] Hdur].
    assert (np_any ((λ i, bool_decide (Qabs (unix_vals !!! c - unix_vals !!! i) <= thr)%Q)
                     <$> idx) = true) as ->.
    { apply np_any_fmap. exists a. split; [done|]. by apply bool_decide_eq_true. }
    simpl.
    match goal with |- (if np_any ?m then _ else _) = _ =>
      assert (np_any m = true) as -> end.
    { apply np_any_fmap. exists a. split; [by apply Hcand|].
      by apply bool_decide_eq_true. }
    match goal with |- (if np_any ?m then _ else _) = _ =>
      assert (np_any m = true) as -> end.
    { apply np_any_fmap. exists b. split; [by apply Hcand|].
      apply andb_true_iff. split; by apply bool_decide_eq_true. }
    by apply bool_decide_eq_true.
Qed.

Lemma wf_mono j j' sg : wf j sg → (j ≤ j')%nat → wf j' sg.
Proof.
  intros (Hne & Hsorted & Hlt & Hrest) Hj. split; [done|]. split; [done|].
  split; [|done]. eapply Forall_impl; [exact Hlt|]. intros i Hi. simpl in Hi. lia.
Qed.

Lemma append_event_wf j sg :
  wf j sg → joins (sg_indices sg) j →
  wf (S j) (append_event j (x_vals !!! j) (y_vals !!! j) (z_vals !!! j)
              (unix_vals !!! j) sg).
Proof.
  intros (Hne & Hsorted & Hlt & Hx & Hy & Hz & Hu & Hchain) Hjoin.
  unfold sg_wf, append_event. simpl.
  split; [by destruct (sg_indices sg)|]. split.
  { apply StronglySorted_app_2; [|done|repeat constructor].
    intros a b Ha Hb. apply list_elem_of_singleton in Hb as ->.
    by eapply Forall_forall in Hlt. }
  split.
  { apply Forall_app. split; [|by repeat constructor].
    eapply Forall_impl; [exact Hlt|]. intros i Hi. simpl in Hi. lia. }
  rewrite !fmap_app, Hx, Hy, Hz, Hu. simpl. do 4 (split; [done|]).
  unfold chained. intros k c Hk.
  destruct (decide (S k < length (sg_indices sg))%nat) as [Hin|Hout].
  - rewrite lookup_app_l in Hk by done. rewrite take_app_le by lia. by apply Hchain.
  - assert (S k = length (sg_indices sg)) as Hlen.
    { apply lookup_lt_Some in Hk. rewrite length_app in Hk. simpl in Hk. lia. }
    rewrite Hlen in Hk |- *. rewrite list_lookup_middle in Hk by done.
    injection Hk as <-. by rewrite take_app_length.
Qed.

Lemma singleton_wf j :
  wf (S j) {| sg_indices := [j]; sg_x := [x_vals !!! j]; sg_y := [y_vals !!! j];
              sg_z := [z_vals !!! j]; sg_unix := [unix_vals !!! j] |}.
Proof.
  unfold sg_wf. simpl. split; [done|]. split; [repeat constructor|].
  split; [repeat constructor|]. do 4 (split; [done|]).
  unfold chained. intros k c Hk. by destruct k.
Qed.

Lemma try_attach_wf j sub_groups sub_groups' :
  Forall (wf j) sub_groups →
  try_attach dur (dist * dist) thr (mins * mins) (maxs * maxs) j
    (x_vals !!! j) (y_vals !!! j) (z_vals !!! j) (unix_vals !!! j) sub_groups
    = Some sub_groups' →
  Forall (wf (S j)) sub_groups'
  ∧ concat (sg_indices <$> sub_groups') ≡ₚ j :: concat (sg_indices <$> sub_groups).
Proof.
  revert sub_groups'. induction sub_groups as [|sg rest IH]; intros sub_groups' Hall;
    simpl; [done|].
  apply Forall_cons in Hall as [Hsg Hrest].
  destruct (accepts _ _ _ _ _ _ _ _ _ sg) eqn:Hacc.
  - intros [= <-]. apply (accepts_spec j j sg Hsg) in Hacc as [Hjoin _]. split.
    + constructor; [by apply append_event_wf|].
      eapply Forall_impl; [exact Hrest|]. intros sg' Hsg'.
      apply wf_mono with j; [done|lia].
    + csimpl. rewrite <- app_assoc. simpl.
      by rewrite <- Permutation_middle.
  - destruct (try_attach _ _ _ _ _ _ _ _ _ _ rest) as [rest'|] eqn:Hrec; [|done].
    intros [= <-]. destruct (IH rest' Hrest eq_refl) as [Hwf Hperm]. split.
    + constructor; [|done]. apply wf_mono with j; [done|lia].
    + csimpl. rewrite Hperm. by rewrite <- Permutation_middle.
Qed.

End one_subgroup.

Lemma filter_three_perm {A} (P Q R : A → Prop) `{!∀ x, Decision (P x)}
    `{!∀ x, Decision (Q x)} `{!∀ x, Decision (R x)} (l : list A) :
  (∀ x, (P x ∧ ¬ Q x ∧ ¬ R x) ∨ (¬ P x ∧ Q x ∧ ¬ R x) ∨ (¬ P x ∧ ¬ Q x ∧ R x)) →
  filter P l ++ filter Q l ++ filter R l ≡ₚ l.
Proof.
  intros Hone. induction l as [|x l IH]; [done|].
  rewrite !filter_cons.
  destruct (decide (P x)), (decide (Q x)), (decide (R x));
    try (exfalso; destruct (Hone x) as [?|[?|?]]; tauto).
  - simpl. by rewrite IH.
  - simpl. rewrite <- Permutation_middle. by rewrite IH.
  - rewrite app_assoc, <- Permutation_middle, <- app_assoc. by rewrite IH.
Qed.

Lemma perm_shuffle {A} (e c d l k : list A) (j : A) :
  (e ++ c) ++ (d ++ l) ++ j :: k ≡ₚ (e ++ d ++ c ++ l ++ k) ++ [j].
Proof.
  rewrite <- Permutation_cons_append.
  rewrite (app_assoc (e ++ c)), <- Permutation_middle. apply Permutation_skip.
  rewrite <- !app_assoc. apply Permutation_app_head.
  rewrite (app_assoc c d), (app_assoc d c). apply Permutation_app_tail.
  apply Permutation_app_comm.
Qed.

Section one_group_inv.
Variables (group_indices : list nat) (x_vals y_vals z_vals unix_vals : list Q).
Variables (min_pts : Z) (dur dist thr mins maxs : Q).

Local Abbreviation wf := (sg_wf x_vals y_vals z_vals unix_vals thr dist mins maxs).
Local Abbreviation inv := (group_inv x_vals y_vals z_vals unix_vals thr dist mins maxs
  min_pts group_indices).
Local Abbreviation step := (event_step min_pts dur dist thr mins maxs group_indices
  x_vals y_vals z_vals unix_vals).
Local Abbreviation big := (λ sg : SubGroup,
  (min_pts ≤ Z.of_nat (length (sg_indices sg)))%Z).

Lemma event_step_group_inv j st st' :
  step st j = Ok st' → inv j st → inv (S j) st'.
Proof.
  destruct st as [lightning_strikes sub_groups].
  intros Hstep (emitted & dropped & Hst & Hwf & Hbig & Hsmall & Hperm). simpl in *.
  unfold event_step in Hstep.
  apply bind_Ok in Hstep as (dist_sq & [_ ->]%float_pow2_Ok & Hstep).
  apply bind_Ok in Hstep as (min_sq & [_ ->]%float_pow2_Ok & Hstep).
  apply bind_Ok in Hstep as (max_sq & [_ ->]%float_pow2_Ok & Hstep).
  revert Hstep.
  set (expired := λ sg : SubGroup, (dur < unix_vals !!! j - first_unix sg)%Q).
  set (alive := λ sg : SubGroup, (unix_vals !!! j - first_unix sg <= dur)%Q).
  set (closed := filter (λ sg, expired sg ∧ big sg) sub_groups).
  set (lost := filter (λ sg, expired sg ∧ ¬ big sg) sub_groups).
  set (kept := filter alive sub_groups).
  assert (closed ++ lost ++ kept ≡ₚ sub_groups) as Hsplit.
  { apply filter_three_perm. intros sg. unfold expired, alive.
    destruct (Qlt_le_dec dur (unix_vals !!! j - first_unix sg)) as [Hexp|Hal];
      destruct (decide (big sg)); [left|right; left|right; right..];
      repeat split; try tauto; try (intros []; lra); try lra; intros H; lra. }
  apply Forall_app in Hwf as [Hwf_e Hwf]. apply Forall_app in Hwf as [Hwf_d Hwf_o].
  assert (Forall (wf j) closed ∧ Forall (wf j) lost ∧ Forall (wf j) kept)
    as (Hwf_c & Hwf_l & Hwf_k).
  { rewrite <- Hsplit in Hwf_o. apply Forall_app in Hwf_o as [? Hwf_o].
    by apply Forall_app in Hwf_o as [? ?]. }
  assert (∀ l, Forall (wf j) l → Forall (wf (S j)) l) as Hup.
  { intros l Hl. eapply Forall_impl; [exact Hl|]. intros sg Hsg.
    apply wf_mono with j; [done|lia]. }
  assert (∀ opened,
            Forall (wf (S j)) opened →
            concat (sg_indices <$> opened) ≡ₚ j :: concat (sg_indices <$> kept) →
            inv (S j)
              (lightning_strikes ++ (strike_of group_indices <$> closed), opened))
    as Hfinish.
  { intros opened Hwf_new Hperm_new. exists (emitted ++ closed), (dropped ++ lost).
    cbn [fst snd]. split; [by rewrite fmap_app, Hst|]. split.
    { rewrite !Forall_app. repeat split; auto. }
    split.
    { apply Forall_app. split; [done|]. apply Forall_forall. intros sg Hsg.
      by apply list_elem_of_filter in Hsg as [[_ ?] _]. }
    split.
    { apply Forall_app. split; [done|]. apply Forall_forall. intros sg Hsg.
      by apply list_elem_of_filter in Hsg as [[_ ?] _]. }
    rewrite seq_S. simpl. rewrite <- Hperm, <- Hsplit.
    rewrite !fmap_app, !concat_app, Hperm_new.
    apply perm_shuffle. }
  destruct (try_attach _ _ _ _ _ _ _ _ _ _ kept) as [attached_groups|] eqn:Hatt;
    intros [= <-].
  - destruct (try_attach_wf _ _ _ _ _ _ _ _ _ j kept attached_groups Hwf_k Hatt)
      as [Hwf_new Hperm_new].
    by apply Hfinish.
  - apply Hfinish.
    + apply Forall_app. split; [by apply Hup|]. constructor; [apply singleton_wf|done].
    + rewrite fmap_app, concat_app. simpl. by rewrite <- Permutation_cons_append.
Qed.

Lemma event_loop_group_inv len s st st' :
  for_loop step st (seq s len) = Ok st' → inv s st → inv (s + len) st'.
Proof.
  revert s st. induction len as [|len IH]; intros s st; simpl.
  - intros [= <-]. by rewrite Nat.add_0_r.
  - intros Hloop Hinv. apply bind_Ok in Hloop as (st1 & Hstep & Hloop).
    rewrite <- Nat.add_succ_comm. apply (IH (S s) st1); [done|].
    by eapply event_step_group_inv.
Qed.

Lemma group_inv_start : inv 0 ([], []).
Proof. exists [], []. simpl. repeat split; constructor. Qed.

End one_group_inv.

Lemma take_indices_local (col : list Q) gi vals i :
  take_indices col gi = Ok vals → (i < length gi)%nat →
  vals !!! i = col !!! (gi !!! i).
Proof.
  intros Htake Hi. destruct (lookup_lt_is_Some_2 gi i Hi) as [a Ha].
  destruct (take_indices_lookup _ _ _ _ _ Htake Ha) as [Hv _].
  by rewrite (list_lookup_total_correct _ _ _ Hv), (list_lookup_total_correct _ _ _ Ha).
Qed.

Lemma fmap_lookup_total_seq `{!Inhabited A} (l : list A) :
  (λ i, l !!! i) <$> seq 0 (length l) = l.
Proof.
  apply list_eq. intros i. rewrite list_lookup_fmap.
  destruct (decide (i < length l)%nat) as [Hi|Hi].
  - rewrite lookup_seq_lt by done. simpl.
    by rewrite (list_lookup_lookup_total_lt l i Hi).
  - rewrite lookup_seq_ge by lia. simpl. symmetry. apply lookup_ge_None. lia.
Qed.

Lemma concat_strike_of gi (sgs : list SubGroup) :
  concat (strike_of gi <$> sgs) = (λ i, gi !!! i) <$> concat (sg_indices <$> sgs).
Proof.
  induction sgs as [|sg sgs IH]; [done|]. csimpl. by rewrite fmap_app, IH.
Qed.

Lemma StronglySorted_lt_fmap_lookup (gi idx : list nat) :
  StronglySorted lt gi → StronglySorted lt idx →
  Forall (λ i, i < length gi)%nat idx →
  StronglySorted lt ((λ i, gi !!! i) <$> idx).
Proof.
  intros Hgi Hidx Hlt. apply StronglySorted_of_lookup. intros p q a b Hpq Hp Hq.
  rewrite list_lookup_fmap in Hp, Hq.
  destruct (idx !! p) as [i|] eqn:Hi; [|done].
  destruct (idx !! q) as [i'|] eqn:Hi'; [|done].
  simpl in Hp, Hq. injection Hp as <-. injection Hq as <-.
  pose proof (StronglySorted_lookup lt idx p q i i' Hidx Hpq Hi Hi') as Hii.
  assert (i' < length gi)%nat as Hb.
  { eapply Forall_forall in Hlt; [exact Hlt|]. by eapply list_elem_of_lookup_2. }
  apply (StronglySorted_lookup lt gi i i'); [done..| |];
    apply list_lookup_lookup_total_lt; lia.
Qed.

Section group_result.
Variables (all_x_values all_y_values all_z_values all_unix_values : list Q).
Variable min_pts : Z.
Variable group_ids : list nat.
Variables (dur dist thr mins maxs : Q).

Local Abbreviation result_of := (groups_result all_x_values all_y_values all_z_values
  all_unix_values thr dist mins maxs min_pts group_ids).
Local Abbreviation big := (λ sg : SubGroup,
  (min_pts ≤ Z.of_nat (length (sg_indices sg)))%Z).

(** A subgroup of a group, read in positions of the table. *)
Lemma sg_wf_strike group x_vals y_vals z_vals unix_vals sg :
  let gi := members_of group_ids group in
  take_indices all_x_values gi = Ok x_vals →
  take_indices all_y_values gi = Ok y_vals →
  take_indices all_z_values gi = Ok z_vals →
  take_indices all_unix_values gi = Ok unix_vals →
  sg_wf x_vals y_vals z_vals unix_vals thr dist mins maxs (length gi) sg →
  big sg →
  strike_wf all_x_values all_y_values all_z_values all_unix_values thr dist mins maxs
    min_pts group_ids (strike_of gi sg).
Proof.
  intros gi Hx Hy Hz Hu (Hne & Hsorted & Hlt & _ & _ & _ & _ & Hchain) Hbig.
  assert (StronglySorted lt gi) as Hgi by apply np_where_sorted.
  unfold strike_of. split; [by destruct (sg_indices sg)|]. split.
  { by apply StronglySorted_lt_fmap_lookup. }
  split; [by rewrite length_fmap|]. split.
  { exists group. apply Forall_fmap, Forall_forall. intros i Hi. simpl.
    eapply Forall_forall in Hlt; [|exact Hi]. simpl in Hlt.
    assert (gi !!! i ∈ gi) as Hin
      by (eapply list_elem_of_lookup_2; by apply list_lookup_lookup_total_lt).
    apply elem_of_np_where in Hin. rewrite list_lookup_fmap in Hin.
    destruct (group_ids !! (gi !!! i)) as [g|]; [|done]. simpl in Hin.
    injection Hin as Hg%bool_decide_eq_true. by subst. }
  intros k c Hk. rewrite list_lookup_fmap in Hk.
  destruct (sg_indices sg !! S k) as [i|] eqn:Hi; [|done]. simpl in Hk.
  injection Hk as <-. rewrite <- fmap_take.
  assert (i < length gi)%nat as Hilt.
  { eapply Forall_forall in Hlt; [exact Hlt|]. by eapply list_elem_of_lookup_2. }
  assert (∀ a, a ∈ take (S k) (sg_indices sg) → (a < length gi)%nat) as Hearlier.
  { intros a Ha. eapply Forall_forall in Hlt; [exact Hlt|].
    apply elem_of_take in Ha as (p & Hp & _). by eapply list_elem_of_lookup_2. }
  assert (∀ a, (a < length gi)%nat →
            gap unix_vals a i = gap all_unix_values (gi !!! a) (gi !!! i)
            ∧ distance_sq x_vals y_vals z_vals a i
              = distance_sq all_x_values all_y_values all_z_values (gi !!! a) (gi !!! i)
            ∧ speed_sq x_vals y_vals z_vals unix_vals a i
              = speed_sq all_x_values all_y_values all_z_values all_unix_values
                  (gi !!! a) (gi !!! i)) as Hlocal.
  { intros a Ha. unfold speed_sq, distance_sq, gap.
    by rewrite !(take_indices_local _ _ _ _ Hx), !(take_indices_local _ _ _ _ Hy),
      !(take_indices_local _ _ _ _ Hz), !(take_indices_local _ _ _ _ Hu). }
  destruct (Hchain k i Hi) as [(a & Ha & Hagap & Hadist) (b & Hb & Hbgap & Hlo & Hhi)].
  destruct (Hlocal a (Hearlier a Ha)) as (Ega & Eda & _).
  destruct (Hlocal b (Hearlier b Hb)) as (Egb & _ & Esb).
  split.
  - exists (gi !!! a). split; [apply list_elem_of_fmap; by exists a|].
    by rewrite <- Ega, <- Eda.
  - exists (gi !!! b). split; [apply list_elem_of_fmap; by exists b|].
    by rewrite <- Egb, <- Esb.
Qed.

Lemma process_group_result group strikes :
  process_group all_x_values all_y_values all_z_values all_unix_values min_pts
    group_ids dur dist thr mins maxs group = Ok strikes →
  result_of (members_of group_ids group) strikes.
Proof.
  unfold process_group. fold (members_of group_ids group).
  set (gi := members_of group_ids group).
  case_decide as Hskip.
  { intros [= <-]. split; [constructor|]. exists gi. split; [done|].
    intros Hmin. apply length_zero_iff_nil. lia. }
  intros Hok.
  apply bind_Ok in Hok as (x_vals & Hx & Hok).
  apply bind_Ok in Hok as (y_vals & Hy & Hok).
  apply bind_Ok in Hok as (z_vals & Hz & Hok).
  apply bind_Ok in Hok as (unix_vals & Hu & Hok).
  pose proof (take_indices_length _ _ _ Hx) as Hlen.
  apply bind_Ok in Hok as ([lightning_strikes sub_groups] & Hloop & Hok).
  pose proof (event_loop_group_inv gi x_vals y_vals z_vals unix_vals min_pts
                dur dist thr mins maxs (length x_vals) 0 ([], []) _ Hloop
                (group_inv_start gi x_vals y_vals z_vals unix_vals min_pts
                   dist thr mins maxs)) as Hinv.
  destruct Hinv as (emitted & dropped & Hst & Hwf & Hbig & Hsmall & Hperm).
  simpl in Hst, Hwf, Hperm. rewrite Hlen in Hwf, Hperm.
  injection Hok as <-. subst lightning_strikes.
  rewrite <- fmap_app.
  apply Forall_app in Hwf as [Hwf_e Hwf]. apply Forall_app in Hwf as [Hwf_d Hwf_o].
  set (rest := filter (λ sg, ¬ big sg) sub_groups).
  assert (filter big sub_groups ++ rest ≡ₚ sub_groups) as Hsplit
    by apply filter_app_complement.
  split.
  - apply Forall_fmap, Forall_forall. intros sg Hsg. simpl.
    apply elem_of_app in Hsg as [Hsg|Hsg].
    + apply (sg_wf_strike group x_vals y_vals z_vals unix_vals sg Hx Hy Hz Hu).
      * eapply Forall_forall in Hwf_e; [exact Hwf_e|exact Hsg].
      * eapply Forall_forall in Hbig; [exact Hbig|exact Hsg].
    + apply list_elem_of_filter in Hsg as [Hb Hsg].
      apply (sg_wf_strike group x_vals y_vals z_vals unix_vals sg Hx Hy Hz Hu); [|done].
      eapply Forall_forall in Hwf_o; [exact Hwf_o|exact Hsg].
  - exists (concat (strike_of gi <$> (dropped ++ rest))). split.
    + rewrite <- concat_app, <- fmap_app, concat_strike_of.
      transitivity ((λ i, gi !!! i) <$> seq 0 (length gi));
        [|by rewrite fmap_lookup_total_seq].
      apply fmap_Permutation.
      rewrite <- Hsplit in Hperm. rewrite <- Hperm. rewrite !fmap_app, !concat_app.
      rewrite <- !app_assoc. apply Permutation_app_head.
      rewrite !app_assoc. apply Permutation_app_tail. apply Permutation_app_comm.
    + intros Hmin.
      assert (∀ sg, sg_wf x_vals y_vals z_vals unix_vals thr dist mins maxs
                      (length gi) sg → big sg) as Hall.
      { intros sg (Hne & _). destruct (sg_indices sg); [done|]. simpl. lia. }
      assert (dropped = []) as ->.
      { destruct dropped as [|sg ?]; [done|].
        apply Forall_cons in Hsmall as [Hsg _]. apply Forall_cons in Hwf_d as [Hw _].
        by apply Hall in Hw. }
      assert (rest = []) as ->; [|done].
      apply filter_none. intros sg Hsg Hn. apply Hn, Hall.
      eapply Forall_forall in Hwf_o; [exact Hwf_o|exact Hsg].
Qed.

Lemma groups_result_app members1 members2 strikes1 strikes2 :
  result_of members1 strikes1 → result_of members2 strikes2 →
  result_of (members1 ++ members2) (strikes1 ++ strikes2).
Proof.
  intros [Hwf1 (lost1 & Hperm1 & Hnone1)] [Hwf2 (lost2 & Hperm2 & Hnone2)].
  split; [by apply Forall_app|]. exists (lost1 ++ lost2). split.
  - rewrite concat_app, <- Hperm1, <- Hperm2. rewrite <- !app_assoc.
    apply Permutation_app_head. rewrite !app_assoc. apply Permutation_app_tail.
    apply Permutation_app_comm.
  - intros Hmin. by rewrite Hnone1, Hnone2.
Qed.

Lemma group_loop_result unique_groups members acc strikes :
  result_of members acc →
  group_loop all_x_values all_y_values all_z_values all_unix_values min_pts
    group_ids dur dist thr mins maxs unique_groups acc = Ok strikes →
  result_of (members ++ concat (members_of group_ids <$> unique_groups)) strikes.
Proof.
  revert members acc. induction unique_groups as [|g gs IH]; intros members acc Hacc;
    simpl.
  - intros [= <-]. by rewrite app_nil_r.
  - intros Hok. apply bind_Ok in Hok as (added & Hadd & Hok).
    rewrite app_assoc. apply (IH _ (acc ++ added)); [|done].
    apply groups_result_app; [done|]. by apply process_group_result.
Qed.

Lemma group_process_result unique_groups strikes :
  _group_process all_x_values all_y_values all_z_values all_unix_values min_pts
    group_ids dur dist thr mins maxs unique_groups = Ok strikes →
  result_of (concat (members_of group_ids <$> unique_groups)) strikes.
Proof.
  intros Hok. apply (group_loop_result unique_groups [] [] strikes); [|done].
  split; [constructor|]. by exists [].
Qed.

End group_result.

Lemma members_of_spec group_ids group i :
  i ∈ members_of group_ids group ↔ group_ids !! i = Some group.
Proof.
  unfold members_of. rewrite elem_of_np_where, list_lookup_fmap.
  destruct (group_ids !! i) as [g|]; simpl; [|done]. split.
  - intros [= Hg%bool_decide_eq_true]. by subst.
  - intros [= ->]. by rewrite bool_decide_eq_true_2.
Qed.

Lemma members_partition group_ids (groups : list nat) :
  NoDup groups →
  NoDup (concat (members_of group_ids <$> groups))
  ∧ ∀ i, i ∈ concat (members_of group_ids <$> groups)
         ↔ ∃ g, g ∈ groups ∧ group_ids !! i = Some g.
Proof.
  induction 1 as [|g groups Hg Hnd [IHnd IHin]]; csimpl.
  - split; [constructor|]. intros i. split; [inversion 1|]. intros (g & Hin & _).
    inversion Hin.
  - split.
    + apply NoDup_app. split; [|split; [|done]].
      * apply StronglySorted_lt_NoDup, np_where_sorted.
      * intros i Hi%members_of_spec (g' & Hg' & Hi')%IHin. congruence.
    + intros i. rewrite elem_of_app, members_of_spec, IHin. split.
      * intros [Hi|(g' & Hg' & Hi)]; [exists g|exists g']; split; try done;
          [left|by right].
      * intros (g' & Hg'%elem_of_cons & Hi). destruct Hg' as [->|Hg']; [by left|].
        right. by exists g'.
Qed.

Lemma Counter_keys (l : list nat) x : x ∈ (Counter l).*1 ↔ x ∈ l.
Proof.
  unfold Counter.
  enough (∀ c, NoDup c.*1 →
            x ∈ (foldl (λ c k, counter_add k c) c l).*1 ↔ x ∈ l ∨ x ∈ c.*1) as Hgen.
  { rewrite (Hgen []) by constructor. simpl. rewrite elem_of_nil. tauto. }
  induction l as [|k l IH]; intros c Hc; simpl.
  - rewrite elem_of_nil. tauto.
  - destruct (counter_nodup_aux k c Hc) as [Hnd Hin].
    rewrite (IH _ Hnd), Hin, elem_of_cons. tauto.
Qed.

Lemma all_members_perm (group_ids : list nat) :
  concat (members_of group_ids <$> (Counter group_ids).*1) ≡ₚ seq 0 (length group_ids).
Proof.
  destruct (members_partition group_ids _ (Counter_NoDup group_ids)) as [Hnd Hin].
  apply NoDup_Permutation; [done|apply NoDup_seq|].
  intros i. rewrite Hin, elem_of_seq. split.
  - intros (g & _ & Hi%lookup_lt_Some). lia.
  - intros [_ Hi]. destruct (lookup_lt_is_Some_2 group_ids i) as [g Hg]; [lia|].
    exists g. split; [|done]. apply Counter_keys. by eapply list_elem_of_lookup_2.
Qed.

Lemma bucket_empty MAX_CHUNK_SIZE thr dur dist maxs mins min_pts :
  _bucket_dataframe_lightnings MAX_CHUNK_SIZE [] thr dur dist maxs mins min_pts
  = if decide (1 < min_pts)%Z then Ok ([], []) else Raise IndexError.
Proof.
  rewrite bucket_unchunked. simpl.
  unfold _group_process. simpl. unfold process_group. simpl.
  change (Z.of_nat 1) with 1%Z.
  by destruct (decide (1 < min_pts)%Z).
Qed.

(** What [_bucket_dataframe_lightnings] returns, over the columns of the
    sorted table. *)
Lemma bucket_result MAX_CHUNK_SIZE df thr dur dist maxs mins min_pts df' strikes :
  _bucket_dataframe_lightnings MAX_CHUNK_SIZE df thr dur dist maxs mins min_pts
    = Ok (df', strikes) →
  df' = sort_values df
  ∧ groups_result (values col_x df') (values col_y df') (values col_z df')
      (values time_unix df') thr dist mins maxs min_pts
      (time_groups_of (values time_unix df') thr)
      (seq 0 (length df')) strikes.
Proof.
  destruct df as [|r df].
  { rewrite bucket_empty. case_decide; [|done]. intros [= <- <-].
    split; [done|]. split; [constructor|]. by exists []. }
  intros Hrun. rewrite bucket_unchunked in Hrun. simpl in Hrun.
  apply bind_Ok in Hrun as (strikes' & Hrun & [= <- <-]). split; [done|].
  apply group_process_result in Hrun as [Hwf (lost & Hperm & Hnone)].
  split; [done|]. exists lost. split; [|done].
  rewrite Hperm, all_members_perm. rewrite time_groups_length.
  - unfold values. by rewrite length_fmap.
  - unfold values. intros Hnil%(f_equal length).
    rewrite length_fmap, sort_values_length in Hnil. done.
Qed.

Lemma np_diff_lookup (a : list Q) k u v :
  a !! k = Some u → a !! S k = Some v → np_diff a !! k = Some (v - u)%Q.
Proof.
  revert k. induction a as [|x [|y rest] IH]; intros k Hk HSk; [done|by destruct k|].
  destruct k as [|k]; simpl in *.
  - by injection Hk as <-; injection HSk as <-.
  - by apply IH.
Qed.

Lemma cumsum_step acc (l : list nat) k x v :
  (acc :: cumsum_from acc l) !! k = Some x → l !! k = Some v →
  (acc :: cumsum_from acc l) !! S k = Some (x + v)%nat.
Proof.
  revert acc k. induction l as [|w l IH]; intros acc k Hx Hv; [done|].
  destruct k as [|k]; simpl in *.
  - by injection Hx as <-; injection Hv as <-.
  - by apply IH.
Qed.

Lemma time_groups_step times thr k u v :
  times !! k = Some u → times !! S k = Some v →
  ∃ g, time_groups_of times thr !! k = Some g
       ∧ time_groups_of times thr !! S k
         = Some (g + (if decide (thr < v - u)%Q then 1 else 0))%nat.
Proof.
  intros Hu Hv.
  assert (times ≠ []) as Hne by (intros ->; done).
  destruct (lookup_lt_is_Some_2 (time_groups_of times thr) k) as [g Hg].
  { rewrite time_groups_length by done. by eapply lookup_lt_Some. }
  exists g. split; [done|]. unfold time_groups_of, np_cumsum in *.
  apply cumsum_step; [done|]. rewrite list_lookup_fmap.
  by rewrite (np_diff_lookup _ _ _ _ Hu Hv).
Qed.

Lemma time_groups_between times thr i j gi gj :
  (i ≤ j)%nat → (j < length times)%nat →
  time_groups_of times thr !! i = Some gi →
  time_groups_of times thr !! j = Some gj →
  (gi ≤ gj)%nat
  ∧ (gi = gj ↔ ∀ k, (i ≤ k < j)%nat → (times !!! S k - times !!! k <= thr)%Q).
Proof.
  intros Hij. revert gj. induction Hij as [|j Hij IH]; intros gj Hj Hgi Hgj.
  - assert (gi = gj) as <- by congruence. split; [lia|]. split; [|done].
    intros _ k Hk. lia.
  - destruct (lookup_lt_is_Some_2 times j) as [u Hu]; [lia|].
    destruct (lookup_lt_is_Some_2 times (S j)) as [v Hv]; [lia|].
    destruct (time_groups_step times thr j u v Hu Hv) as (g & Hg & HSg).
    destruct (IH g) as [Hle Hiff]; [lia|done..|].
    rewrite HSg in Hgj. injection Hgj as <-.
    assert (times !!! S j = v) as Ev by (by apply list_lookup_total_correct).
    assert (times !!! j = u) as Eu by (by apply list_lookup_total_correct).
    split; [lia|]. case_decide as Hgap.
    + split; [lia|]. intros Hall. exfalso.
      specialize (Hall j ltac:(lia)). rewrite Ev, Eu in Hall. lra.
    + rewrite Nat.add_0_r, Hiff. split.
      * intros Hall k Hk. destruct (decide (k = j)) as [->|Hne].
        -- rewrite Ev, Eu. lra.
        -- apply Hall. lia.
      * intros Hall k Hk. apply Hall. lia.
Qed.

(** X13.  The time groups.  For a time column with at least one entry,
    [time_groups] has one group id per event, starting at 0 and never
    decreasing along the column; two events have the same id exactly when
    no two neighbouring events between them are more than
    [max_time_threshold] apart. *)
Theorem time_groups_spec (times : list Q) (thr : Q) :
  times ≠ [] →
  length (time_groups_of times thr) = length times
  ∧ time_groups_of times thr !! 0%nat = Some 0%nat
  ∧ ∀ i j gi gj,
      (i ≤ j)%nat →
      time_groups_of times thr !! i = Some gi →
      time_groups_of times thr !! j = Some gj →
      (gi ≤ gj)%nat
      ∧ (gi = gj ↔ ∀ k, (i ≤ k < j)%nat → (times !!! S k - times !!! k <= thr)%Q).
Proof.
  intros Hne. pose proof (time_groups_length times thr Hne) as Hlen.
  split; [done|]. split; [done|].
  intros i j gi gj Hij Hgi Hgj. apply (time_groups_between times thr i j); try done.
  rewrite <- Hlen. by eapply lookup_lt_Some.
Qed.

Lemma time_groups_spec_witness :
  [0; 4 # 10; 10; 104 # 10]%Q ≠ []
  ∧ time_groups_of [0; 4 # 10; 10; 104 # 10]%Q 1 = [0; 0; 1; 1]%nat
  ∧ length (time_groups_of [0; 4 # 10; 10; 104 # 10]%Q 1) = 4%nat.
Proof.
  assert ([0; 4 # 10; 10; 104 # 10]%Q ≠ []) as Hne by discriminate.
  split; [exact Hne|]. split; [vm_compute; reflexivity|].
  exact (proj1 (time_groups_spec [0; 4 # 10; 10; 104 # 10]%Q 1 Hne)).
Defined.

(** X14.  The strikes of [_group_process].  Whatever the columns and the
    group ids, every strike that is returned is a non-empty list of at
    least [min_pts] positions of the table, in ascending order, all of one
    time group. *)
Theorem group_process_strikes all_x all_y all_z all_unix min_pts group_ids
    dur dist thr mins maxs unique_groups strikes :
  _group_process all_x all_y all_z all_unix min_pts group_ids dur dist thr mins maxs
    unique_groups = Ok strikes →
  ∀ strike, strike ∈ strikes →
    strike ≠ []
    ∧ (min_pts ≤ Z.of_nat (length strike))%Z
    ∧ StronglySorted lt strike
    ∧ ∃ group, group ∈ unique_groups
        ∧ Forall (λ a, group_ids !! a = Some group) strike.
Proof.
  intros Hok strike Hin.
  pose proof (group_process_result _ _ _ _ _ _ _ _ _ _ _ _ _ Hok) as [Hwf Hrest].
  eapply Forall_forall in Hwf; [|exact Hin].
  destruct Hwf as (Hne & Hsorted & Hbig & (g & Hg) & _).
  repeat (split; [done|]). exists g. split; [|done].
  destruct Hrest as (lost & Hperm & _).
  destruct strike as [|a strike]; [done|]. apply Forall_cons in Hg as [Ha _].
  assert (a ∈ concat (members_of group_ids <$> unique_groups)) as Hmem.
  { rewrite <- Hperm. apply elem_of_app. left. apply elem_of_concat.
    exists (a :: strike). split; [left|done]. }
  apply elem_of_concat in Hmem as (l & Hal & Hl).
  apply list_elem_of_fmap in Hl as (g' & -> & Hg').
  apply members_of_spec in Hal. congruence.
Qed.

Lemma group_process_strikes_witness :
  _group_process [0; 1; 2; 3]%Q [0; 0; 0; 0]%Q [0; 0; 0; 0]%Q
    [0; 4 # 10; 10; 104 # 10]%Q 2 [0; 0; 1; 1]%nat 20 50000 1 0 (299792458 # 1000)
    [0; 1]%nat
  = Ok [[0; 1]; [2; 3]]%nat
  ∧ (2 ≤ Z.of_nat (length [2; 3]%nat))%Z
  ∧ StronglySorted lt [2; 3]%nat.
Proof.
  assert (_group_process [0; 1; 2; 3]%Q [0; 0; 0; 0]%Q [0; 0; 0; 0]%Q
            [0; 4 # 10; 10; 104 # 10]%Q 2 [0; 0; 1; 1]%nat 20 50000 1 0
            (299792458 # 1000) [0; 1]%nat
          = Ok [[0; 1]; [2; 3]]%nat) as Hrun by (vm_compute; reflexivity).
  split; [exact Hrun|].
  destruct (group_process_strikes _ _ _ _ _ _ _ _ _ _ _ _ _ Hrun [2; 3]%nat)
    as (_ & Hbig & Hsorted & _).
  - right. left.
  - split; [exact Hbig|exact Hsorted].
Defined.

(** X15.  No event in two strikes.  In the list
    [_bucket_dataframe_lightnings] returns, the strikes are pairwise
    disjoint lists of positions of the sorted table; when [min_pts] is at
    most 1 nothing is discarded, and every event of the table is in
    exactly one strike.  [_group_process] alone has the first property
    when no group id is handed to it twice. *)
Theorem strikes_partition MAX_CHUNK_SIZE df thr dur dist maxs mins min_pts df' strikes :
  _bucket_dataframe_lightnings MAX_CHUNK_SIZE df thr dur dist maxs mins min_pts
    = Ok (df', strikes) →
  NoDup (concat strikes)
  ∧ Forall (λ a, a < length df')%nat (concat strikes)
  ∧ ((min_pts ≤ 1)%Z → concat strikes ≡ₚ seq 0 (length df'))
  ∧ (∀ all_x all_y all_z all_unix group_ids unique_groups group_strikes,
       NoDup unique_groups →
       _group_process all_x all_y all_z all_unix min_pts group_ids dur dist thr
         mins maxs unique_groups = Ok group_strikes →
       NoDup (concat group_strikes)).
Proof.
  intros Hok. destruct (bucket_result _ _ _ _ _ _ _ _ _ _ Hok)
    as [-> [_ (lost & Hperm & Hnone)]].
  assert (NoDup (concat strikes ++ lost)) as Hnd by (rewrite Hperm; apply NoDup_seq).
  apply NoDup_app in Hnd as (Hnd & _ & _).
  split; [done|]. split; [|split].
  - apply Forall_forall. intros a Ha.
    assert (a ∈ seq 0 (length (sort_values df))) as Hseq
      by (rewrite <- Hperm; apply elem_of_app; by left).
    apply elem_of_seq in Hseq. lia.
  - intros Hmin. rewrite (Hnone Hmin), app_nil_r in Hperm. done.
  - intros all_x all_y all_z all_unix group_ids unique_groups group_strikes Hgs Hrun.
    apply group_process_result in Hrun as [_ (lost' & Hperm' & _)].
    assert (NoDup (concat group_strikes ++ lost')) as Hnd'.
    { rewrite Hperm'. by apply members_partition. }
    by apply NoDup_app in Hnd' as (? & _ & _).
Qed.

Lemma strikes_partition_witness :
  _bucket_dataframe_lightnings 50000 examples.two_strike_events 1 20 50000
    (299792458 # 1000) 0 1
  = Ok (examples.two_strike_events, [[0; 1]; [2; 3]]%nat)
  ∧ NoDup (concat [[0; 1]; [2; 3]]%nat)
  ∧ concat [[0; 1]; [2; 3]]%nat ≡ₚ seq 0 (length examples.two_strike_events).
Proof.
  assert (_bucket_dataframe_lightnings 50000 examples.two_strike_events 1 20 50000
            (299792458 # 1000) 0 1
          = Ok (examples.two_strike_events, [[0; 1]; [2; 3]]%nat)) as Hrun
    by (vm_compute; reflexivity).
  split; [exact Hrun|].
  destruct (strikes_partition _ _ _ _ _ _ _ _ _ _ Hrun) as (Hnd & _ & Hall & _).
  split; [exact Hnd|]. apply Hall. lia.
Defined.

(** X16.  What links the events of a strike.  In every strike
    [_group_process] returns, each event but the first has an earlier
    event of the strike within [max_time_threshold] and the distance
    bound, and an earlier event of the strike within [max_time_threshold]
    whose speed (with the squared time floored at 1e-5) is in range; the
    two tests are made separately, so the two earlier events can
    differ. *)
Theorem strike_events_chained all_x all_y all_z all_unix min_pts group_ids
    dur dist thr mins maxs unique_groups strikes :
  _group_process all_x all_y all_z all_unix min_pts group_ids dur dist thr mins maxs
    unique_groups = Ok strikes →
  ∀ strike k c, strike ∈ strikes → strike !! S k = Some c →
    (∃ a, a ∈ take (S k) strike
          ∧ (gap all_unix a c <= thr)%Q
          ∧ (distance_sq all_x all_y all_z a c <= dist * dist)%Q)
    ∧ (∃ b, b ∈ take (S k) strike
            ∧ (gap all_unix b c <= thr)%Q
            ∧ (mins * mins <= speed_sq all_x all_y all_z all_unix b c)%Q
            ∧ (speed_sq all_x all_y all_z all_unix b c <= maxs * maxs)%Q).
Proof.
  intros Hok strike k c Hin Hk.
  pose proof (group_process_result _ _ _ _ _ _ _ _ _ _ _ _ _ Hok) as [Hwf _].
  eapply Forall_forall in Hwf; [|exact Hin].
  destruct Hwf as (_ & _ & _ & _ & Hchain). by apply Hchain.
Qed.

Lemma strike_events_chained_witness :
  _group_process relay_x relay_y relay_z relay_unix 1 [0; 0; 0]%nat 20 10 10 0 100
    [0]%nat
  = Ok [[0; 1; 2]]%nat
  ∧ (∃ a, a ∈ [0; 1]%nat
          ∧ (gap relay_unix a 2 <= 10)%Q
          ∧ (distance_sq relay_x relay_y relay_z a 2 <= 10 * 10)%Q)
  ∧ (∃ b, b ∈ [0; 1]%nat
          ∧ (gap relay_unix b 2 <= 10)%Q
          ∧ (0 * 0 <= speed_sq relay_x relay_y relay_z relay_unix b 2)%Q
          ∧ (speed_sq relay_x relay_y relay_z relay_unix b 2 <= 100 * 100)%Q)
  ∧ ∀ m, m ∈ [0; 1]%nat →
      ¬ ((distance_sq relay_x relay_y relay_z m 2 <= 10 * 10)%Q
         ∧ (speed_sq relay_x relay_y relay_z relay_unix m 2 <= 100 * 100)%Q).
Proof.
  assert (_group_process relay_x relay_y relay_z relay_unix 1 [0; 0; 0]%nat
            20 10 10 0 100 [0]%nat
          = Ok [[0; 1; 2]]%nat) as Hrun by (vm_compute; reflexivity).
  split; [exact Hrun|].
  destruct (strike_events_chained _ _ _ _ _ _ _ _ _ _ _ _ _ Hrun [0; 1; 2]%nat
              1%nat 2%nat) as [Hnear Hspeed].
  - left.
  - reflexivity.
  - split; [exact Hnear|]. split; [exact Hspeed|].
    intros m Hm [Hd Hs].
    apply elem_of_cons in Hm as [->|Hm].
    + vm_compute in Hd. by apply Hd.
    + apply list_elem_of_singleton in Hm as ->. vm_compute in Hs. by apply Hs.
Defined.

(** X17.  No silence inside a strike.  Between two events of a strike
    that [_bucket_dataframe_lightnings] returns, no two neighbouring
    events of the sorted table are more than [max_time_threshold]
    apart. *)
Theorem strike_without_silence MAX_CHUNK_SIZE df thr dur dist maxs mins min_pts
    df' strikes :
  _bucket_dataframe_lightnings MAX_CHUNK_SIZE df thr dur dist maxs mins min_pts
    = Ok (df', strikes) →
  ∀ strike a b k, strike ∈ strikes → a ∈ strike → b ∈ strike → (a ≤ k < b)%nat →
    (values time_unix df' !!! S k - values time_unix df' !!! k <= thr)%Q.
Proof.
  intros Hok strike a b k Hin Ha Hb Hk.
  destruct (bucket_result _ _ _ _ _ _ _ _ _ _ Hok) as [-> [Hwf (lost & Hperm & _)]].
  eapply Forall_forall in Hwf; [|exact Hin].
  destruct Hwf as (_ & _ & _ & (g & Hg) & _).
  pose proof Hg as Hg'.
  eapply Forall_forall in Hg; [|exact Ha]. eapply Forall_forall in Hg'; [|exact Hb].
  simpl in Hg, Hg'.
  assert (b < length (values time_unix (sort_values df)))%nat as Hblt.
  { assert (b ∈ seq 0 (length (sort_values df))) as Hseq.
    { rewrite <- Hperm. apply elem_of_app. left. apply elem_of_concat. by exists strike. }
    apply elem_of_seq in Hseq. unfold values. rewrite length_fmap. lia. }
  destruct (time_groups_between _ thr a b g g ltac:(lia) Hblt Hg Hg') as [_ Hiff].
  by apply Hiff.
Qed.

Lemma strike_without_silence_witness :
  _bucket_dataframe_lightnings 50000 examples.two_strike_events 1 20 50000
    (299792458 # 1000) 0 2
  = Ok (examples.two_strike_events, [[0; 1]; [2; 3]]%nat)
  ∧ (values time_unix examples.two_strike_events !!! 3%nat
     - values time_unix examples.two_strike_events !!! 2%nat <= 1)%Q.
Proof.
  assert (_bucket_dataframe_lightnings 50000 examples.two_strike_events 1 20 50000
            (299792458 # 1000) 0 2
          = Ok (examples.two_strike_events, [[0; 1]; [2; 3]]%nat)) as Hrun
    by (vm_compute; reflexivity).
  split; [exact Hrun|].
  apply (strike_without_silence _ _ _ _ _ _ _ _ _ _ Hrun [2; 3]%nat 2%nat 3%nat 2%nat).
  - right. left.
  - left.
  - right. left.
  - lia.
Defined.

End engine_arrays.

(** ** The chain validator, again *)

Section chain_sizes.
Import lightning_stitcher chain_spec stitcher_spec.

Lemma filter_chain_size_iff E min_pts p c :
  (p, c) ∈ filter_correlations_by_chain_size E min_pts
  ↔ (p, c) ∈ E ∧ in_large_component E min_pts p ∧ in_large_component E min_pts c.
Proof.
  unfold filter_correlations_by_chain_size.
  rewrite list_elem_of_filter, !valid_nodes_of_spec. simpl. split; [tauto|].
  intros (Hin & Hp & Hc). split; [|done].
  split; (split; [|done]); apply elem_of_unique_indices;
    [exists c; by left|exists p; by right].
Qed.

Lemma in_large_component_mono E m m' v :
  (m ≤ m')%Z → in_large_component E m' v → in_large_component E m v.
Proof. intros Hm (C & HC & Hsize). exists C. split; [done|lia]. Qed.

Lemma in_large_component_one E m v : (m ≤ 1)%Z → in_large_component E m v.
Proof.
  intros Hm. exists (dfs (adjacency (build_graph E)) [v] ∅).
  pose proof (dfs_component E v) as HC. split; [done|].
  assert (v ∈ dfs (adjacency (build_graph E)) [v] ∅) as Hv by (apply HC, rtc_refl).
  assert (size (dfs (adjacency (build_graph E)) [v] ∅) ≠ 0%nat) as Hne.
  { intros Hz%size_empty_inv. by apply Hz in Hv. }
  lia.
Qed.

Lemma component_nodes E v (C : gset nat) :
  v ∈ unique_indices E → is_component E v C → C ⊆ unique_indices E.
Proof. intros Hv HC u Hu%HC. by eapply connected_node. Qed.

Lemma filter_sublist_impl {A} (P Q : A → Prop) `{!∀ x, Decision (P x)}
    `{!∀ x, Decision (Q x)} (l : list A) :
  (∀ x, P x → Q x) → filter P l `sublist_of` filter Q l.
Proof.
  intros HPQ. induction l as [|x l IH]; [done|]. rewrite !filter_cons.
  destruct (decide (P x)) as [HP|HP].
  - rewrite decide_True by auto. by constructor.
  - destruct (decide (Q x)); [by constructor|done].
Qed.

Lemma filter_all {A} (P : A → Prop) `{!∀ x, Decision (P x)} (l : list A) :
  (∀ x, x ∈ l → P x) → filter P l = l.
Proof.
  induction l as [|x l IH]; intros Hall; [done|].
  rewrite filter_cons_True by (apply Hall; left).
  f_equal. apply IH. intros y Hy. apply Hall. by right.
Qed.

Lemma connected_sub E F u w :
  (∀ pc, pc ∈ F → pc ∈ E) → connected F u w → connected E u w.
Proof.
  intros Hsub. induction 1 as [|a b c Hab _ IH]; [apply rtc_refl|].
  apply rtc_l with b; [|done]. destruct Hab as [Hab|Hab]; [left|right]; by apply Hsub.
Qed.

(** A component of at least [min_pts] nodes survives the filter whole. *)
Lemma large_component_kept E min_pts v (C : gset nat) :
  is_component E v C → (min_pts ≤ Z.of_nat (size C))%Z →
  is_component (filter_correlations_by_chain_size E min_pts) v C.
Proof.
  intros HC Hsize u. rewrite (HC u). split.
  - revert u. apply rtc_ind_r; [apply rtc_refl|].
    intros y z Hvy Hyz IH. apply rtc_r with y; [done|].
    assert (∀ w, connected E v w → in_large_component E min_pts w) as Hlarge.
    { intros w Hvw. exists C. split; [|done]. intros u. rewrite (HC u). split.
      - intros Hvu. apply connected_trans with v; [by apply connected_sym|done].
      - intros Hwu. by apply connected_trans with w. }
    assert (connected E v z) as Hvz by (apply rtc_r with y; [done|done]).
    destruct Hyz as [Hyz|Hzy]; [left|right]; apply filter_chain_size_iff; auto.
  - apply connected_sub. intros pc. apply filter_chain_size_elem.
Qed.

Lemma filter_chain_size_kept E m p c :
  (p, c) ∈ filter_correlations_by_chain_size E m →
  in_large_component (filter_correlations_by_chain_size E m) m p
  ∧ in_large_component (filter_correlations_by_chain_size E m) m c.
Proof.
  intros (Hin & (Cp & HCp & Hp) & (Cc & HCc & Hc))%filter_chain_size_iff.
  split; [exists Cp|exists Cc]; (split; [by apply large_component_kept|done]).
Qed.

Lemma filter_chain_size_few E m :
  (Z.of_nat (size (unique_indices E)) < m)%Z →
  filter_correlations_by_chain_size E m = [].
Proof.
  intros Hfew. unfold filter_correlations_by_chain_size. apply filter_none.
  intros [p c] Hin [[Hp (C & HC & Hsize)]%valid_nodes_of_spec _]. simpl in *.
  pose proof (subseteq_size _ _ (component_nodes E p C Hp HC)). lia.
Qed.

Lemma filter_chain_size_nodes E m :
  filter_correlations_by_chain_size E m ≠ [] →
  (m ≤ Z.of_nat (size (unique_indices (filter_correlations_by_chain_size E m))))%Z.
Proof.
  intros Hne.
  pose proof (filter_chain_size_kept E m) as Hkept.
  destruct (filter_correlations_by_chain_size E m) as [|[p c] rest] eqn:HF; [done|].
  destruct (Hkept p c) as [(C & HC & Hsize) _]; [left|].
  assert (p ∈ unique_indices ((p, c) :: rest)) as Hp.
  { apply elem_of_unique_indices. exists c. left. left. }
  pose proof (subseteq_size _ _ (component_nodes _ p C Hp HC)). lia.
Qed.

(** X18.  The component-size filter and its threshold.  Raising
    [min_pts] only removes correlations; with [min_pts] at most 1 nothing
    is removed; when the correlations touch fewer than [min_pts] events
    nothing is left; and every correlation that is left lies in a
    component of at least [min_pts] events of what is left, so that
    filtering a second time changes nothing. *)
Theorem filter_chain_size_threshold (E : list (nat * nat)) (m m' : Z) :
  (m ≤ m')%Z →
  filter_correlations_by_chain_size E m' `sublist_of` filter_correlations_by_chain_size E m
  ∧ ((m ≤ 1)%Z → filter_correlations_by_chain_size E m = E)
  ∧ ((Z.of_nat (size (unique_indices E)) < m)%Z →
     filter_correlations_by_chain_size E m = [])
  ∧ filter_correlations_by_chain_size (filter_correlations_by_chain_size E m) m
    = filter_correlations_by_chain_size E m
  ∧ (filter_correlations_by_chain_size E m ≠ [] →
     (m ≤ Z.of_nat (size (unique_indices (filter_correlations_by_chain_size E m))))%Z).
Proof.
  intros Hm. split; [|split; [|split; [|split]]].
  - unfold filter_correlations_by_chain_size. apply filter_sublist_impl.
    intros [p c]. rewrite !valid_nodes_of_spec.
    intros [[? Hp] [? Hc]].
    split; (split; [done|by apply in_large_component_mono with m']).
  - intros Hone. unfold filter_correlations_by_chain_size. apply filter_all.
    intros [p c] Hin. rewrite !valid_nodes_of_spec. simpl.
    split; (split; [|by apply in_large_component_one]); apply elem_of_unique_indices;
      [exists c; by left|exists p; by right].
  - apply filter_chain_size_few.
  - unfold filter_correlations_by_chain_size at 1. apply filter_all.
    intros [p c] Hin. rewrite !valid_nodes_of_spec. simpl.
    destruct (filter_chain_size_kept E m p c Hin) as [Hp Hc].
    split; (split; [|done]); apply elem_of_unique_indices;
      [exists c; by left|exists p; by right].
  - apply filter_chain_size_nodes.
Qed.

Lemma filter_chain_size_threshold_witness :
  (2 ≤ 3)%Z
  ∧ filter_correlations_by_chain_size [(0, 1); (1, 2); (5, 6)]%nat 3
    = [(0, 1); (1, 2)]%nat
  ∧ filter_correlations_by_chain_size [(0, 1); (1, 2); (5, 6)]%nat 2
    = [(0, 1); (1, 2); (5, 6)]%nat
  ∧ [(0, 1); (1, 2)]%nat `sublist_of` [(0, 1); (1, 2); (5, 6)]%nat.
Proof.
  assert (2 ≤ 3)%Z as Hm by lia.
  assert (filter_correlations_by_chain_size [(0, 1); (1, 2); (5, 6)]%nat 3
          = [(0, 1); (1, 2)]%nat) as H3 by (vm_compute; reflexivity).
  assert (filter_correlations_by_chain_size [(0, 1); (1, 2); (5, 6)]%nat 2
          = [(0, 1); (1, 2); (5, 6)]%nat) as H2 by (vm_compute; reflexivity).
  split; [exact Hm|]. split; [exact H3|]. split; [exact H2|].
  pose proof (proj1 (filter_chain_size_threshold [(0, 1); (1, 2); (5, 6)]%nat 2 3 Hm))
    as Hsub.
  rewrite H3, H2 in Hsub. exact Hsub.
Defined.

End chain_sizes.

(** ** The chain builder, again *)

Section strike_chains.
Import lightning_stitcher chain_spec chain_builder_spec stitcher_spec.

Lemma stitch_raw params strike events corrs :
  stitch_lightning_strike params strike events = Ok corrs →
  ∃ order rows,
    order ≡ₚ strike ∧ iloc events order = Ok rows
    ∧ corrs = filter_correlations_by_chain_size
                (flat_map (edge_at params order rows) (seq 0 (length order)))
                (get (min_lightning_points params) 300%Z).
Proof.
  intros Hok. unfold stitch_lightning_strike in Hok.
  apply bind_Ok in Hok as ([order raw] & Hloop & [= <-]).
  apply stitch_loop_Ok in Hloop as (Hsorted & _ & rows & Hrows & ->).
  exists order, rows. split; [by eapply sorted_strike_perm|done].
Qed.

Lemma edge_at_length params order rows i :
  (length (edge_at params order rows i) ≤ 1)%nat
  ∧ edge_at params order rows 0 = [].
Proof.
  split.
  - unfold edge_at. destruct (chosen_parent params rows i); simpl; lia.
  - reflexivity.
Qed.

Lemma flat_map_length_le {A} (f : nat → list A) (n : nat) :
  (∀ i, (length (f i) ≤ 1)%nat) → f 0%nat = [] →
  (length (flat_map f (seq 0 n)) ≤ n - 1)%nat.
Proof.
  intros Hone Hzero. destruct n as [|n]; [done|].
  simpl. rewrite Hzero. simpl. rewrite Nat.sub_0_r.
  generalize 1%nat. induction n as [|n IH]; intros s; simpl; [lia|].
  rewrite length_app. specialize (Hone s). specialize (IH (S s)). lia.
Qed.

Lemma raw_within params order rows :
  length rows = length order →
  within order (flat_map (edge_at params order rows) (seq 0 (length order))).
Proof.
  intros Hlen p c Hin. apply elem_of_flat_map in Hin as (i & Hi%elem_of_seq & Hedge).
  apply edge_at_elem in Hedge as (k & Hk & -> & -> & _); [|lia].
  split; eapply list_elem_of_lookup_2; apply list_lookup_lookup_total_lt; lia.
Qed.

Lemma within_unique_indices indices corr :
  within indices corr → unique_indices corr ⊆ list_to_set indices.
Proof.
  intros Hin u Hu. apply elem_of_unique_indices in Hu as (v & [Huv|Hvu]);
    apply elem_of_list_to_set; [by apply (Hin u v)|by apply (Hin v u)].
Qed.

Lemma size_list_to_set_le (l : list nat) :
  (size (list_to_set (C:=gset nat) l) ≤ length l)%nat.
Proof.
  change (size (list_to_set (C:=gset nat) l))
    with (length (elements (list_to_set (C:=gset nat) l))).
  apply submseteq_length, NoDup_submseteq; [apply NoDup_elements|].
  intros x Hx%elem_of_elements. by apply elem_of_list_to_set in Hx.
Qed.

Lemma stitch_within_strike_aux params strike events corrs :
  stitch_lightning_strike params strike events = Ok corrs → within strike corrs.
Proof.
  intros (order & rows & Hperm & Hrows & ->)%stitch_raw.
  pose proof (take_indices_length _ _ _ Hrows) as Hlen.
  intros p c Hin%filter_chain_size_elem.
  apply raw_within in Hin as [Hp Hc]; [|done]. split; by rewrite <- Hperm.
Qed.

(** X19.  Correlations stay inside the strike.  In the list
    [stitch_lightning_strike] returns, both ends of every correlation are
    indices of the strike it was given, and there are fewer correlations
    than indices. *)
Theorem stitch_within_strike params strike events corrs :
  stitch_lightning_strike params strike events = Ok corrs →
  within strike corrs
  ∧ (length corrs ≤ length strike - 1)%nat
  ∧ (strike = [] → corrs = []).
Proof.
  intros Hok. split; [by apply (stitch_within_strike_aux params strike events)|].
  destruct (stitch_raw _ _ _ _ Hok) as (order & rows & Hperm & Hrows & ->).
  split.
  - etransitivity; [apply sublist_length, filter_chain_size_sublist|].
    rewrite <- (Permutation_length Hperm).
    apply flat_map_length_le.
    + intros i. apply (proj1 (edge_at_length params order rows i)).
    + apply (proj2 (edge_at_length params order rows 0)).
  - intros ->. apply Permutation_nil_r in Hperm as ->. reflexivity.
Qed.

Lemma stitch_within_strike_witness :
  stitch_lightning_strike examples.two_point_params [1; 0]%nat examples.fast_events
  = Ok [(0, 1)]%nat
  ∧ within [1; 0]%nat [(0, 1)]%nat
  ∧ (length [(0, 1)]%nat ≤ length [1; 0]%nat - 1)%nat.
Proof.
  assert (stitch_lightning_strike examples.two_point_params [1; 0]%nat
            examples.fast_events = Ok [(0, 1)]%nat) as Hrun
    by (vm_compute; reflexivity).
  split; [exact Hrun|].
  destruct (stitch_within_strike _ _ _ _ Hrun) as (Hin & Hlen & _).
  split; [exact Hin|exact Hlen].
Defined.

Lemma stitch_nodes params strike events corrs :
  stitch_lightning_strike params strike events = Ok corrs →
  corrs ≠ [] →
  (get (min_lightning_points params) 300 ≤ Z.of_nat (size (unique_indices corrs)))%Z
  ∧ (size (unique_indices corrs) ≤ length strike)%nat.
Proof.
  intros Hok Hne. split.
  - destruct (stitch_raw _ _ _ _ Hok) as (order & rows & Hperm & Hrows & Hcorrs).
    revert Hne. rewrite Hcorrs. apply filter_chain_size_nodes.
  - pose proof (stitch_within_strike_aux params strike events corrs Hok) as Hin.
    etransitivity; [apply subseteq_size, (within_unique_indices strike), Hin|].
    apply size_list_to_set_le.
Qed.

Lemma stitch_short params strike events corrs :
  stitch_lightning_strike params strike events = Ok corrs →
  (Z.of_nat (length strike) < get (min_lightning_points params) 300)%Z →
  corrs = [].
Proof.
  intros Hok Hshort. destruct corrs as [|pc corrs]; [done|].
  destruct (stitch_nodes _ _ _ _ Hok) as [Hlo Hhi]; [done|]. lia.
Qed.

(** X20.  A chain needs [min_lightning_points] events.  A strike with
    fewer indices than [min_lightning_points] (300 when the key is
    absent) gets no correlation at all; and a list of correlations that
    is not empty touches at least [min_lightning_points] events, all of
    them of the strike. *)
Theorem stitch_needs_min_points params strike events corrs :
  stitch_lightning_strike params strike events = Ok corrs →
  let min_pts := get (min_lightning_points params) 300%Z in
  ((Z.of_nat (length strike) < min_pts)%Z → corrs = [])
  ∧ (corrs ≠ [] →
     (min_pts ≤ Z.of_nat (size (unique_indices corrs)))%Z
     ∧ (size (unique_indices corrs) ≤ length strike)%nat).
Proof.
  intros Hok min_pts. split.
  - by apply (stitch_short params strike events).
  - by apply (stitch_nodes params strike events).
Qed.

Lemma stitch_needs_min_points_witness :
  stitch_lightning_strike no_params [0; 1]%nat examples.fast_events = Ok []
  ∧ stitch_lightning_strike examples.two_point_params [0; 1]%nat examples.fast_events
    = Ok [(0, 1)]%nat
  ∧ (2 ≤ Z.of_nat (size (unique_indices [(0, 1)]%nat)))%Z.
Proof.
  assert (stitch_lightning_strike examples.two_point_params [0; 1]%nat
            examples.fast_events = Ok [(0, 1)]%nat) as Hrun
    by (vm_compute; reflexivity).
  split; [vm_compute; reflexivity|]. split; [exact Hrun|].
  destruct (stitch_needs_min_points _ _ _ _ Hrun) as [_ Hnodes].
  by destruct Hnodes.
Defined.

Lemma mapM_cons {A B} (f : A → result B) x l :
  mapM f (x :: l) = y ← f x; k ← mapM f l; Ok (y :: k).
Proof. reflexivity. Qed.






End strike_chains.

(** ** The chain merger *)

Section chain_merger.
Import lightning_stitcher chain_spec chain_builder_spec stitcher_spec.
Variable params : Params.
Variable events : DataFrame.

Lemma sort_correlations_perm times corr sorted_corr :
  sort_correlations times corr = Ok sorted_corr → sorted_corr ≡ₚ corr.
Proof.
  unfold sort_correlations. intros Hok.
  apply bind_Ok in Hok as (keyed & Hkeyed & [= <-]).
  rewrite sort_by_key_perm. apply mapM_Ok in Hkeyed.
  assert (keyed.*1 = corr) as ->; [|done].
  induction Hkeyed as [|c k corr keyed Hc _ IH]; [done|].
  apply bind_Ok in Hc as (t & _ & [= <-]). csimpl. by rewrite IH.
Qed.

Lemma within_perm indices corr corr' :
  corr' ≡ₚ corr → within indices corr → within indices corr'.
Proof. intros Hperm Hin p c Hpc. apply Hin. by rewrite <- Hperm. Qed.

Lemma within_app indices corr corr' :
  within indices corr → within indices corr' → within indices (corr ++ corr').
Proof. intros H1 H2 p c [?|?]%elem_of_app; auto. Qed.

Lemma within_elements indices corr :
  within indices corr → ∀ u, u ∈ elements (unique_indices corr) → u ∈ indices.
Proof.
  intros Hin u Hu%elem_of_elements%elem_of_unique_indices.
  destruct Hu as (v & [Huv|Hvu]); [by apply (Hin u v)|by apply (Hin v u)].
Qed.

Lemma within_trans indices indices' corr :
  (∀ u, u ∈ indices' → u ∈ indices) → within indices' corr → within indices corr.
Proof. intros Hsub Hin p c Hpc. destruct (Hin p c Hpc). auto. Qed.

Lemma merge_into_within max_distance_sq indices sorted_corr st et x1 y1 z1 temp temp' :
  Forall (within indices) temp → within indices sorted_corr →
  merge_into params max_distance_sq events sorted_corr st et x1 y1 z1 temp
    = Ok (Some temp') →
  Forall (within indices) temp' ∧ length temp' = length temp.
Proof.
  intros Htemp Hsorted. revert temp' Htemp.
  induction temp as [|temp_corr rest IH]; intros temp' Htemp; [done|].
  apply Forall_cons in Htemp as [Hcorr Hrest]. cbn [merge_into]. intros Hok.
  apply bind_Ok in Hok as (temp_start & _ & Hok).
  apply bind_Ok in Hok as (temp_last & _ & Hok).
  apply bind_Ok in Hok as (hit & _ & Hok).
  destruct hit.
  - apply bind_Ok in Hok as (merged & Hmerged & Hok).
    apply bind_Ok in Hok as (merged' & Hsort & [= <-]).
    split; [|done]. constructor; [|done].
    apply within_perm with merged; [by eapply sort_correlations_perm|].
    eapply within_trans; [|by eapply stitch_within_strike_aux].
    apply within_elements. by apply within_app.
  - apply bind_Ok in Hok as (found & Hfound & Hok).
    destruct found as [rest'|]; [|done]. injection Hok as <-.
    destruct (IH rest' Hrest Hfound) as [Hwithin Hlen].
    split; [by constructor|]. simpl. by rewrite Hlen.
Qed.

Lemma merge_step_within max_distance_sq indices temp correlations temp' :
  Forall (within indices) temp → within indices correlations →
  merge_step params max_distance_sq events temp correlations = Ok temp' →
  Forall (within indices) temp'
  ∧ (length temp' ≤ S (length temp))%nat
  ∧ (correlations = [] → temp' = temp).
Proof.
  intros Htemp Hcorr. unfold merge_step. case_decide as Hempty.
  { intros [= <-]. split; [done|]. split; [lia|done]. }
  intros Hok.
  apply bind_Ok in Hok as (sorted_corr & Hsort & Hok).
  apply bind_Ok in Hok as (start_idx & _ & Hok).
  apply bind_Ok in Hok as (end_idx & _ & Hok).
  apply bind_Ok in Hok as (start_time & _ & Hok).
  apply bind_Ok in Hok as (end_time & _ & Hok).
  apply bind_Ok in Hok as (x1 & _ & Hok).
  apply bind_Ok in Hok as (y1 & _ & Hok).
  apply bind_Ok in Hok as (z1 & _ & Hok).
  apply bind_Ok in Hok as (found & Hfound & Hok).
  assert (within indices sorted_corr) as Hsorted
    by (apply within_perm with correlations; [by eapply sort_correlations_perm|done]).
  assert (correlations ≠ []) as Hne by (intros ->; done).
  destruct found as [merged|]; injection Hok as <-.
  - destruct (merge_into_within _ _ _ _ _ _ _ _ _ _ Htemp Hsorted Hfound) as [Hw Hlen].
    split; [done|]. split; [lia|done].
  - split; [|split; [|done]].
    + apply Forall_app. split; [done|]. by constructor.
    + rewrite length_app. simpl. lia.
Qed.

Lemma merge_loop_within max_distance_sq indices todo temp out :
  Forall (within indices) todo → Forall (within indices) temp →
  merge_loop params max_distance_sq events todo temp = Ok out →
  Forall (within indices) out ∧ (length out ≤ length temp + length todo)%nat.
Proof.
  revert temp. induction todo as [|correlations todo IH]; intros temp Htodo Htemp; simpl.
  - intros [= <-]. split; [done|lia].
  - apply Forall_cons in Htodo as [Hcorr Htodo]. intros Hok.
    apply bind_Ok in Hok as (temp' & Hstep & Hok).
    destruct (merge_step_within _ _ _ _ _ Htemp Hcorr Hstep) as (Hw & Hlen & _).
    destruct (IH temp' Htodo Hw Hok) as [Hout Hlen']. split; [done|lia].
Qed.

Lemma merge_loop_empty max_distance_sq n temp :
  merge_loop params max_distance_sq events (replicate n []) temp = Ok temp.
Proof. induction n as [|n IH]; [done|]. simpl. apply IH. Qed.

Lemma stitch_each strikes bucketed_correlations :
  mapM (λ strike_indices, stitch_lightning_strike params strike_indices events) strikes
    = Ok bucketed_correlations →
  Forall2 (λ strike corr, stitch_lightning_strike params strike events = Ok corr)
    strikes bucketed_correlations.
Proof. intros Hok. by apply mapM_Ok in Hok. Qed.

(** X22.  The chain merger adds no event.  Whatever is merged, every
    list of correlations [stitch_lightning_strikes] returns joins events
    of the strikes it was given, and there are no more lists than
    strikes; with the merge pass off there is exactly one list per
    strike, the one [stitch_lightning_strike] gives for it. *)
Theorem merger_within strikes out :
  stitch_lightning_strikes params strikes events = Ok out →
  (length out ≤ length strikes)%nat
  ∧ Forall (within (concat strikes)) out
  ∧ (combine_strikes_with_intercepting_times params = Some false →
     Forall2 (λ strike corr, stitch_lightning_strike params strike events = Ok corr)
       strikes out).
Proof.
  unfold stitch_lightning_strikes. intros Hok.
  apply bind_Ok in Hok as (bucketed_correlations & Heach%stitch_each & Hok).
  assert (Forall (within (concat strikes)) bucketed_correlations) as Hall.
  { clear Hok. induction Heach as [|strike corr strikes bc Hrun _ IH]; [constructor|].
    constructor.
    - eapply within_trans; [|by eapply stitch_within_strike_aux].
      intros u Hu. simpl. apply elem_of_app. by left.
    - eapply Forall_impl; [exact IH|]. intros corr' Hin. simpl.
      eapply within_trans; [|exact Hin]. intros u Hu. apply elem_of_app. by right. }
  pose proof (Forall2_length _ _ _ Heach) as Hlen.
  apply bind_Ok in Hok as (sq & _ & Hok).
  destruct (get (combine_strikes_with_intercepting_times params) true) eqn:Hcombine.
  - destruct (merge_loop_within _ _ _ _ _ Hall (Forall_nil_2 _) Hok) as [Hout Hle].
    split; [simpl in Hle; lia|]. split; [done|].
    intros Hoff. rewrite Hoff in Hcombine. done.
  - injection Hok as <-. split; [lia|]. split; [done|]. done.
Qed.

(** X23.  Strikes that are too short leave no trace.  When every strike
    has fewer indices than [min_lightning_points],
    [stitch_lightning_strikes] returns the empty list if the merge pass
    is on (the default), and one empty list per strike if it is off. *)
Theorem short_strikes_vanish strikes out :
  stitch_lightning_strikes params strikes events = Ok out →
  Forall (λ strike,
            (Z.of_nat (length strike) < get (min_lightning_points params) 300)%Z)
    strikes →
  out = if get (combine_strikes_with_intercepting_times params) true
        then [] else replicate (length strikes) [].
Proof.
  unfold stitch_lightning_strikes. intros Hok Hshort.
  apply bind_Ok in Hok as (bucketed_correlations & Heach%stitch_each & Hok).
  assert (bucketed_correlations = replicate (length strikes) []) as ->.
  { clear Hok. induction Heach as [|strike corr strikes bc Hrun _ IH]; [done|].
    apply Forall_cons in Hshort as [Hs Hrest]. simpl.
    rewrite (stitch_short _ _ _ _ Hrun Hs). f_equal. by apply IH. }
  apply bind_Ok in Hok as (sq & _ & Hok).
  destruct (get (combine_strikes_with_intercepting_times params) true).
  - rewrite merge_loop_empty in Hok. by injection Hok as <-.
  - by injection Hok as <-.
Qed.

End chain_merger.

Lemma merger_within_witness :
  lightning_stitcher.stitch_lightning_strikes examples.two_point_params
    [[0; 1]]%nat examples.fast_events
  = Ok [[(0, 1)]]%nat
  ∧ Forall (stitcher_spec.within (concat [[0; 1]]%nat)) [[(0, 1)]]%nat.
Proof.
  assert (lightning_stitcher.stitch_lightning_strikes examples.two_point_params
            [[0; 1]]%nat examples.fast_events
          = Ok [[(0, 1)]]%nat) as Hrun by (vm_compute; reflexivity).
  split; [exact Hrun|].
  exact (proj1 (proj2 (merger_within _ _ _ _ Hrun))).
Defined.

Lemma short_strikes_vanish_witness :
  lightning_stitcher.stitch_lightning_strikes no_params [[0; 1]]%nat examples.fast_events
  = Ok []
  ∧ Forall (λ strike, (Z.of_nat (length strike) < get (min_lightning_points no_params) 300)%Z)
      [[0; 1]]%nat
  ∧ lightning_stitcher.stitch_lightning_strikes
      (stitcher_spec.with_combine false no_params) [[0; 1]]%nat examples.fast_events
    = Ok [[]]
  ∧ [[]] = (if get (combine_strikes_with_intercepting_times
                      (stitcher_spec.with_combine false no_params)) true
            then [] else replicate (length [[0; 1]]%nat) ([] : list (nat * nat))).
Proof.
  assert (lightning_stitcher.stitch_lightning_strikes no_params [[0; 1]]%nat
            examples.fast_events = Ok []) as Hon by (vm_compute; reflexivity).
  assert (lightning_stitcher.stitch_lightning_strikes
            (stitcher_spec.with_combine false no_params) [[0; 1]]%nat
            examples.fast_events = Ok [[]]) as Hoff by (vm_compute; reflexivity).
  assert (Forall (λ strike,
            (Z.of_nat (length strike) < get (min_lightning_points no_params) 300)%Z)
            [[0; 1]]%nat) as Hshort by (repeat constructor).
  split; [exact Hon|]. split; [exact Hshort|]. split; [exact Hoff|].
  exact (short_strikes_vanish (stitcher_spec.with_combine false no_params)
           examples.fast_events [[0; 1]]%nat [[]] Hoff Hshort).
Defined.

(** ** The chunk scheduler, again *)

Section chunk_bound.
Import toolbox toolbox_spec.
Context {K : Type} `{EqDecision K}.
Implicit Types (items counter : list (K * Z)) (bin : list K).

Lemma chunk_loop_bound counter max items bin size :
  (∀ g n, (g, n) ∈ items → count_of counter g = n) →
  size = chunk_total counter bin →
  ((length bin ≤ 1)%nat ∨ (size ≤ max)%Z) →
  Forall (λ chunk, (length chunk ≤ 1)%nat ∨ (chunk_total counter chunk ≤ max)%Z)
    (chunk_loop max items bin size).
Proof.
  revert bin size. induction items as [|[g n] items IH]; intros bin size Hcount Hsize Hinv;
    simpl.
  - destruct bin; [constructor|]. constructor; [|constructor].
    destruct Hinv as [Hone|Hle]; [by left|right; by rewrite <- Hsize].
  - assert (count_of counter g = n) as Hg by (apply Hcount; left).
    assert (∀ g' n', (g', n') ∈ items → count_of counter g' = n') as Hrest
      by (intros g' n' Hin; apply Hcount; by right).
    case_bool_decide as Hc.
    + constructor.
      * destruct Hinv as [Hone|Hle]; [by left|right; by rewrite <- Hsize].
      * apply IH; [done| |left; simpl; lia].
        unfold chunk_total. simpl. rewrite Hg. lia.
    + apply IH; [done|by rewrite chunk_total_app, Hsize, Hg|].
      destruct bin as [|b bin]; [left; simpl; lia|].
      right. destruct (decide (max < size + n)%Z) as [Hover|Hfit]; [|lia].
      destruct Hc. split; [done|lia].
Qed.

Lemma chunk_loop_count max items bin size :
  (length (chunk_loop max items bin size) ≤ length items + 1)%nat.
Proof.
  revert bin size. induction items as [|[g n] items IH]; intros bin size; simpl.
  - destruct bin; simpl; lia.
  - case_bool_decide; simpl; [specialize (IH [g] n)|specialize (IH (bin ++ [g]) (size + n)%Z)];
      lia.
Qed.

Lemma chunk_loop_count_empty max items :
  (length (chunk_loop max items [] 0) ≤ length items)%nat.
Proof.
  destruct items as [|[g n] items]; [simpl; lia|].
  cbn [chunk_loop]. case_bool_decide as Hc; [by destruct Hc|].
  pose proof (chunk_loop_count max items ([] ++ [g]) (0 + n)). simpl in *. lia.
Qed.

(** X24.  The size of a chunk.  For a mapping with distinct keys and
    any counts, a chunk of [chunk_items] holds either one key or keys
    whose counts add up to at most [max_chunk_size]: only a single group
    can exceed the limit.  There are at most as many chunks as keys. *)
Theorem chunk_items_bound counter (max_chunk_size : Z) :
  NoDup counter.*1 →
  Forall (λ chunk, (length chunk ≤ 1)%nat
                   ∨ (chunk_total counter chunk ≤ max_chunk_size)%Z)
    (chunk_items counter max_chunk_size)
  ∧ (length (chunk_items counter max_chunk_size) ≤ length counter)%nat.
Proof.
  intros Hnd. unfold chunk_items. split.
  - apply chunk_loop_bound; [|done|left; simpl; lia].
    intros g n Hin. by apply count_of_lookup.
  - apply chunk_loop_count_empty.
Qed.

End chunk_bound.

Lemma chunk_items_bound_witness :
  let counter := [(0%nat, 3%Z); (1%nat, 2%Z); (2%nat, 7%Z); (3%nat, 1%Z)] in
  NoDup counter.*1
  ∧ toolbox.chunk_items counter 5 = [[0%nat; 1%nat]; [2%nat]; [3%nat]]
  ∧ Forall (λ chunk, (length chunk ≤ 1)%nat
                     ∨ (toolbox_spec.chunk_total counter chunk ≤ 5)%Z)
      [[0%nat; 1%nat]; [2%nat]; [3%nat]].
Proof.
  intros counter.
  assert (NoDup counter.*1) as Hnd by (vm_compute; repeat constructor; set_solver).
  split; [exact Hnd|]. split; [reflexivity|].
  exact (proj1 (chunk_items_bound counter 5 Hnd)).
Defined.

(** ** What the cluster engine does to the table *)

Section bucket_table.
Import lightning_bucketer.

Lemma sort_by_key_sorted_id {A} (l : list (A * Q)) :
  StronglySorted key_le l → sort_by_key l = l.
Proof.
  induction 1 as [|x l Hsorted IH Hall]; [done|].
  unfold sort_by_key in *. simpl. rewrite IH.
  destruct l as [|h l]; [done|]. simpl.
  apply Forall_cons in Hall as [Hxh _]. by rewrite decide_True.
Qed.

Lemma sort_values_sorted_id df :
  StronglySorted Qle (values time_unix df) → sort_values df = df.
Proof.
  intros Hsorted. unfold sort_values. rewrite sort_by_key_sorted_id.
  - rewrite <- list_fmap_compose. apply list_fmap_id.
  - unfold values in Hsorted. induction df as [|r df IH]; [constructor|].
    csimpl in *. apply StronglySorted_inv in Hsorted as [Hs Hall].
    constructor; [by apply IH|]. apply Forall_fmap.
    rewrite Forall_fmap in Hall. eapply Forall_impl; [exact Hall|]. done.
Qed.

Lemma StronglySorted_Qlt_Qle (l : list Q) :
  StronglySorted Qlt l → StronglySorted Qle l.
Proof.
  induction 1 as [|x l _ IH Hall]; constructor; [done|].
  eapply Forall_impl; [exact Hall|]. intros y Hy. by apply Qlt_le_weak.
Qed.

(** X25.  The cluster engine sorts the caller's table.  Whenever
    [_bucket_dataframe_lightnings] returns, the table it leaves behind
    holds the same rows in ascending time order, it is the table as given
    when that was in strictly ascending time order already, and the
    strikes list positions of this sorted table.  It returns on every
    table with at least one event when the three thresholds it squares
    can be squared. *)
Theorem bucket_sorts_table MAX_CHUNK_SIZE df thr dur dist maxs mins min_pts :
  (∀ df' strikes,
     _bucket_dataframe_lightnings MAX_CHUNK_SIZE df thr dur dist maxs mins min_pts
       = Ok (df', strikes) →
     df' ≡ₚ df
     ∧ StronglySorted Qle (values time_unix df')
     ∧ (StronglySorted Qlt (values time_unix df) → df' = df)
     ∧ Forall (Forall (λ a, a < length df')%nat) strikes)
  ∧ (df ≠ [] → squarable dist → squarable mins → squarable maxs →
     ∃ df' strikes,
       _bucket_dataframe_lightnings MAX_CHUNK_SIZE df thr dur dist maxs mins min_pts
       = Ok (df', strikes)).
Proof.
  split.
  - intros df' strikes Hrun.
    pose proof (bucket_strikes_distinct _ _ _ _ _ _ _ _ _ _ Hrun) as Hall.
    destruct (bucket_strikes_bounded _ _ _ _ _ _ _ _ _ _ Hrun) as [-> _].
    split; [apply sort_values_perm|]. split; [apply sort_values_sorted|].
    split; [intros Hsorted; by apply sort_values_sorted_id, StronglySorted_Qlt_Qle|].
    eapply Forall_impl; [exact Hall|]. by intros strike [_ Hlt].
  - intros Hne Hd Hmin Hmax.
    destruct (bucket_total MAX_CHUNK_SIZE df thr dur dist maxs mins min_pts
                Hne Hd Hmin Hmax) as [strikes Hrun].
    by exists (sort_values df), strikes.
Qed.

Lemma bucket_sorts_table_witness :
  _bucket_dataframe_lightnings 50000 cache_spec.unsorted_events 1 20 50000
      (299792458 # 1000) 0 1
    = Ok (sort_values cache_spec.unsorted_events, [[0]; [1; 2]]%nat)
  ∧ sort_values cache_spec.unsorted_events ≡ₚ cache_spec.unsorted_events
  ∧ StronglySorted Qle (values time_unix (sort_values cache_spec.unsorted_events)).
Proof.
  assert (_bucket_dataframe_lightnings 50000 cache_spec.unsorted_events 1 20 50000
            (299792458 # 1000) 0 1
          = Ok (sort_values cache_spec.unsorted_events, [[0]; [1; 2]]%nat)) as Hrun
    by (vm_compute; reflexivity).
  split; [exact Hrun|].
  destruct (proj1 (bucket_sorts_table 50000 cache_spec.unsorted_events 1 20 50000
                     (299792458 # 1000) 0 1) _ _ Hrun) as (Hperm & Hsorted & _).
  split; [exact Hperm|exact Hsorted].
Defined.




End bucket_table.

(** ** The directory hash *)

Section directory_hash_proofs.
Import toolbox.
Variable sha256_hexdigest : string → string.
Variable format_float : Q → string.

Local Abbreviation dir_hash := (compute_directory_hash sha256_hexdigest format_float).

Lemma string_compare_trans (s1 s2 s3 : string) :
  String.compare s1 s2 ≠ Gt → String.compare s2 s3 ≠ Gt → String.compare s1 s3 ≠ Gt.
Proof.
  revert s2 s3. induction s1 as [|c1 s1 IH]; intros [|c2 s2] [|c3 s3]; simpl; try done.
  unfold Ascii.compare.
  destruct (N.compare_spec (Ascii.N_of_ascii c1) (Ascii.N_of_ascii c2)) as [E12|L12|G12];
    destruct (N.compare_spec (Ascii.N_of_ascii c2) (Ascii.N_of_ascii c3)) as [E23|L23|G23];
    destruct (N.compare_spec (Ascii.N_of_ascii c1) (Ascii.N_of_ascii c3)) as [E13|L13|G13];
    try done; try lia.
  apply IH.
Qed.

#[local] Instance string_le_trans : Transitive string_le.
Proof.
  intros s1 s2 s3. unfold string_le, String.leb. intros H12 H23.
  pose proof (string_compare_trans s1 s2 s3) as Htrans.
  destruct (String.compare s1 s2), (String.compare s2 s3), (String.compare s1 s3);
    try done; exfalso; by apply Htrans.
Qed.

#[local] Instance string_le_total : Total string_le.
Proof. intros s1 s2. apply String.leb_total. Qed.

#[local] Instance string_le_antisym : AntiSymm (=) string_le.
Proof. intros s1 s2. apply String.leb_antisym. Qed.

Lemma sorted_items_perm (items items' : list string) :
  items ≡ₚ items' → merge_sort string_le items = merge_sort string_le items'.
Proof.
  intros Hperm. apply (StronglySorted_unique string_le).
  - apply StronglySorted_merge_sort; apply _.
  - apply StronglySorted_merge_sort; apply _.
  - by rewrite !merge_sort_Permutation.
Qed.

Lemma dir_hash_perm listing listing' :
  listing ≡ₚ listing' → dir_hash listing = dir_hash listing'.
Proof.
  intros Hperm. unfold compute_directory_hash. f_equal.
  apply sorted_items_perm. by rewrite Hperm.
Qed.

(** X27.  The directory hash does not depend on the order of
    [os.listdir].  Two listings with the same entries in any order get
    the same hash; names that are neither a file nor a directory do not
    count; and the strings that are hashed are in ascending order. *)
Theorem directory_hash_order listing listing' :
  listing ≡ₚ listing' →
  dir_hash listing = dir_hash listing'
  ∧ dir_hash (filter (λ entry, is_file_or_dir entry = true) listing) = dir_hash listing
  ∧ ∃ items,
      dir_hash listing = hash_string_list sha256_hexdigest items
      ∧ StronglySorted string_le items
      ∧ items ≡ₚ item_of format_float
                   <$> filter (λ entry, is_file_or_dir entry = true) listing.
Proof.
  intros Hperm. split; [by apply dir_hash_perm|]. split.
  - unfold compute_directory_hash. by rewrite list_filter_filter_l.
  - eexists. split; [reflexivity|]. split.
    + apply StronglySorted_merge_sort; apply _.
    + apply merge_sort_Permutation.
Qed.

(** X28.  The quick cache.  After [save_cache_quick], [is_cached]
    holds for the same directory listing in any order; it fails when the
    cache file is absent or unreadable; and it holds for a stored hash
    exactly when that is the hash of the listing. *)
Theorem is_cached_round_trip listing listing' :
  listing' ≡ₚ listing →
  is_cached sha256_hexdigest format_float listing'
    (save_cache_quick sha256_hexdigest format_float listing) = true
  ∧ is_cached sha256_hexdigest format_float listing NoHashFile = false
  ∧ is_cached sha256_hexdigest format_float listing UnreadableHash = false
  ∧ ∀ stored,
      is_cached sha256_hexdigest format_float listing (StoredHash stored) = true
      ↔ dir_hash listing = stored.
Proof.
  intros Hperm. split; [|split; [done|split; [done|]]].
  - unfold is_cached, save_cache_quick. apply bool_decide_eq_true.
    by apply dir_hash_perm.
  - intros stored. unfold is_cached. apply bool_decide_eq_true.
Qed.

End directory_hash_proofs.

Lemma directory_hash_order_witness :
  let a := {| toolbox.entry_name := "a"; toolbox.is_file_or_dir := true;
              toolbox.entry_times := None |} in
  let b := {| toolbox.entry_name := "b"; toolbox.is_file_or_dir := true;
              toolbox.entry_times := None |} in
  [b; a] ≡ₚ [a; b]
  ∧ toolbox.compute_directory_hash id (λ _, "0"%string) [b; a]
    = toolbox.compute_directory_hash id (λ _, "0"%string) [a; b].
Proof.
  intros a b.
  assert ([b; a] ≡ₚ [a; b]) as Hperm by apply Permutation_swap.
  split; [exact Hperm|].
  exact (proj1 (directory_hash_order id (λ _, "0"%string) [b; a] [a; b] Hperm)).
Defined.

Lemma is_cached_round_trip_witness :
  let a := {| toolbox.entry_name := "a"; toolbox.is_file_or_dir := true;
              toolbox.entry_times := None |} in
  let b := {| toolbox.entry_name := "b"; toolbox.is_file_or_dir := true;
              toolbox.entry_times := None |} in
  [b; a] ≡ₚ [a; b]
  ∧ toolbox.is_cached id (λ _, "0"%string) [b; a]
      (toolbox.save_cache_quick id (λ _, "0"%string) [a; b]) = true.
Proof.
  intros a b.
  assert ([b; a] ≡ₚ [a; b]) as Hperm by apply Permutation_swap.
  split; [exact Hperm|].
  exact (proj1 (is_cached_round_trip id (λ _, "0"%string) [a; b] [b; a] Hperm)).
Defined.

(** ** The CSV export *)

Section export_proofs.
Import lightning_bucketer export_spec.
Variable safe_start_time : Q → result string.
Local Arguments String.append !_ _ / : simpl nomatch.

Local Abbreviation export := (export_as_csv safe_start_time).

Lemma string_length_append (s1 s2 : string) :
  String.length (s1 +:+ s2) = (String.length s1 + String.length s2)%nat.
Proof. induction s1 as [|a s1 IH]; simpl; [done|]. by rewrite IH. Qed.

Lemma string_append_inj_r (s1 s2 t : string) : s1 +:+ t = s2 +:+ t → s1 = s2.
Proof.
  revert s2. induction s1 as [|a s1 IH]; intros [|b s2]; simpl; [done| | |].
  - intros Heq%(f_equal String.length). simpl in Heq.
    rewrite string_length_append in Heq. lia.
  - intros Heq%(f_equal String.length). simpl in Heq.
    rewrite string_length_append in Heq. lia.
  - intros [= -> Heq]. f_equal. by apply IH.
Qed.

Lemma csv_name_inj stem k k' :
  csv_name stem (Some k) = csv_name stem (Some k') → k = k'.
Proof.
  unfold csv_name. intros Heq%String.app_inj%String.app_inj.
  apply string_append_inj_r in Heq. by apply (inj pretty) in Heq.
Qed.

Lemma free_name_fresh fuel files stem output_filename counter name :
  free_name fuel files stem output_filename counter = Some name →
  files !! name = None.
Proof.
  revert output_filename counter. induction fuel as [|fuel IH];
    intros output_filename counter; simpl; case_decide as Hex; try done.
  - intros [= <-]. by apply eq_None_not_Some.
  - apply IH.
  - intros [= <-]. by apply eq_None_not_Some.
Qed.

Lemma free_name_taken fuel files stem output_filename counter :
  free_name fuel files stem output_filename counter = None →
  ∀ k, (counter ≤ k < counter + fuel)%nat → is_Some (files !! csv_name stem (Some k)).
Proof.
  revert output_filename counter. induction fuel as [|fuel IH];
    intros output_filename counter; simpl; case_decide as Hex; try done.
  - intros _ k Hk. lia.
  - intros Hnone k Hk. destruct (decide (k = counter)) as [->|Hne].
    + destruct fuel; simpl in Hnone; by case_decide.
    + apply (IH _ _ Hnone). lia.
Qed.

Lemma free_name_enough fuel files stem output_filename counter :
  (size files < fuel)%nat →
  ∃ name, free_name fuel files stem output_filename counter = Some name.
Proof.
  intros Hfuel.
  destruct (free_name fuel files stem output_filename counter) as [name|] eqn:Hfree;
    [by exists name|]. exfalso.
  pose proof (free_name_taken _ _ _ _ _ Hfree) as Htaken.
  set (names := (λ k, csv_name stem (Some k)) <$> seq counter fuel).
  assert (NoDup names) as Hnd.
  { apply NoDup_fmap_2; [|apply NoDup_seq]. intros k k'. apply csv_name_inj. }
  assert (list_to_set names ⊆ dom files) as Hsub.
  { intros name Hin%elem_of_list_to_set%list_elem_of_fmap.
    destruct Hin as (k & -> & Hk%elem_of_seq). apply elem_of_dom. apply Htaken. lia. }
  apply subseteq_size in Hsub. rewrite size_list_to_set in Hsub by done.
  rewrite size_dom in Hsub. unfold names in Hsub.
  rewrite length_fmap, length_seq in Hsub. lia.
Qed.

Lemma take_indices_raises {A} (a : list A) idx e :
  take_indices a idx = Raise e → e = IndexError.
Proof.
  unfold take_indices. induction idx as [|i idx IH]; [done|]. rewrite mapM_cons.
  destruct (getitem a i) as [v|e0] eqn:Hget; simpl.
  - destruct (mapM (getitem a) idx) eqn:Hl; simpl; [done|].
    intros [= <-]. by apply IH.
  - intros [= <-]. unfold getitem in Hget. destruct (a !! i); congruence.
Qed.

Lemma exportable_rows events indices rows :
  iloc events indices = Ok rows → sort_values rows ≠ [] → exportable events indices.
Proof.
  intros Hrows Hne. split.
  - intros ->. apply take_indices_length in Hrows.
    destruct rows; [|done]. by apply Hne.
  - apply Forall_forall. intros i Hi. apply list_elem_of_lookup in Hi as [k Hk].
    by destruct (take_indices_lookup _ _ _ _ _ Hrows Hk).
Qed.

(** The files before, the files after, and what was written for each
    strike. *)
Lemma export_inv fuel bucketed events files res files' :
  export fuel bucketed events files = Some (res, files') →
  (∀ name, is_Some (files !! name) → files' !! name = files !! name)
  ∧ (size files ≤ size files' ≤ size files + length bucketed)%nat
  ∧ (res = Ok tt →
     size files' = (size files + length bucketed)%nat
     ∧ Forall (λ indices,
         writable safe_start_time events indices
         ∧ ∃ name rows,
             iloc events indices = Ok rows
             ∧ files !! name = None
             ∧ files' !! name = Some (sort_values rows)) bucketed)
  ∧ (∀ e, res = Raise e →
     ∃ written failing rest,
       bucketed = written ++ failing :: rest
       ∧ Forall (writable safe_start_time events) written
       ∧ size files' = (size files + length written)%nat
       ∧ ((¬ exportable events failing ∧ e = IndexError)
          ∨ (exportable events failing
             ∧ ∃ t, start_time events failing = Some t
                    ∧ safe_start_time t = Raise e))).
Proof.
  revert files. induction bucketed as [|indices rest IH]; intros files; simpl.
  { intros [= <- <-]. split; [done|]. split; [lia|]. split; [|done].
    intros _. split; [lia|constructor]. }
  destruct (iloc events indices) as [rows|e] eqn:Hrows.
  2:{ intros [= <- <-]. split; [done|]. split; [lia|]. split; [done|].
      intros e' [= <-].
      assert (¬ Forall (λ i, i < length events)%nat indices) as Hout.
      { intros Hall. destruct (take_indices_total events indices Hall) as [rows Hok].
        unfold iloc in Hrows. congruence. }
      exists [], indices, rest. split; [done|]. split; [constructor|].
      split; [simpl; lia|]. left.
      split; [by intros [_ ?]|by eapply take_indices_raises]. }
  pose proof (take_indices_length _ _ _ Hrows) as Hlen.
  destruct (sort_values rows) as [|first sorted] eqn:Hsorted.
  { intros [= <- <-]. split; [done|]. split; [lia|]. split; [done|].
    intros e [= <-]. exists [], indices, rest.
    split; [done|]. split; [constructor|]. split; [simpl; lia|]. left.
    split; [|done]. intros [Hne _]. apply Hne.
    apply (f_equal length) in Hsorted. rewrite sort_values_length in Hsorted.
    simpl in Hsorted. apply length_zero_iff_nil. lia. }
  assert (exportable events indices) as Hexp
    by (apply (exportable_rows events indices rows Hrows); by rewrite Hsorted).
  assert (start_time events indices = Some (time_unix first)) as Hstart
    by (unfold start_time; by rewrite Hrows, Hsorted).
  destruct (safe_start_time (time_unix first)) as [stem|e] eqn:Hstem.
  2:{ intros [= <- <-]. split; [done|]. split; [lia|]. split; [done|].
      intros e' [= <-]. exists [], indices, rest.
      split; [done|]. split; [constructor|]. split; [simpl; lia|]. right.
      split; [done|]. by exists (time_unix first). }
  destruct (free_name _ _ _ _ _) as [name|] eqn:Hfree; [|done].
  apply free_name_fresh in Hfree.
  intros Hrun. destruct (IH _ Hrun) as (Hkeep & Hsize & Hok & Hraise).
  rewrite map_size_insert_None in Hsize by done.
  rewrite map_size_insert_None in Hok by done.
  setoid_rewrite map_size_insert_None in Hraise; [|done].
  assert (files' !! name = Some (first :: sorted)) as Hwritten.
  { rewrite Hkeep; [by rewrite lookup_insert_eq|]. rewrite lookup_insert_eq. by eexists. }
  assert (writable safe_start_time events indices) as Hwr.
  { split; [done|]. by exists (time_unix first), stem. }
  split; [|split; [lia|split]].
  - intros name' Hex. rewrite Hkeep.
    + apply lookup_insert_ne. intros ->. rewrite Hfree in Hex. by destruct Hex.
    + destruct (decide (name = name')) as [->|Hne];
        [rewrite lookup_insert_eq; by eexists|by rewrite lookup_insert_ne].
  - intros Hres. destruct (Hok Hres) as [Hsz Hall]. split; [lia|]. constructor.
    + split; [done|]. exists name, rows. by rewrite Hsorted.
    + eapply Forall_impl; [exact Hall|].
      intros indices' (Hexp' & name' & rows' & Hrows' & Hfresh & Hw).
      split; [done|]. exists name', rows'. split; [done|]. split; [|done].
      destruct (decide (name = name')) as [->|Hne];
        [by rewrite lookup_insert_eq in Hfresh|by rewrite lookup_insert_ne in Hfresh].
  - intros e He.
    destruct (Hraise e He) as (written & failing & rest' & -> & Hw & Hsz & Hwhy).
    exists (indices :: written), failing, rest'.
    split; [done|]. split; [by constructor|]. split; [simpl; lia|done].
Qed.

Lemma export_enough fuel bucketed events files :
  (size files + length bucketed ≤ fuel)%nat →
  ∃ res files', export fuel bucketed events files = Some (res, files').
Proof.
  revert files. induction bucketed as [|indices rest IH]; intros files Hfuel; simpl.
  { by eexists _, _. }
  destruct (iloc events indices) as [rows|e]; [|by eexists _, _].
  destruct (sort_values rows) as [|first sorted]; [by eexists _, _|].
  destruct (safe_start_time (time_unix first)) as [stem|e]; [|by eexists _, _].
  match goal with
  | |- context [free_name ?f ?fs ?st ?n ?c] =>
      destruct (free_name_enough f fs st n c) as [name Hname]
  end.
  { simpl in Hfuel. lia. }
  rewrite Hname. apply IH.
  pose proof (free_name_fresh _ _ _ _ _ _ Hname) as Hfresh.
  rewrite map_size_insert_None by done. simpl in Hfuel. lia.
Qed.

(** X29.  The export overwrites nothing.  Every file that was in the
    output directory is there afterwards with its content; when the
    export succeeds it has written one new file per strike, each under a
    name that was free, holding the rows of the strike in time order. *)
Theorem export_overwrites_nothing fuel bucketed events files res files' :
  export fuel bucketed events files = Some (res, files') →
  (∀ name, is_Some (files !! name) → files' !! name = files !! name)
  ∧ (size files' ≤ size files + length bucketed)%nat
  ∧ (res = Ok tt →
     size files' = (size files + length bucketed)%nat
     ∧ Forall (λ indices,
         ∃ name rows,
           iloc events indices = Ok rows
           ∧ files !! name = None
           ∧ files' !! name = Some (sort_values rows)
           ∧ StronglySorted Qle (values time_unix (sort_values rows))) bucketed).
Proof.
  intros Hrun. destruct (export_inv _ _ _ _ _ _ Hrun) as (Hkeep & Hsize & Hok & _).
  split; [done|]. split; [lia|]. intros Hres. destruct (Hok Hres) as [Hsz Hall].
  split; [done|]. eapply Forall_impl; [exact Hall|].
  intros indices (_ & name & rows & Hrows & Hfresh & Hw).
  exists name, rows. repeat (split; [done|]). apply sort_values_sorted.
Qed.

(** X30.  When the export fails.  With at least as many turns allowed
    to each search for a free name as there are files and strikes
    together, the export comes to an end.  It succeeds exactly when every
    strike is non-empty, lists positions of the table, and has a start
    time that [fromtimestamp] accepts.  Otherwise it stops at the first
    strike for which this fails, after it has written one file for each
    strike before that one: with IndexError when the strike is empty or
    out of range, and else with the exception that [fromtimestamp] raises
    for its start time. *)
Theorem export_outcome fuel bucketed events files :
  (size files + length bucketed ≤ fuel)%nat →
  ∃ res files',
    export fuel bucketed events files = Some (res, files')
    ∧ (res = Ok tt ↔ Forall (writable safe_start_time events) bucketed)
    ∧ (∀ e, res = Raise e →
       ∃ written failing rest,
         bucketed = written ++ failing :: rest
         ∧ Forall (writable safe_start_time events) written
         ∧ size files' = (size files + length written)%nat
         ∧ ((¬ exportable events failing ∧ e = IndexError)
            ∨ (exportable events failing
               ∧ ∃ t, start_time events failing = Some t
                      ∧ safe_start_time t = Raise e))).
Proof.
  intros Hfuel. destruct (export_enough fuel bucketed events files Hfuel)
    as (res & files' & Hrun).
  exists res, files'. split; [done|].
  destruct (export_inv _ _ _ _ _ _ Hrun) as (_ & _ & Hok & Hraise).
  split; [split|done].
  - intros Hres. destruct (Hok Hres) as [_ Hall].
    eapply Forall_impl; [exact Hall|]. by intros indices [? _].
  - intros Hall. destruct res as [[]|e]; [done|].
    destruct (Hraise e eq_refl)
      as (written & failing & rest & -> & _ & _ & Hwhy).
    apply Forall_app in Hall as [_ Hall].
    apply Forall_cons in Hall as [[Hexp (t & stem & Ht & Hstem)] _].
    destruct Hwhy as [[Hno _]|(_ & t' & Ht' & Hfail)]; [done|].
    rewrite Ht in Ht'. injection Ht' as <-. congruence.
Qed.

End export_proofs.

Lemma export_overwrites_nothing_witness :
  lightning_bucketer.export_as_csv export_spec.numerator_name 2 [[1; 0]]%nat
    examples.fast_events {[ "0.csv"%string := [] ]}
  = Some (Ok tt, <[ "0_1.csv"%string := examples.fast_events ]> {[ "0.csv"%string := [] ]})
  ∧ (<[ "0_1.csv"%string := examples.fast_events ]> {[ "0.csv"%string := [] ]}
       : gmap string DataFrame) !! "0.csv"%string
    = ({[ "0.csv"%string := [] ]} : gmap string DataFrame) !! "0.csv"%string.
Proof.
  assert (lightning_bucketer.export_as_csv export_spec.numerator_name 2 [[1; 0]]%nat
            examples.fast_events {[ "0.csv"%string := [] ]}
          = Some (Ok tt, <[ "0_1.csv"%string := examples.fast_events ]>
                           {[ "0.csv"%string := [] ]})) as Hrun
    by (vm_compute; reflexivity).
  split; [exact Hrun|].
  apply (proj1 (export_overwrites_nothing _ _ _ _ _ _ _ Hrun)).
  rewrite lookup_singleton_eq. by eexists.
Defined.

Lemma export_outcome_witness :
  (size (∅ : gmap string DataFrame) + length [[0]; [1]; []]%nat ≤ 3)%nat
  ∧ lightning_bucketer.export_as_csv export_spec.numerator_name 3 [[0]; [1]; []]%nat
      export_spec.late_events ∅
    = Some (Raise ValueError,
            {[ "0.csv"%string := [ {| label := 0; col_x := 0; col_y := 0; col_z := 0;
                                      time_unix := 0 |} ] ]})
  ∧ ¬ Forall (export_spec.writable export_spec.numerator_name export_spec.late_events)
        [[0]; [1]; []]%nat.
Proof.
  assert (size (∅ : gmap string DataFrame) + length [[0]; [1]; []]%nat ≤ 3)%nat as Hfuel
    by (rewrite map_size_empty; simpl; lia).
  assert (lightning_bucketer.export_as_csv export_spec.numerator_name 3
            [[0]; [1]; []]%nat export_spec.late_events ∅
          = Some (Raise ValueError,
                  {[ "0.csv"%string := [ {| label := 0; col_x := 0; col_y := 0;
                                            col_z := 0; time_unix := 0 |} ] ]}))
    as Hrun by (vm_compute; reflexivity).
  split; [exact Hfuel|]. split; [exact Hrun|].
  destruct (export_outcome export_spec.numerator_name 3 [[0]; [1]; []]%nat
              export_spec.late_events ∅ Hfuel) as (res & files' & Hrun' & Hok & _).
  rewrite Hrun in Hrun'. injection Hrun' as <- _.
  intros Hall. apply Hok in Hall. discriminate.
Defined.
